(** * Reconciliation core of the Cisco configuration agent

    Shallow embedding of
    - [neutron/plugins/cisco/device_manager/plugging_drivers/hw_vlan_trunking_driver.py]
      (creation, listing and bounded deletion of hosting-device
      resources, and the map from devices and networks to interfaces), and
    - [neutron/plugins/cisco/cfg_agent/service_helpers/phy_routing_svc_helper.py]
      (per-device router reconciliation, the notifications from the
      plugin and the fleet-level fan-out).

    Python dictionaries and sets become [gmap]/[gset]; mutable objects are
    threaded through an explicit state; every call to a collaborator that
    is not part of these two files is answered by an oracle which sees the
    history of earlier calls, and is recorded in a trace. *)

From Stdlib Require Import Ascii.
From stdpp Require Import gmap strings list fin_maps.

Open Scope string_scope.
Open Scope nat_scope.
Open Scope list_scope.

(** ** hw_vlan_trunking_driver.py *)
Module HwVLANTrunkingPlugDriver.

Definition DELETION_ATTEMPTS : nat := 5.
Definition SECONDS_BETWEEN_DELETION_ATTEMPTS : nat := 3.

(** What [deleter(context, item_id)] can do, as seen by the three
    [except] clauses of [_delete_resources]: return, raise
    [exception_type] (for ports [n_exc.PortNotFound]), raise another
    [n_exc.NeutronException], or raise something that is no
    [NeutronException] at all (no clause matches, it propagates). *)
Inductive DeleterOutcome :=
| Deleted
| RaisedExpected
| RaisedNeutron
| RaisedOther.

Inductive Event :=
| EvInfoAttempt (attempts : nat)
| EvSleep (seconds : nat)
| EvDeleter (item_id : string) (o : DeleterOutcome)
| EvErrorFailed (item_id : string)
| EvWarnAbort (attempts : nat)
| EvInfoSucceeded.

#[global] Instance DeleterOutcome_eq_dec : EqDecision DeleterOutcome.
Proof. solve_decision. Defined.
#[global] Instance Event_eq_dec : EqDecision Event.
Proof. solve_decision. Defined.

(** The management port is a dictionary of which only ['id'] is read. *)
Record MgmtPort := mkMgmtPort { id : string }.

(** How a call leaves a Python function. *)
Inductive Completion := Returns | Propagates.

Section Driver.

(** [self._core_plugin.delete_port]: its answer may depend on everything
    that happened before. *)
Variable deleter : list Event -> string -> DeleterOutcome.

(** Body of [for item_id in resource_ids.copy()], over the iteration
    order [items] of the copy; [resource_ids] is the set being mutated. *)
Fixpoint delete_each (items : list string) (resource_ids : gset string)
    (tr : list Event) : Completion * gset string * list Event :=
  match items with
  | [] => (Returns, resource_ids, tr)
  | item_id :: rest =>
      let o := deleter tr item_id in
      let tr1 := tr ++ [EvDeleter item_id o] in
      match o with
      | Deleted => delete_each rest (resource_ids ∖ {[item_id]}) tr1
      | RaisedExpected => delete_each rest (resource_ids ∖ {[item_id]}) tr1
      | RaisedNeutron => delete_each rest resource_ids (tr1 ++ [EvErrorFailed item_id])
      | RaisedOther => (Propagates, resource_ids, tr1)
      end
  end.

Definition _delete_resources (resource_ids : gset string) (tr : list Event)
    : Completion * gset string * list Event :=
  delete_each (elements resource_ids) resource_ids tr.

(** The [while mgmt_port is not None] loop; [fuel] bounds the number of
    iterations of the model, [None] means the fuel ran out. *)
Fixpoint deletion_loop (fuel attempts : nat) (mgmt_port : option MgmtPort)
    (tr : list Event) : option (Completion * list Event) :=
  match mgmt_port with
  | None => Some (Returns, tr ++ [EvInfoSucceeded])
  | Some port =>
      if attempts =? DELETION_ATTEMPTS
      then Some (Returns, tr ++ [EvWarnAbort DELETION_ATTEMPTS])
      else
        match fuel with
        | O => None
        | S fuel' =>
            let tr0 :=
              if 1 <? attempts
              then tr ++ [EvSleep SECONDS_BETWEEN_DELETION_ATTEMPTS]
              else tr in
            let tr1 := tr0 ++ [EvInfoAttempt attempts] in
            let ml : gset string := {[ id port ]} in
            match _delete_resources ml tr1 with
            | (Propagates, _, tr2) => Some (Propagates, tr2)
            | (Returns, ml', tr2) =>
                let mgmt_port' :=
                  if decide (ml' = ∅) then None else mgmt_port in
                deletion_loop fuel' (S attempts) mgmt_port' tr2
            end
        end
  end.

Definition delete_hosting_device_resources (mgmt_port : option MgmtPort)
    : option (Completion * list Event) :=
  deletion_loop DELETION_ATTEMPTS 1 mgmt_port [].

End Driver.

(** Number of times the deleter was invoked. *)
Definition is_deleter_call (e : Event) : bool :=
  match e with EvDeleter _ _ => true | _ => false end.

Definition deleter_calls (tr : list Event) : nat :=
  length (filter (fun e => is_deleter_call e = true) tr).

Definition always_failing : list Event -> string -> DeleterOutcome :=
  fun _ _ => RaisedNeutron.

(** A deleter that fails on p1 only. *)
Definition one_bad_one_good : list Event -> string -> DeleterOutcome :=
  fun _ item_id => if decide (item_id = "p1") then RaisedNeutron else Deleted.

End HwVLANTrunkingPlugDriver.

(** ** phy_routing_svc_helper.py: data *)

Definition N_ROUTER_PREFIX : string := "nrouter-".
Definition PHYSICAL_GLOBAL_ROUTER_ID : string := "PHYSICAL_GLOBAL_ROUTER_ID".

(** A port dictionary. The agent reads ['id'] and ['admin_state_up'];
    the remaining items are carried along unread. *)
Record Port := mkPort {
  p_id : string;
  p_admin_state_up : bool;
  p_items : list (string * string)
}.

(** A router dictionary as sent by the plugin. [r_interfaces] is the
    value under [l3_constants.INTERFACE_KEY] and [r_ha_gw_interfaces] the
    one under [l3_constants.HA_GW_KEY]; both are read with
    [.get(key, [])], so a missing key is the empty list. ['gw_port'],
    ['ha_info'] and ['enable_snat'] are read with [.get]. *)
Record Router := mkRouter {
  r_id : string;
  r_admin_state_up : bool;
  r_gw_port : option Port;
  r_ha_info : option string;
  r_interfaces : list Port;
  r_ha_gw_interfaces : list Port;
  r_enable_snat : option bool
}.

#[global] Instance Port_eq_dec : EqDecision Port.
Proof. solve_decision. Defined.
#[global] Instance Router_eq_dec : EqDecision Router.
Proof. solve_decision. Defined.

(** Exceptions the agent distinguishes. [OtherException] stands for any
    other subclass of [Exception]. *)
Inductive Exn :=
| DriverException
| KeyError
| ValueError
| TypeError
| MessagingTimeout
| OtherException.

#[global] Instance Exn_eq_dec : EqDecision Exn.
Proof. solve_decision. Defined.

(** *** class RouterInfo *)
Module RouterInfo.

Record t := mk {
  router_id : string;
  ex_gw_port : option Port;
  _snat_enabled : option bool;
  _snat_action : option string;
  internal_ports : list Port;
  floating_ips : list string;
  _router : Router;
  routes : list string;
  ha_info : option string;
  ha_gw_ports : list Port
}.

(** The [router] property setter. A [Router] always has its ['id'] item,
    so [not self._router] is false and the early return is not taken. *)
Definition set_router (value : Router) (ri : t) : t :=
  mk (router_id ri) (ex_gw_port ri)
     (Some (default true (r_enable_snat value)))
     (_snat_action ri) (internal_ports ri) (floating_ips ri)
     value (routes ri) (ha_info ri) (ha_gw_ports ri).

Definition router (ri : t) : Router := _router ri.

Definition __init__ (router_id : string) (router : Router) : t :=
  mk router_id None
     (Some (default true (r_enable_snat router)))
     None [] [] router [] (r_ha_info router) [].

Definition router_name (ri : t) : string :=
  String.append N_ROUTER_PREFIX (router_id ri).

Definition set_ha_info (v : option string) (ri : t) : t :=
  mk (router_id ri) (ex_gw_port ri) (_snat_enabled ri) (_snat_action ri)
     (internal_ports ri) (floating_ips ri) (_router ri) (routes ri)
     v (ha_gw_ports ri).

Definition set_ex_gw_port (v : option Port) (ri : t) : t :=
  mk (router_id ri) v (_snat_enabled ri) (_snat_action ri)
     (internal_ports ri) (floating_ips ri) (_router ri) (routes ri)
     (ha_info ri) (ha_gw_ports ri).

Definition set_internal_ports (v : list Port) (ri : t) : t :=
  mk (router_id ri) (ex_gw_port ri) (_snat_enabled ri) (_snat_action ri)
     v (floating_ips ri) (_router ri) (routes ri)
     (ha_info ri) (ha_gw_ports ri).

Definition set_ha_gw_ports (v : list Port) (ri : t) : t :=
  mk (router_id ri) (ex_gw_port ri) (_snat_enabled ri) (_snat_action ri)
     (internal_ports ri) (floating_ips ri) (_router ri) (routes ri)
     (ha_info ri) v.

End RouterInfo.

(** [list.remove(x)]: drops the first item equal to [x]; [None] is the
    [ValueError] of a list that has no such item. *)
Fixpoint list_remove (x : Port) (l : list Port) : option (list Port) :=
  match l with
  | [] => None
  | y :: l' =>
      if decide (y = x) then Some l'
      else match list_remove x l' with
           | Some l'' => Some (y :: l'')
           | None => None
           end
  end.

(** ** phy_routing_svc_helper.py: class PhyRouterContext *)
Module PhyRouterContext.

(** Calls that leave the file: methods inherited from
    [routing_svc_helper.RoutingServiceHelper] and methods of the device
    driver. The first argument of the per-router calls is the id of the
    router on whose behalf the call is made. *)
Inductive Call :=
| CSendEmptyCfg
| CFetchRouterInfo (router_ids : option (list string))
| CDeleteInvalidCfg
| CPrepareFullsync
| CClearFullsync
| CRouterAdded (rid : string)
| CRouterRemoved (rid : string)
| CSetSubnetInfo (rid : string) (p : Port)
| CInternalNetworkAdded (rid : string) (p : Port)
| CInternalNetworkRemoved (rid : string) (p : Port)
| CExternalGatewayAdded (rid : string) (p : Port)
| CExternalGatewayRemoved (rid : string) (p : Port)
| CProcessRouterFloatingIps (rid : string)
| CRoutesUpdated (rid : string).

Inductive Outcome :=
| Returned
| Raised (e : Exn).

Definition Event : Type := Call * Outcome.

#[global] Instance Call_eq_dec : EqDecision Call.
Proof. solve_decision. Defined.
#[global] Instance Outcome_eq_dec : EqDecision Outcome.
Proof. solve_decision. Defined.

(** The world outside the agent: how each call ends, and what a fetch
    of desired state returns, both as functions of the history. *)
Record Env := mkEnv {
  answer : list Event -> Call -> Outcome;
  fetched : list Event -> option (list string) -> list Router
}.

(** Instance attributes of [PhyRouterContext], and the history of calls. *)
Record t := mk {
  router_info : gmap string RouterInfo.t;
  updated_routers : gset string;
  removed_routers : gset string;
  sync_devices : gset (option nat);
  fullsync : bool;
  trace : list Event
}.

Definition set_router_info (v : gmap string RouterInfo.t) (s : t) : t :=
  mk v (updated_routers s) (removed_routers s) (sync_devices s)
     (fullsync s) (trace s).
Definition set_updated_routers (v : gset string) (s : t) : t :=
  mk (router_info s) v (removed_routers s) (sync_devices s)
     (fullsync s) (trace s).
Definition set_removed_routers (v : gset string) (s : t) : t :=
  mk (router_info s) (updated_routers s) v (sync_devices s)
     (fullsync s) (trace s).
Definition set_sync_devices (v : gset (option nat)) (s : t) : t :=
  mk (router_info s) (updated_routers s) (removed_routers s) v
     (fullsync s) (trace s).
Definition set_fullsync (v : bool) (s : t) : t :=
  mk (router_info s) (updated_routers s) (removed_routers s)
     (sync_devices s) v (trace s).
Definition set_trace (v : list Event) (s : t) : t :=
  mk (router_info s) (updated_routers s) (removed_routers s)
     (sync_devices s) (fullsync s) v.

(** [__init__]: the state of a freshly created context. *)
Definition __init__ : t := mk ∅ ∅ ∅ ∅ true [].

(** *** State and exception monad

    A computation either returns a value or raises; in both cases the
    mutations made so far stay. *)
Inductive Result (A : Type) :=
| Ret (a : A) (s : t)
| Raise (e : Exn) (s : t).
Arguments Ret {A} a s.
Arguments Raise {A} e s.

Definition M (A : Type) : Type := t -> Result A.

Definition state_of {A} (r : Result A) : t :=
  match r with Ret _ s => s | Raise _ s => s end.

Definition ret {A} (a : A) : M A := fun s => Ret a s.
Definition raise {A} (e : Exn) : M A := fun s => Raise e s.
Definition bind {A B} (m : M A) (k : A -> M B) : M B :=
  fun s => match m s with
           | Ret a s' => k a s'
           | Raise e s' => Raise e s'
           end.
Definition catch {A} (m : M A) (h : Exn -> M A) : M A :=
  fun s => match m s with
           | Ret a s' => Ret a s'
           | Raise e s' => h e s'
           end.
Definition get : M t := fun s => Ret s s.
Definition modify (f : t -> t) : M unit := fun s => Ret tt (f s).

Notation "'let*' x ':=' m 'in' k" := (bind m (fun x => k))
  (at level 10, x name, m at level 100, k at level 200).
Notation "m >> k" := (bind m (fun _ => k))
  (at level 100, k at level 200, right associativity).

Fixpoint for_each {A} (l : list A) (body : A -> M unit) : M unit :=
  match l with
  | [] => ret tt
  | x :: l' => body x >> for_each l' body
  end.

Section Agent.

Variable env : Env.

(** A call to a collaborator: ask the oracle, record the event. *)
Definition call (c : Call) : M unit :=
  fun s =>
    let o := answer env (trace s) c in
    let s' := set_trace (trace s ++ [(c, o)]) s in
    match o with
    | Returned => Ret tt s'
    | Raised e => Raise e s'
    end.

(** The object [ri] is the entry of [router_info] under the key [k]; a
    read or write through [ri] goes to that entry. [read_ri] raises
    [KeyError] like [self.router_info[k]]. *)
Definition read_ri (k : string) : M RouterInfo.t :=
  fun s => match router_info s !! k with
           | Some ri => Ret ri s
           | None => Raise KeyError s
           end.

Definition modify_ri (k : string) (f : RouterInfo.t -> RouterInfo.t)
    : M unit :=
  modify (fun s => set_router_info (alter f k (router_info s)) s).

Definition _get_port_set_diffs (existing_list current_list : list Port)
    : list Port * list Port :=
  let existing_port_ids : gset string :=
    list_to_set (p_id <$> existing_list) in
  let current_port_ids : gset string :=
    list_to_set
      (p_id <$> filter (fun p => p_admin_state_up p = true) current_list) in
  let new_ports :=
    filter (fun p => p_id p ∈ current_port_ids ∖ existing_port_ids)
           current_list in
  let old_ports :=
    filter (fun p => p_id p ∉ current_port_ids) existing_list in
  (old_ports, new_ports).

(** [ri.internal_ports.remove(p)] and [ri.ha_gw_ports.remove(p)]. *)
Definition remove_internal_port (k : string) (p : Port) : M unit :=
  let* ri := read_ri k in
  match list_remove p (RouterInfo.internal_ports ri) with
  | Some l => modify_ri k (RouterInfo.set_internal_ports l)
  | None => raise ValueError
  end.

Definition remove_ha_gw_port (k : string) (p : Port) : M unit :=
  let* ri := read_ri k in
  match list_remove p (RouterInfo.ha_gw_ports ri) with
  | Some l => modify_ri k (RouterInfo.set_ha_gw_ports l)
  | None => raise ValueError
  end.

Definition append_internal_port (p : Port) (ri : RouterInfo.t) : RouterInfo.t :=
  RouterInfo.set_internal_ports (RouterInfo.internal_ports ri ++ [p]) ri.

Definition append_ha_gw_port (p : Port) (ri : RouterInfo.t) : RouterInfo.t :=
  RouterInfo.set_ha_gw_ports (RouterInfo.ha_gw_ports ri ++ [p]) ri.

(** The [try] block of [_process_router]; [ri] is the object as it is
    when the method is entered, from which the desired state and the
    two differences are computed before anything is applied. *)
Definition process_router_try (k : string) (ri : RouterInfo.t) : M unit :=
  let ex_gw_port := r_gw_port (RouterInfo.router ri) in
  modify_ri k (RouterInfo.set_ha_info (r_ha_info (RouterInfo.router ri))) >>
  let internal_ports := r_interfaces (RouterInfo.router ri) in
  let gw_ports := r_ha_gw_interfaces (RouterInfo.router ri) in
  let '(old_ports, new_ports) :=
    _get_port_set_diffs (RouterInfo.internal_ports ri) internal_ports in
  let '(old_gw_ports, new_gw_ports) :=
    _get_port_set_diffs (RouterInfo.ha_gw_ports ri) gw_ports in
  for_each new_ports (fun p =>
    call (CSetSubnetInfo k p) >>
    call (CInternalNetworkAdded k p) >>
    modify_ri k (append_internal_port p)) >>
  for_each old_ports (fun p =>
    call (CInternalNetworkRemoved k p) >>
    remove_internal_port k p) >>
  for_each new_gw_ports (fun p =>
    call (CSetSubnetInfo k p) >>
    call (CExternalGatewayAdded k p) >>
    modify_ri k (append_ha_gw_port p)) >>
  for_each old_gw_ports (fun p =>
    call (CExternalGatewayRemoved k p) >>
    remove_ha_gw_port k p) >>
  (match ex_gw_port with
   | Some _ => call (CProcessRouterFloatingIps k)
   | None => ret tt
   end) >>
  modify_ri k (RouterInfo.set_ex_gw_port ex_gw_port) >>
  call (CRoutesUpdated k).

Definition add_updated_router (rid : string) : M unit :=
  modify (fun s => set_updated_routers (updated_routers s ∪ {[rid]}) s).

(** [_process_router(ri)], the object [ri] being the entry under [k]:
    the [try] block, and [except DriverException] with
    [save_and_reraise_exception]. [ri.router_id] is set by the
    constructor only, so the handler reads the same id. *)
Definition _process_router (k : string) : M unit :=
  let* ri := read_ri k in
  catch (process_router_try k ri)
    (fun e =>
       match e with
       | DriverException =>
           add_updated_router (RouterInfo.router_id ri) >>
           raise DriverException
       | _ => raise e
       end).

(** Modelled from the spec: [_router_added] of the parent class
    [RoutingServiceHelper], which is not part of these files. Step 8 of
    the device pass: "create a RouterRecord"; the driver is told first
    and may refuse. *)
Definition _router_added (router_id : string) (router : Router) : M unit :=
  call (CRouterAdded router_id) >>
  modify (fun s =>
    set_router_info
      (<[router_id := RouterInfo.__init__ router_id router]> (router_info s))
      s).

(** Modelled from the spec: [_router_removed] of the parent class
    [RoutingServiceHelper], which is not part of these files. Step 6 of
    the device pass: "invoke router-removal teardown and discard its
    RouterRecord; collect ids that fail to delete to report back without
    aborting the rest". The teardown is one call; when it fails with a
    driver error the record stays and the id is kept in
    [removed_routers]. *)
Definition _router_removed (router_id : string) : M unit :=
  catch
    (call (CRouterRemoved router_id) >>
     modify (fun s =>
       set_router_info (delete router_id (router_info s)) s))
    (fun e =>
       match e with
       | DriverException =>
           modify (fun s =>
             set_removed_routers (removed_routers s ∪ {[router_id]}) s)
       | _ => raise e
       end).

(** Modelled from the spec: [_fetch_router_info] of the parent class
    [RoutingServiceHelper], which is not part of these files.
    "fetchDesiredState(ids: optional set, fullFleet: bool) ->
    list<RouterDescriptor>"; [None] asks for all routers. *)
Definition _fetch_router_info (router_ids : option (list string))
    : M (list Router) :=
  let* s := get in
  call (CFetchRouterInfo router_ids) >>
  ret (fetched env (trace s) router_ids).

(** [delete_invalid_cfg(router_db_info)]. The argument comes from
    [_fetch_router_info] and is a list, so the [is None] branch is not
    taken; the returned [existing_cfg_dict] is only handed on to
    [prepare_fullsync]. *)
Definition delete_invalid_cfg (router_db_info : list Router) : M unit :=
  call CDeleteInvalidCfg.

Definition prepare_fullsync : M unit := call CPrepareFullsync.
Definition clear_fullsync : M unit := call CClearFullsync.

(** Moves the first router whose id is the global sentinel to the end. *)
Fixpoint _adjust_router_list (routers : list Router) : list Router :=
  match routers with
  | [] => []
  | r :: rest =>
      if decide (r_id r = PHYSICAL_GLOBAL_ROUTER_ID)
      then rest ++ [r]
      else r :: _adjust_router_list rest
  end.

(** The inner [try] block of the main loop of [_process_routers]. The
    second [cur_router_ids.add] there updates a local that is not read
    again. *)
Definition try_router (r : Router) : M unit :=
  if negb (r_admin_state_up r) then ret tt
  else
    let* s := get in
    (match router_info s !! r_id r with
     | None => _router_added (r_id r) r
     | Some _ => ret tt
     end) >>
    let* ri := read_ri (r_id r) in
    modify_ri (r_id r) (RouterInfo.set_router r) >>
    _process_router (r_id r).

Definition requeue (rid : string) : M unit :=
  add_updated_router rid >>
  modify (set_fullsync true).

(** One iteration of the main loop, with its two [except] clauses. *)
Definition process_one (deleted_id_list : list string) (r : Router)
    : M unit :=
  if decide (r_id r ∈ deleted_id_list) then ret tt
  else
    catch (try_router r)
      (fun e =>
         match e with
         | KeyError => requeue (r_id r)
         | DriverException => requeue (r_id r)
         | _ => raise e
         end).

Definition main_loop (deleted_id_list : list string)
    (routers : list Router) : M unit :=
  for_each routers (process_one deleted_id_list).

(** The outer [try] block of [_process_routers]. Sets are iterated in
    the order of [elements]. *)
Definition process_routers_try (routers removed_routers : list Router)
    (all_routers : bool) : M unit :=
  let* s := get in
  let prev_router_ids : gset string :=
    if all_routers then dom (router_info s)
    else dom (router_info s) ∩ list_to_set (r_id <$> routers) in
  let cur_router_ids : gset string :=
    list_to_set
      (r_id <$> filter (fun r => r_admin_state_up r = true) routers) in
  let gone := elements (prev_router_ids ∖ cur_router_ids) in
  for_each gone _router_removed >>
  for_each removed_routers (fun router => _router_removed (r_id router)) >>
  let deleted_id_list := gone ++ (r_id <$> removed_routers) in
  main_loop deleted_id_list (_adjust_router_list routers).

Definition _process_routers (routers removed_routers : list Router)
    (device_id : option nat) (all_routers : bool) : M unit :=
  catch (process_routers_try routers removed_routers all_routers)
    (fun _ =>
       modify (fun s =>
         set_sync_devices (sync_devices s ∪ {[device_id]}) s)).

(** The [try] block of [process_service]. *)
Definition process_service_try : M unit :=
  call CSendEmptyCfg >>
  let* s := get in
  let* plan :=
    (if fullsync s then
       modify (set_fullsync false) >>
       modify (set_updated_routers ∅) >>
       modify (set_removed_routers ∅) >>
       modify (set_sync_devices ∅) >>
       let* routers := _fetch_router_info None in
       delete_invalid_cfg routers >>
       prepare_fullsync >>
       modify (set_router_info ∅) >>
       ret (routers, ([] : list Router), true)
     else
       let* routers :=
         (if decide (updated_routers s = ∅) then ret []
          else
            let router_ids := elements (updated_routers s) in
            modify (set_updated_routers ∅) >>
            _fetch_router_info (Some router_ids)) in
       let* s1 := get in
       let removed :=
         omap (fun r => RouterInfo.router <$> router_info s1 !! r)
              (elements (removed_routers s1)) in
       ret (routers, removed, false)) in
  let '(routers, removed, all_routers_flag) := plan in
  _process_routers routers removed (Some 0) all_routers_flag >>
  clear_fullsync.

Definition process_service : M unit :=
  catch process_service_try (fun _ => modify (set_fullsync true)).

End Agent.

(** [connection_err_callback(ex)], which the driver calls when its
    connection to the device fails. *)
Definition connection_err_callback (s : t) : t := set_fullsync true s.

End PhyRouterContext.

(** ** phy_routing_svc_helper.py: the RPC proxy classes

    [super(C, self)] needs the class of [self] and the class table of
    the module: it raises [TypeError] unless [self] is an instance of
    [C], and otherwise delegates to the class that follows [C] in the
    method resolution order of [type(self)]. *)
Module Classes.

Inductive Class :=
| cls_object
| cls_RpcProxy
| cls_CiscoRoutingPluginApi
| cls_PhyCiscoRoutingPluginApi.

#[global] Instance Class_eq_dec : EqDecision Class.
Proof. solve_decision. Defined.

(** The base class named in each [class] statement. *)
Definition base (c : Class) : option Class :=
  match c with
  | cls_object => None
  | cls_RpcProxy => Some cls_object
  | cls_CiscoRoutingPluginApi => Some cls_RpcProxy
  | cls_PhyCiscoRoutingPluginApi => Some cls_RpcProxy
  end.

(** Method resolution order under single inheritance; four classes, so
    a chain has at most four links. *)
Fixpoint mro_from (fuel : nat) (c : Class) : list Class :=
  match fuel with
  | O => []
  | S fuel' =>
      c :: match base c with
           | Some b => mro_from fuel' b
           | None => []
           end
  end.

Definition mro (c : Class) : list Class := mro_from 4 c.

Definition issubclass (c d : Class) : bool := bool_decide (d ∈ mro c).

(** The classes after the first occurrence of [c]. *)
Fixpoint after (c : Class) (l : list Class) : list Class :=
  match l with
  | [] => []
  | d :: l' => if decide (d = c) then l' else after c l'
  end.

(** An instance of one of the proxy classes: its class and the
    attributes the constructors set. *)
Record Instance := mkInstance {
  class_of : Class;
  topic : option string;
  default_version : option string;
  host : option string
}.

Definition set_host (h : string) (self : Instance) : Instance :=
  mkInstance (class_of self) (topic self) (default_version self) (Some h).

(** [super(type_, self)]: the class to which attribute lookups are
    delegated, or the [TypeError] of Python's check
    "obj must be an instance or subtype of type". *)
Definition super (type_ : Class) (self : Instance) : Exn + Class :=
  if issubclass (class_of self) type_
  then match after type_ (mro (class_of self)) with
       | next :: _ => inr next
       | [] => inr cls_object
       end
  else inl TypeError.

Definition BASE_RPC_API_VERSION : string := "1.1".

(** [n_rpc.RpcProxy.__init__(topic, default_version)] keeps its two
    arguments; [object.__init__] does nothing. *)
Definition RpcProxy___init__ (tp dv : string) (self : Instance) : Instance :=
  mkInstance (class_of self) (Some tp) (Some dv) (host self).

(** [__init__] as found from class [c] on. *)
Definition init_from (c : Class) (tp dv : string) (self : Instance)
    : Instance :=
  match c with
  | cls_object => self
  | _ => RpcProxy___init__ tp dv self
  end.

(** Both classes have the same [__init__] body, and both name
    [CiscoRoutingPluginApi] in their [super] call. *)
Definition CiscoRoutingPluginApi___init__ (self : Instance)
    (tp h : string) : Exn + Instance :=
  match super cls_CiscoRoutingPluginApi self with
  | inl e => inl e
  | inr next => inr (set_host h (init_from next tp BASE_RPC_API_VERSION self))
  end.

Definition PhyCiscoRoutingPluginApi___init__ (self : Instance)
    (tp h : string) : Exn + Instance :=
  match super cls_CiscoRoutingPluginApi self with
  | inl e => inl e
  | inr next => inr (set_host h (init_from next tp BASE_RPC_API_VERSION self))
  end.

Definition blank (c : Class) : Instance := mkInstance c None None None.

(** The constructor calls [CiscoRoutingPluginApi(topic, host)] and
    [PhyCiscoRoutingPluginApi(topic, host)]. *)
Definition CiscoRoutingPluginApi (tp h : string) : Exn + Instance :=
  CiscoRoutingPluginApi___init__ (blank cls_CiscoRoutingPluginApi) tp h.

Definition PhyCiscoRoutingPluginApi (tp h : string) : Exn + Instance :=
  PhyCiscoRoutingPluginApi___init__ (blank cls_PhyCiscoRoutingPluginApi) tp h.

End Classes.

(** ** phy_routing_svc_helper.py: class RoutingServiceHelperWithPhyContext *)
Module RoutingServiceHelperWithPhyContext.

Import PhyRouterContext.

(** [topics.L3PLUGIN] and [c_constants.CFG_AGENT_L3_ROUTING]. *)
Definition L3PLUGIN : string := "q-l3-plugin".
Definition CFG_AGENT_L3_ROUTING : string := "cisco_cfg_agent_l3_routing".

Record t := mk {
  plugin_rpc : Classes.Instance;
  topic : string;
  _asr_contexts : gmap string PhyRouterContext.t
}.

(** [__init__(host, conf, cfg_agent)]. [admin_context] is how
    [n_context.get_admin_context_without_session()] ends and [asr_list]
    the names in [ASR1kConfigInfo().get_asr_list()]. *)
Definition __init__ (host : string) (admin_context : Outcome)
    (asr_list : list string) : Exn + t :=
  match admin_context with
  | Raised e => inl e
  | Returned =>
      match Classes.PhyCiscoRoutingPluginApi L3PLUGIN host with
      | inl e => inl e
      | inr rpc =>
          let tp :=
            String.append CFG_AGENT_L3_ROUTING (String.append "." host) in
          let contexts : gmap string PhyRouterContext.t :=
            foldl (fun m name => <[name := PhyRouterContext.__init__]> m)
                  ∅ asr_list in
          inr (mk rpc tp contexts)
      end
  end.

Definition set_asr_contexts (v : gmap string PhyRouterContext.t) (h : t)
    : t :=
  mk (plugin_rpc h) (topic h) v.

Definition router_deleted (routers : list string) (h : t) : t :=
  set_asr_contexts
    ((fun c => set_removed_routers (removed_routers c ∪ list_to_set routers) c)
       <$> _asr_contexts h) h.

(** [routers_updated(context, routers)]. The notification carries
    router ids or, in the old format, router dictionaries; the format is
    decided by the first item. *)
Definition routers_updated (routers : list string + list Router) (h : t)
    : t :=
  let is_empty :=
    match routers with
    | inl ids => bool_decide (ids = [])
    | inr dicts => bool_decide (dicts = [])
    end in
  if is_empty then h
  else
    let routers :=
      match routers with
      | inl ids => ids
      | inr dicts => (fun router => r_id router) <$> dicts
      end in
    set_asr_contexts
      ((fun c =>
          set_updated_routers (updated_routers c ∪ list_to_set routers) c)
         <$> _asr_contexts h) h.

(** [router_removed_from_agent(context, payload)]: [payload] is a
    dictionary; [payload['router_id']] is evaluated once per context, so
    a payload without that key raises [KeyError] unless there is no
    context at all. *)
Definition router_removed_from_agent (payload : gmap string string) (h : t)
    : Exn + t :=
  if bool_decide (_asr_contexts h = ∅) then inr h
  else
    match payload !! "router_id" with
    | None => inl KeyError
    | Some router_id =>
        inr (set_asr_contexts
               ((fun c =>
                   set_removed_routers (removed_routers c ∪ {[router_id]}) c)
                  <$> _asr_contexts h) h)
    end.

(** [router_added_to_agent(context, payload)]: the payload is a list
    of router ids, handed to [routers_updated]. *)
Definition router_added_to_agent (payload : list string) (h : t) : t :=
  routers_updated (inl payload) h.

Definition resync_asrs (h : t) : t :=
  set_asr_contexts (set_fullsync true <$> _asr_contexts h) h.

(** [process_service]. [heartbeat] is how
    [self.plugin_rpc.agent_heartbeat] ends; [envs] gives the world of
    each device. Every device pass works on its own context only, so the
    green threads of the pool are run one per context. *)
Definition process_service (envs : string -> Env) (heartbeat : Outcome)
    (h : t) : option Exn * t :=
  match heartbeat with
  | Raised MessagingTimeout => (None, resync_asrs h)
  | Raised e => (Some e, h)
  | Returned =>
      (None,
       set_asr_contexts
         (map_imap
            (fun asr_name asr_ctx =>
               Some (state_of
                       (PhyRouterContext.process_service
                          (envs asr_name) asr_ctx)))
            (_asr_contexts h)) h)
  end.

End RoutingServiceHelperWithPhyContext.

(** ** Vocabulary of the properties *)
Module Vocabulary.

Import PhyRouterContext.

(** A relation between the state before and the state after holds for a
    computation when it holds however the computation ends. *)
Definition preserves {A} (I : t -> t -> Prop) (m : M A) : Prop :=
  forall s, I s (state_of (m s)).

(** The history only grows, by events satisfying [P]. *)
Definition ext (P : Event -> Prop) (s s' : t) : Prop :=
  exists evs, trace s' = trace s ++ evs /\ Forall P evs.

Definition both (I J : t -> t -> Prop) (s s' : t) : Prop := I s s' /\ J s s'.

Definition any_event : Event -> Prop := fun _ => True.

(** Events of floating-IP reconciliation. *)
Definition not_floating_ips (ev : Event) : Prop :=
  forall rid, fst ev <> CProcessRouterFloatingIps rid.

(** A computation that, when it returns, has [c] as its last event. *)
Definition ends_with (c : Call) {A} (m : M A) : Prop :=
  forall s a s', m s = Ret a s' ->
    exists evs, trace s' = trace s ++ evs ++ [(c, Returned)].

(** The list [get ri] of the record under [k] follows the driver: an
    item that is new in it has a returned [addc] call in the history, an
    item that left it has a returned [remc] call. *)
Definition tracks (get : RouterInfo.t -> list Port)
    (addc remc : string -> Port -> Call) (k : string) (s s' : t) : Prop :=
  exists evs,
    trace s' = trace s ++ evs /\
    forall ri, router_info s !! k = Some ri ->
      exists ri',
        router_info s' !! k = Some ri' /\
        (forall p, p ∈ get ri' ->
           p ∈ get ri \/ (addc k p, Returned) ∈ evs) /\
        (forall p, p ∈ get ri ->
           p ∈ get ri' \/ (remc k p, Returned) ∈ evs).

(** The two lists of the agent. *)
Definition tracks_internal : string -> t -> t -> Prop :=
  tracks RouterInfo.internal_ports CInternalNetworkAdded
         CInternalNetworkRemoved.

Definition tracks_ha_gw : string -> t -> t -> Prop :=
  tracks RouterInfo.ha_gw_ports CExternalGatewayAdded
         CExternalGatewayRemoved.

(** The router on whose behalf a call of the main loop is made; calls of
    [process_service] itself and removals have none. *)
Definition call_router (c : Call) : option string :=
  match c with
  | CRouterAdded rid => Some rid
  | CSetSubnetInfo rid _ => Some rid
  | CInternalNetworkAdded rid _ => Some rid
  | CInternalNetworkRemoved rid _ => Some rid
  | CExternalGatewayAdded rid _ => Some rid
  | CExternalGatewayRemoved rid _ => Some rid
  | CProcessRouterFloatingIps rid => Some rid
  | CRoutesUpdated rid => Some rid
  | _ => None
  end.

(** Calls made by [process_service] itself. *)
Definition is_direct (c : Call) : bool :=
  match c with
  | CSendEmptyCfg | CFetchRouterInfo _ | CDeleteInvalidCfg
  | CPrepareFullsync | CClearFullsync => true
  | _ => false
  end.

(** What is queued stays queued, and a raised flag stays raised. *)
Definition grows (s s' : t) : Prop :=
  updated_routers s ⊆ updated_routers s' /\
  (fullsync s = true -> fullsync s' = true).

(** A computation made for router [rid] that swallows nothing: its
    events are calls for [rid]; if it returns, all of them returned, and
    if it raises [e], none of them raised anything but [e]. *)
Definition strict_at (rid : string) {A} (s : t) (r : Result A) : Prop :=
  exists evs,
    trace (state_of r) = trace s ++ evs /\
    Forall (fun ev => call_router (fst ev) = Some rid) evs /\
    match r with
    | Ret _ _ => Forall (fun ev => snd ev = Returned) evs
    | Raise e _ =>
        Forall (fun ev => snd ev = Returned \/ snd ev = Raised e) evs
    end.

Definition strict (rid : string) {A} (m : M A) : Prop :=
  forall s, strict_at rid s (m s).

(** The invariant of a device pass: nothing that [process_service]
    calls itself happens inside; what is queued stays queued; and a call
    made for router [rid] that raised [DriverException] or [KeyError]
    has put [rid] back into [updated_routers] and raised [fullsync]. *)
Definition requeues (s s' : t) : Prop :=
  exists evs,
    trace s' = trace s ++ evs /\
    Forall (fun ev => is_direct (fst ev) = false) evs /\
    grows s s' /\
    forall c e rid,
      (c, Raised e) ∈ evs -> call_router c = Some rid ->
      e = DriverException \/ e = KeyError ->
      rid ∈ updated_routers s' /\ fullsync s' = true.

(** No event is made for router [rid]. *)
Definition not_for (rid : string) (ev : Event) : Prop :=
  call_router (fst ev) <> Some rid.

(** A record that is absent stays absent. *)
Definition absent (rid : string) (s s' : t) : Prop :=
  router_info s !! rid = None -> router_info s' !! rid = None.

Definition shrinks (s s' : t) : Prop := forall k, absent k s s'.

(** A computation of [process_service] itself: when it returns, the
    calls it made are direct ones and all of them returned. *)
Definition quiet_return {A} (m : M A) : Prop :=
  forall s a s', m s = Ret a s' ->
    exists evs,
      trace s' = trace s ++ evs /\
      Forall (fun ev => is_direct (fst ev) = true /\ snd ev = Returned) evs.

(** Failures after which the flag is raised when [process_service]
    returns: a failed call of [process_service] itself, or a
    [DriverException] or [KeyError] from a call made for a router. *)
Definition raises_flag (ev : Event) : Prop :=
  (is_direct (fst ev) = true /\ snd ev <> Returned) \/
  (exists rid, call_router (fst ev) = Some rid /\
     (snd ev = Raised DriverException \/ snd ev = Raised KeyError)).

(** Some port of [l] has the id [i] and is administratively up. *)
Definition up_in (l : list Port) (i : string) : Prop :=
  Exists (fun q => p_id q = i /\ p_admin_state_up q = true) l.

(** The difference as the specification words it: an old port leaves
    when its id is not among the ids of [new], a new port enters when
    its id is not among the ids of [old] and the port is up. *)
Definition spec_diffPorts (old new : list Port) : list Port * list Port :=
  (filter (fun p => p_id p ∉ (p_id <$> new)) old,
   filter (fun p => (p_id p ∉ (p_id <$> old)) /\ p_admin_state_up p = true) new).

End Vocabulary.

(** ** Sample routers, contexts and worlds *)
Module Scenarios.

Import PhyRouterContext.

(** A world in which every call returns, and nothing is fetched. *)
Definition all_ok : Env := mkEnv (fun _ _ => Returned) (fun _ _ => []).

Definition port1 : Port := mkPort "p1" true [].

Definition port2 : Port := mkPort "p2" true [].

(** Router r1 with one internal port and no gateway port. *)
Definition r1_up : Router := mkRouter "r1" true None None [port1] [] None.

Definition r1_down : Router := mkRouter "r1" false None None [port1] [] None.

Definition r1_no_ports : Router := mkRouter "r1" true None None [] [] None.

(** A context that knows r1 with [port1] applied. *)
Definition ri1 : RouterInfo.t :=
  RouterInfo.set_internal_ports [port1] (RouterInfo.__init__ "r1" r1_up).

Definition knows_r1 : t := mk {[ "r1" := ri1 ]} ∅ ∅ ∅ false [].

(** The driver refuses every removal of an internal port. *)
Definition removal_fails : Env :=
  mkEnv (fun _ c =>
           match c with
           | CInternalNetworkRemoved _ _ => Raised DriverException
           | _ => Returned
           end)
        (fun _ _ => []).

(** r1 is known with [port1] applied, and its desired state has no
    port any more. *)
Definition ri1_shrunk : RouterInfo.t := RouterInfo.set_router r1_no_ports ri1.

Definition knows_r1_shrunk : t := mk {[ "r1" := ri1_shrunk ]} ∅ ∅ ∅ false [].

(** The driver refuses to plug [port1]; r2 is a second router. *)
Definition add_fails : Env :=
  mkEnv (fun _ c =>
           match c with
           | CInternalNetworkAdded "r1" _ => Raised DriverException
           | _ => Returned
           end)
        (fun _ _ => []).

Definition r2_up : Router := mkRouter "r2" true None None [port2] [] None.

(** The control plane knows r1; [_set_subnet_info] fails with a plain
    [Exception]. *)
Definition subnet_info_fails : Env :=
  mkEnv (fun _ c =>
           match c with
           | CSetSubnetInfo _ _ => Raised OtherException
           | _ => Returned
           end)
        (fun _ _ => [r1_up]).

(** The fetch of desired state fails. *)
Definition fetch_fails : Env :=
  mkEnv (fun _ c =>
           match c with
           | CFetchRouterInfo _ => Raised MessagingTimeout
           | _ => Returned
           end)
        (fun _ _ => []).

Definition port_a_up : Port := mkPort "a" true [].

Definition port_a_down : Port := mkPort "a" false [].

Definition port_b_up : Port := mkPort "b" true [].

End Scenarios.

(** ** Vocabulary of the further properties *)
Module MoreVocabulary.

Import HwVLANTrunkingPlugDriver.

(** The outcomes of the deleter calls of a run, in order. *)
Definition outcomes (tr : list Event) : list DeleterOutcome :=
  omap (fun e => match e with EvDeleter _ o => Some o | _ => None end) tr.

End MoreVocabulary.

(** ** Vocabulary of the further properties of a device pass *)
Module PassVocabulary.

Import PhyRouterContext Vocabulary.

(** The ids of the routers of a list that are administratively up. *)
Definition up_ids (routers : list Router) : gset string :=
  list_to_set (r_id <$> filter (fun r => r_admin_state_up r = true) routers).

(** Every record is stored under its own router id. *)
Definition well_keyed (s : t) : Prop :=
  forall k ri, router_info s !! k = Some ri -> RouterInfo.router_id ri = k.

Definition keeps_keys (s s' : t) : Prop := well_keyed s -> well_keyed s'.

(** Records appear for the ids of [A] only. *)
Definition within (A : gset string) (s s' : t) : Prop :=
  dom (router_info s') ⊆ dom (router_info s) ∪ A.

(** A history made of consecutive segments, the i-th one of events
    that satisfy the i-th predicate; segments may be empty. *)
Fixpoint phased (Ps : list (Event -> Prop)) (evs : list Event) : Prop :=
  match Ps with
  | [] => evs = []
  | P :: Ps' =>
      exists e1 e2, evs = e1 ++ e2 /\ Forall P e1 /\ phased Ps' e2
  end.

(** The events of a computation come in the phases [Ps], however it
    ends. *)
Definition runs_in (Ps : list (Event -> Prop)) {A} (m : M A) : Prop :=
  forall s, exists evs,
    trace (state_of (m s)) = trace s ++ evs /\ phased Ps evs.

Definition floating_ips (k : string) (ev : Event) : Prop :=
  fst ev = CProcessRouterFloatingIps k.
Definition routes (k : string) (ev : Event) : Prop :=
  fst ev = CRoutesUpdated k.



(** A driver that accepts everything. *)
Definition obliging (env : Env) : Prop :=
  forall tr c, answer env tr c = Returned.

(** [list.remove] for each item of [ops] in turn. *)
Fixpoint remove_all (ops l : list Port) : option (list Port) :=
  match ops with
  | [] => Some l
  | p :: ops' =>
      match list_remove p l with
      | Some l' => remove_all ops' l'
      | None => None
      end
  end.

(** From [s] to [s']: the events [evs] were added to the history, the
    record under [k] became [ri'], and nothing else changed. *)
Definition at_record (k : string) (s : t) (evs : list Event)
    (ri' : RouterInfo.t) (s' : t) : Prop :=
  trace s' = trace s ++ evs /\
  router_info s' = <[k := ri']> (router_info s) /\
  updated_routers s' = updated_routers s /\
  removed_routers s' = removed_routers s /\
  sync_devices s' = sync_devices s /\
  fullsync s' = fullsync s.

(** The applied ports that are still wanted: those whose id is the id
    of an administratively up desired port. *)
Definition kept (current l : list Port) : list Port :=
  filter (fun p => up_in current (p_id p)) l.

Definition added_events (k : string) (c : string -> Port -> Call)
    (ps : list Port) : list Event :=
  flat_map (fun p => [(CSetSubnetInfo k p, Returned); (c k p, Returned)]) ps.

Definition removed_events (k : string) (c : string -> Port -> Call)
    (ps : list Port) : list Event :=
  (fun p => (c k p, Returned)) <$> ps.

(** The record of a router after a pass in which every call returned:
    each applied list is what was kept followed by the new ports. *)
Definition applied (ri : RouterInfo.t) : RouterInfo.t :=
  let d := RouterInfo.router ri in
  RouterInfo.set_ex_gw_port (r_gw_port d)
    (RouterInfo.set_ha_gw_ports
       (kept (r_ha_gw_interfaces d) (RouterInfo.ha_gw_ports ri) ++
        snd (_get_port_set_diffs (RouterInfo.ha_gw_ports ri)
               (r_ha_gw_interfaces d)))
       (RouterInfo.set_internal_ports
          (kept (r_interfaces d) (RouterInfo.internal_ports ri) ++
           snd (_get_port_set_diffs (RouterInfo.internal_ports ri)
                  (r_interfaces d)))
          (RouterInfo.set_ha_info (r_ha_info d) ri))).

(** The calls of such a pass. *)
Definition pass_events (k : string) (ri : RouterInfo.t) : list Event :=
  let d := RouterInfo.router ri in
  let internal :=
    _get_port_set_diffs (RouterInfo.internal_ports ri) (r_interfaces d) in
  let gateway :=
    _get_port_set_diffs (RouterInfo.ha_gw_ports ri) (r_ha_gw_interfaces d) in
  added_events k CInternalNetworkAdded (snd internal) ++
  removed_events k CInternalNetworkRemoved (fst internal) ++
  added_events k CExternalGatewayAdded (snd gateway) ++
  removed_events k CExternalGatewayRemoved (fst gateway) ++
  match r_gw_port d with
  | Some _ => [(CProcessRouterFloatingIps k, Returned)]
  | None => []
  end ++
  [(CRoutesUpdated k, Returned)].

End PassVocabulary.

(** ** Further samples *)
Module MoreScenarios.

Import PhyRouterContext Scenarios.


End MoreScenarios.

(** ** hw_vlan_trunking_driver.py: resources of a hosting device *)
Module HostingDeviceResources.

Import HwVLANTrunkingPlugDriver.

(** A fixed ip of a port and a row of [models_v2.Port], with the
    attributes the driver reads. *)
Record FixedIp := mkFixedIp { subnet_id : string; ip_address : string }.

Record PortRow := mkPortRow {
  port_id : string;
  device_id : string;
  device_owner : string;
  network_id : string;
  fixed_ips : list FixedIp
}.

#[global] Instance FixedIp_eq_dec : EqDecision FixedIp.
Proof. solve_decision. Defined.
#[global] Instance PortRow_eq_dec : EqDecision PortRow.
Proof. solve_decision. Defined.

(** The dictionary [get_hosting_device_resources] returns; [networks]
    and [subnets] hold the ids of the one-item dictionaries. *)
Record Resources := mkResources {
  mgmt_port : option PortRow;
  ports : list PortRow;
  networks : list string;
  subnets : list string
}.

Inductive Raised := IndexError.

(** The loop body of [get_hosting_device_resources]. *)
Definition collect (mgmt_nw_id : option string) (acc : Resources)
    (port : PortRow) : Raised + Resources :=
  if decide (Some (network_id port) <> mgmt_nw_id) then
    match fixed_ips port with
    | [] => inl IndexError
    | ip :: _ =>
        inr (mkResources (mgmt_port acc) (ports acc ++ [port])
               (networks acc ++ [network_id port])
               (subnets acc ++ [subnet_id ip]))
    end
  else inr (mkResources (Some port) (ports acc) (networks acc) (subnets acc)).

Fixpoint collect_all (mgmt_nw_id : option string) (query : list PortRow)
    (acc : Resources) : Raised + Resources :=
  match query with
  | [] => inr acc
  | port :: rest =>
      match collect mgmt_nw_id acc port with
      | inl e => inl e
      | inr acc' => collect_all mgmt_nw_id rest acc'
      end
  end.

(** [get_hosting_device_resources(context, id, complementary_id,
    tenant_id, mgmt_nw_id)]; [table] is the port table in the order
    the query yields its rows. *)
Definition get_hosting_device_resources (table : list PortRow)
    (id complementary_id : string) (mgmt_nw_id : option string)
    : Raised + Resources :=
  let query :=
    filter (fun port =>
              device_id port = id \/ device_owner port = complementary_id)
           table in
  collect_all mgmt_nw_id query (mkResources None [] [] []).

(** How [self.mgmt_port_profile_id()] and
    [self._core_plugin.create_port] end. *)
Inductive ProfileOutcome :=
| ProfileId (profile_id : string)
| ProfileAttributeError
| ProfileRaised.

Inductive CreateOutcome :=
| Created (port : MgmtPort)
| CreateNeutronException
| CreateRaised.

(** The port specification handed to [create_port]: the items that
    vary, and the profile id when there is one. *)
Record PSpec := mkPSpec {
  ps_tenant_id : string;
  ps_network_id : string;
  ps_fixed_ips : list string;
  ps_device_owner : string;
  ps_profile_id : option string
}.

Inductive Result :=
| Return (mgmt_port : option MgmtPort)
| Propagate.

(** Truth value of a string, and of the three operands of the guard. *)
Definition truthy (s : option string) : bool :=
  match s with
  | Some s => negb (String.eqb s "")
  | None => false
  end.

Section Create.

Variable deleter : list Event -> string -> DeleterOutcome.
(** [self._mgmt_subnet_spec(context, mgmt_context)] of the parent
    driver; [None] when it raises. *)
Variable _mgmt_subnet_spec : gmap string string -> option (list string).
Variable mgmt_port_profile_id : ProfileOutcome.
Variable create_port : PSpec -> CreateOutcome.

(** [create_hosting_device_resources(context, complementary_id,
    tenant_id, mgmt_context, max_hosted)]: how it ends and the history
    of the clean-up it ran, if any; [None] when the model of the
    clean-up loop runs out of fuel. *)
Definition create_hosting_device_resources (complementary_id : string)
    (tenant_id : option string) (mgmt_context : option (gmap string string))
    : option (Result * list Event) :=
  let mgmt_port : option MgmtPort := None in
  match mgmt_context, tenant_id with
  | Some ctx, Some tenant =>
      if negb (bool_decide (ctx = ∅)) && truthy (ctx !! "mgmt_nw_id")
         && truthy tenant_id
      then
        match ctx !! "mgmt_nw_id", _mgmt_subnet_spec ctx with
        | Some nw, Some ips =>
            let p_spec := mkPSpec tenant nw ips complementary_id in
            match mgmt_port_profile_id with
            | ProfileRaised => Some (Propagate, [])
            | profile =>
                let p_spec :=
                  p_spec (match profile with
                          | ProfileId v => Some v
                          | _ => None
                          end) in
                match create_port p_spec with
                | Created port => Some (Return (Some port), [])
                | CreateRaised => Some (Propagate, [])
                | CreateNeutronException =>
                    match delete_hosting_device_resources deleter mgmt_port
                    with
                    | Some (Returns, tr) => Some (Return None, tr)
                    | Some (Propagates, tr) => Some (Propagate, tr)
                    | None => None
                    end
                end
            end
        | _, _ => Some (Propagate, [])
        end
      else Some (Return mgmt_port, [])
  | _, _ => Some (Return mgmt_port, [])
  end.

End Create.

End HostingDeviceResources.

(** ** hw_vlan_trunking_driver.py: the map of device interfaces *)
Module InterfaceMap.

(** [str.split(sep)] for a separator of one character. *)
Fixpoint split (sep : Ascii.ascii) (s : string) : list string :=
  match s with
  | EmptyString => [EmptyString]
  | String c rest =>
      if Ascii.eqb c sep then EmptyString :: split sep rest
      else
        match split sep rest with
        | part :: parts => String c part :: parts
        | [] => [String c EmptyString]
        end
  end.

(** [_device_network_interface_map]: device id, then ['internal'] or
    ['external'], then network id, to the interface. *)
Abbreviation Temp := (gmap string (gmap string (gmap string string))).

Inductive LogRecord :=
| InvalidMapping (key value dev : string)
| FailedLookup (dev net : string).

(** [temp[hd_uuid][entry][net_id] = interface]. *)
Definition setitem (hd_uuid entry net_id interface : string) (temp : Temp)
    : Exn + Temp :=
  match temp !! hd_uuid with
  | None => inl KeyError
  | Some dev =>
      match dev !! entry with
      | None => inl KeyError
      | Some nets =>
          inr (<[hd_uuid := <[entry := <[net_id := interface]> nets]> dev]>
                 temp)
      end
  end.

(** [for net_id in net_spec.split(',')]: what was raised, if anything,
    and the map as it is then. *)
Fixpoint assign_each (hd_uuid entry interface : string)
    (net_ids : list string) (temp : Temp) : option Exn * Temp :=
  match net_ids with
  | [] => (None, temp)
  | net_id :: rest =>
      match setitem hd_uuid entry net_id interface temp with
      | inl e => (Some e, temp)
      | inr temp' => assign_each hd_uuid entry interface rest temp'
      end
  end.

(** The [try] block for one item of a section, with its handler. *)
Definition load_item (hd_uuid : string) (kv : string * string)
    (st : Temp * list LogRecord) : Exn + (Temp * list LogRecord) :=
  let '(k, v) := kv in
  let '(temp, log) := st in
  let attempt : option Exn * Temp :=
    match String.index 0 "_" k with
    | None => (Some ValueError, temp)
    | Some i =>
        let entry := String.substring 0 i k in
        match split ":"%char v with
        | [net_spec; interface] =>
            assign_each hd_uuid entry interface (split ","%char net_spec) temp
        | _ => (Some ValueError, temp)
        end
    end in
  match attempt with
  | (None, temp') => inr (temp', log)
  | (Some ValueError, temp') | (Some KeyError, temp') =>
      inr (temp', log ++ [InvalidMapping k v hd_uuid])
  | (Some e, _) => inl e
  end.

Fixpoint load_items (hd_uuid : string) (kv_dict : list (string * string))
    (st : Temp * list LogRecord) : Exn + (Temp * list LogRecord) :=
  match kv_dict with
  | [] => inr st
  | kv :: rest =>
      match load_item hd_uuid kv st with
      | inl e => inl e
      | inr st' => load_items hd_uuid rest st'
      end
  end.

Section Config.

(** [config.uuidify], which may reject a section name. *)
Variable uuidify : string -> Exn + string.

Fixpoint load_sections (dni_dict : list (string * list (string * string)))
    (st : Temp * list LogRecord) : Exn + (Temp * list LogRecord) :=
  match dni_dict with
  | [] => inr st
  | (hd_uuid, kv_dict) :: rest =>
      match uuidify hd_uuid with
      | inl e => inl e
      | inr hd_uuid =>
          let temp :=
            if decide (is_Some (fst st !! hd_uuid)) then fst st
            else
              <[hd_uuid := {[ "internal" := ∅; "external" := ∅ ]}]> (fst st)
          in
          match load_items hd_uuid kv_dict (temp, snd st) with
          | inl e => inl e
          | inr st' => load_sections rest st'
          end
      end
  end.

(** The class attribute and the log. *)
Record Cls := mkCls {
  _device_network_interface_map : option Temp;
  log : list LogRecord
}.

(** [_get_network_interface_map_from_config()]; [dni_dict] is what
    [config.get_specific_config] returns, a dictionary of dictionaries
    in their iteration order. *)
Definition _get_network_interface_map_from_config
    (dni_dict : list (string * list (string * string))) (cls : Cls)
    : Exn + Cls :=
  match load_sections dni_dict (∅, log cls) with
  | inl e => inl e
  | inr (temp, log') => inr (mkCls (Some temp) log')
  end.

(** The [try] block of [_get_interface_info]. *)
Definition lookup_interface (cls : Cls) (device_id network_id : string)
    (external : bool) : Exn + string :=
  match _device_network_interface_map cls with
  | None => inl TypeError
  | Some m =>
      match m !! device_id with
      | None => inl KeyError
      | Some dev_info =>
          let side := if external then "external" else "internal" in
          match dev_info !! side with
          | None => inl KeyError
          | Some nets =>
              match nets !! "*" with
              | None => inl KeyError
              | Some wildcard => inr (default wildcard (nets !! network_id))
              end
          end
      end
  end.

(** [_get_interface_info(device_id, network_id, external)]. *)
Definition _get_interface_info
    (dni_dict : list (string * list (string * string)))
    (device_id network_id : string) (external : bool) (cls : Cls)
    : Exn + (option string * Cls) :=
  let loaded :=
    match _device_network_interface_map cls with
    | None => _get_network_interface_map_from_config dni_dict cls
    | Some _ => inr cls
    end in
  match loaded with
  | inl e => inl e
  | inr cls =>
      match lookup_interface cls device_id network_id external with
      | inr interface => inr (Some interface, cls)
      | inl TypeError | inl KeyError =>
          inr (None,
               mkCls (_device_network_interface_map cls)
                 (log cls ++ [FailedLookup device_id network_id]))
      | inl e => inl e
      end
  end.

End Config.

(** *** What the configuration asks for *)

(** An assignment: device, side, network, interface. *)
Abbreviation Write := (string * string * string * string)%type.

(** The assignments of a well-formed item; no assignment for an item
    that is not well formed. *)
Definition item_writes (hd_uuid : string) (kv : string * string)
    : list Write :=
  match String.index 0 "_" (fst kv), split ":"%char (snd kv) with
  | Some i, [net_spec; interface] =>
      let entry := String.substring 0 i (fst kv) in
      if decide (entry = "internal" \/ entry = "external") then
        (fun net_id => (hd_uuid, entry, net_id, interface))
          <$> split ","%char net_spec
      else []
  | _, _ => []
  end.

Definition section_writes (hd_uuid : string)
    (kv_dict : list (string * string)) : list Write :=
  flat_map (item_writes hd_uuid) kv_dict.

Definition config_writes (uuidify : string -> Exn + string)
    (dni_dict : list (string * list (string * string))) : list Write :=
  flat_map (fun sec =>
              match uuidify (fst sec) with
              | inr hd_uuid => section_writes hd_uuid (snd sec)
              | inl _ => []
              end) dni_dict.

(** The items of the configuration that are not well formed, as they
    are logged. *)
Definition section_rejects (hd_uuid : string)
    (kv_dict : list (string * string)) : list LogRecord :=
  flat_map (fun kv =>
              match item_writes hd_uuid kv with
              | [] => [InvalidMapping (fst kv) (snd kv) hd_uuid]
              | _ => []
              end) kv_dict.

Definition config_rejects (uuidify : string -> Exn + string)
    (dni_dict : list (string * list (string * string))) : list LogRecord :=
  flat_map (fun sec =>
              match uuidify (fst sec) with
              | inr hd_uuid => section_rejects hd_uuid (snd sec)
              | inl _ => []
              end) dni_dict.

(** The last assignment made for a device, side and network. *)
Definition last_write (ws : list Write) (dev side net : string)
    : option string :=
  snd <$> last (filter (fun w => fst w = (dev, side, net)) ws).

(** What a map holds for a device, side and network. *)
Definition held (m : Temp) (dev side net : string) : option string :=
  match m !! dev with
  | Some d =>
      match d !! side with
      | Some nets => nets !! net
      | None => None
      end
  | None => None
  end.

Definition side_of (external : bool) : string :=
  if external then "external" else "internal".

(** Every device of the map has the two sides and nothing else. *)
Definition shaped (temp : Temp) : Prop :=
  forall hd d, temp !! hd = Some d ->
    forall side, is_Some (d !! side) <-> side = "internal" \/ side = "external".

(** From [temp] to [temp']: the assignments [ws] were made, in order,
    and nothing else changed. *)
Definition follows (ws : list Write) (temp temp' : Temp) : Prop :=
  shaped temp' /\
  (forall hd, is_Some (temp !! hd) -> is_Some (temp' !! hd)) /\
  forall dev side net,
    held temp' dev side net
    = from_option Some (held temp dev side net) (last_write ws dev side net).

(** [uuidify] accepts the name of every section. *)
Definition accepted (uuidify : string -> Exn + string)
    (dni_dict : list (string * list (string * string))) : Prop :=
  Forall (fun sec => exists hd_uuid, uuidify (fst sec) = inr hd_uuid) dni_dict.

(** The answer for a device and network, from the assignments of the
    configuration. *)
Definition answer_of (ws : list Write) (device_id network_id : string)
    (external : bool) : option string :=
  match last_write ws device_id (side_of external) "*" with
  | Some wildcard =>
      Some (default wildcard
              (last_write ws device_id (side_of external) network_id))
  | None => None
  end.

(** A sample configuration: one device with a wildcard and one network
    on the internal side, and one item that is not well formed. *)
Definition sample_uuidify : string -> Exn + string := fun s => inr s.
Definition sample_config : list (string * list (string * string)) :=
  [("dev1", [("internal_1", "*:eth0"); ("internal_2", "net1,net2:eth1");
             ("bogus", "net3:eth2"); ("external_1", "net9:eth3")])].

End InterfaceMap.

(** * Properties *)

(** ** Deletion of hosting-device resources *)
Module DeletionRetry.

Import HwVLANTrunkingPlugDriver.

Lemma elem_of_drop (ids : gset string) (x item : string) :
  x <> item -> (x ∈ ids ∖ {[item]} <-> x ∈ ids).
Proof.
  intros Hne. rewrite elem_of_difference, elem_of_singleton. tauto.
Qed.

Lemma not_elem_of_drop (ids : gset string) (item : string) :
  item ∉ ids ∖ {[item]}.
Proof.
  rewrite elem_of_difference, elem_of_singleton. tauto.
Qed.

Section WithDeleter.

Variable deleter : list Event -> string -> DeleterOutcome.

(** What one sweep over the ids does, item by item. *)
Lemma delete_each_spec (items : list string) :
  NoDup items ->
  forall (ids : gset string) (tr : list Event) c ids' tr',
    delete_each deleter items ids tr = (c, ids', tr') ->
    exists evs,
      tr' = tr ++ evs /\
      Forall (fun e => is_deleter_call e = true \/ exists x, e = EvErrorFailed x) evs /\
      (forall x, x ∉ items ->
         (x ∈ ids' <-> x ∈ ids) /\ forall o, EvDeleter x o ∉ evs) /\
      (c = Returns ->
       forall x, x ∈ items ->
         exists o,
           EvDeleter x o ∈ evs /\
           (forall o', EvDeleter x o' ∈ evs -> o' = o) /\
           ((o = Deleted \/ o = RaisedExpected) /\ x ∉ ids' \/
            o = RaisedNeutron /\ (x ∈ ids' <-> x ∈ ids))).
Proof.
  induction 1 as [|item rest Hnotin Hnd IH]; intros ids tr c ids' tr' Hrun.
  - simpl in Hrun. injection Hrun as <- <- <-. exists [].
    split; [by rewrite app_nil_r|]. split; [constructor|]. split.
    + intros x _. split; [reflexivity|]. intros o Ho. inversion Ho.
    + intros _ x Hx. inversion Hx.
  - simpl in Hrun.
    destruct (deleter tr item) eqn:Hout.
    + apply IH in Hrun as (evs & -> & Hall & Hout' & Hin').
      exists (EvDeleter item Deleted :: evs). rewrite <- app_assoc. simpl.
      split; [reflexivity|]. split; [constructor; auto|]. split.
      * intros x Hx. apply not_elem_of_cons in Hx as [Hne Hx].
        destruct (Hout' x Hx) as [Hiff Hno]. split.
        -- rewrite Hiff. apply elem_of_drop. exact Hne.
        -- intros o Ho. apply elem_of_cons in Ho as [Ho|Ho]; [congruence|].
           exact (Hno o Ho).
      * intros Hc x Hx. apply elem_of_cons in Hx as [->|Hx].
        -- destruct (Hout' item Hnotin) as [Hiff Hno].
           exists Deleted. split; [left|]. split.
           ++ intros o' Ho'. apply elem_of_cons in Ho' as [Ho'|Ho'];
                [congruence | destruct (Hno o' Ho')].
           ++ left. split; [auto|]. rewrite Hiff. apply not_elem_of_drop.
        -- destruct (Hin' Hc x Hx) as (o & Ho & Huniq & Hcase).
           assert (x <> item) by (intros ->; contradiction).
           exists o. split; [right; exact Ho|]. split.
           ++ intros o' Ho'. apply elem_of_cons in Ho' as [Ho'|Ho'];
                [congruence | auto].
           ++ destruct Hcase as [[Ho1 Ho2]|[Ho1 Ho2]]; [left; auto|].
              right. split; [auto|]. rewrite Ho2. apply elem_of_drop. assumption.
    + apply IH in Hrun as (evs & -> & Hall & Hout' & Hin').
      exists (EvDeleter item RaisedExpected :: evs). rewrite <- app_assoc. simpl.
      split; [reflexivity|]. split; [constructor; auto|]. split.
      * intros x Hx. apply not_elem_of_cons in Hx as [Hne Hx].
        destruct (Hout' x Hx) as [Hiff Hno]. split.
        -- rewrite Hiff. apply elem_of_drop. exact Hne.
        -- intros o Ho. apply elem_of_cons in Ho as [Ho|Ho]; [congruence|].
           exact (Hno o Ho).
      * intros Hc x Hx. apply elem_of_cons in Hx as [->|Hx].
        -- destruct (Hout' item Hnotin) as [Hiff Hno].
           exists RaisedExpected. split; [left|]. split.
           ++ intros o' Ho'. apply elem_of_cons in Ho' as [Ho'|Ho'];
                [congruence | destruct (Hno o' Ho')].
           ++ left. split; [auto|]. rewrite Hiff. apply not_elem_of_drop.
        -- destruct (Hin' Hc x Hx) as (o & Ho & Huniq & Hcase).
           assert (x <> item) by (intros ->; contradiction).
           exists o. split; [right; exact Ho|]. split.
           ++ intros o' Ho'. apply elem_of_cons in Ho' as [Ho'|Ho'];
                [congruence | auto].
           ++ destruct Hcase as [[Ho1 Ho2]|[Ho1 Ho2]]; [left; auto|].
              right. split; [auto|]. rewrite Ho2. apply elem_of_drop. assumption.
    + apply IH in Hrun as (evs & -> & Hall & Hout' & Hin').
      exists (EvDeleter item RaisedNeutron :: EvErrorFailed item :: evs).
      rewrite <- !app_assoc. simpl.
      split; [reflexivity|].
      split; [constructor; [left; reflexivity|constructor; [right; eauto|exact Hall]]|].
      split.
      * intros x Hx. apply not_elem_of_cons in Hx as [Hne Hx].
        destruct (Hout' x Hx) as [Hiff Hno]. split; [exact Hiff|].
        intros o Ho. apply elem_of_cons in Ho as [Ho|Ho]; [congruence|].
        apply elem_of_cons in Ho as [Ho|Ho]; [discriminate|].
        exact (Hno o Ho).
      * intros Hc x Hx. apply elem_of_cons in Hx as [->|Hx].
        -- destruct (Hout' item Hnotin) as [Hiff Hno].
           exists RaisedNeutron. split; [left|]. split.
           ++ intros o' Ho'. apply elem_of_cons in Ho' as [Ho'|Ho'];
                [congruence|].
              apply elem_of_cons in Ho' as [Ho'|Ho']; [discriminate|].
              destruct (Hno o' Ho').
           ++ right. split; [auto|exact Hiff].
        -- destruct (Hin' Hc x Hx) as (o & Ho & Huniq & Hcase).
           exists o. split; [right; right; exact Ho|]. split; [|exact Hcase].
           intros o' Ho'. apply elem_of_cons in Ho' as [Ho'|Ho'].
           ++ injection Ho' as -> _. contradiction.
           ++ apply elem_of_cons in Ho' as [Ho'|Ho']; [discriminate|auto].
    + injection Hrun as <- <- <-.
      exists [EvDeleter item RaisedOther].
      split; [reflexivity|]. split; [repeat constructor; auto|]. split.
      * intros x Hx. apply not_elem_of_cons in Hx as [Hne Hx].
        split; [reflexivity|]. intros o Ho.
        apply list_elem_of_singleton in Ho. congruence.
      * discriminate.
Qed.

Lemma delete_resources_trace ids tr c ids' tr' :
  _delete_resources deleter ids tr = (c, ids', tr') ->
  exists evs, tr' = tr ++ evs /\ EvInfoSucceeded ∉ evs.
Proof.
  intros Hrun. unfold _delete_resources in Hrun.
  apply delete_each_spec in Hrun as (evs & -> & Hall & _);
    [|apply NoDup_elements].
  exists evs. split; [reflexivity|].
  intros Hin. rewrite Forall_forall in Hall.
  destruct (Hall _ Hin) as [Hcall|[x Hx]]; discriminate.
Qed.

(** The loop reports success only after a sweep in which the deleter
    returned or raised the expected exception for the port. *)
Lemma succeeded_only_after_removal (fuel : nat) :
  forall attempts port tr0 c tr_end,
    deletion_loop deleter fuel attempts (Some port) tr0 = Some (c, tr_end) ->
    EvInfoSucceeded ∉ tr0 ->
    EvInfoSucceeded ∈ tr_end ->
    exists o, EvDeleter (id port) o ∈ tr_end /\
              (o = Deleted \/ o = RaisedExpected).
Proof.
  induction fuel as [|fuel IH]; intros attempts port tr0 c tr_end Hrun Hfresh Hsucc;
    simpl in Hrun; destruct (attempts =? DELETION_ATTEMPTS) eqn:Hatt.
  - injection Hrun as <- <-. apply elem_of_app in Hsucc as [Hs|Hs];
      [contradiction|]. apply list_elem_of_singleton in Hs. discriminate.
  - discriminate.
  - injection Hrun as <- <-. apply elem_of_app in Hsucc as [Hs|Hs];
      [contradiction|]. apply list_elem_of_singleton in Hs. discriminate.
  - set (tr1 := (if 1 <? attempts
                 then tr0 ++ [EvSleep SECONDS_BETWEEN_DELETION_ATTEMPTS]
                 else tr0) ++ [EvInfoAttempt attempts]) in Hrun.
    assert (Hfresh1 : EvInfoSucceeded ∉ tr1).
    { subst tr1. intros Hin. apply elem_of_app in Hin as [Hin|Hin].
      - destruct (1 <? attempts); [|contradiction].
        apply elem_of_app in Hin as [Hin|Hin]; [contradiction|].
        apply list_elem_of_singleton in Hin. discriminate.
      - apply list_elem_of_singleton in Hin. discriminate. }
    destruct (_delete_resources deleter {[id port]} tr1)
      as [[c1 ml'] tr2] eqn:Hdel.
    pose proof (delete_resources_trace _ _ _ _ _ Hdel) as (evs & -> & Hevs).
    assert (Hfresh2 : EvInfoSucceeded ∉ tr1 ++ evs).
    { intros Hin. apply elem_of_app in Hin as [Hin|Hin]; contradiction. }
    destruct c1.
    + destruct (decide (ml' = ∅)) as [Hempty|Hne].
      * destruct fuel; simpl in Hrun; injection Hrun as <- <-;
        unfold _delete_resources in Hdel;
        (apply delete_each_spec in Hdel as (evs' & Heq & _ & _ & Hin');
          [|apply NoDup_elements]);
        apply app_inv_head in Heq; subst evs';
        (destruct (Hin' eq_refl (id port)) as (o & Ho & _ & Hcase);
          [apply elem_of_elements, elem_of_singleton; reflexivity|]);
        (destruct Hcase as [[Ho1 _]|[_ Ho2]];
          [exists o; split; [|exact Ho1];
           apply elem_of_app; left; apply elem_of_app; right; exact Ho
          |exfalso; subst ml';
           apply (not_elem_of_empty (C:=gset string) (id port));
           apply Ho2, elem_of_singleton; reflexivity]).
      * eapply IH; eauto.
    + injection Hrun as <- <-. contradiction.
Qed.

(** Five units of fuel are enough for any call that starts at attempt 1:
    the function is total. *)
Lemma deletion_loop_total (fuel attempts : nat) :
  forall mgmt_port tr,
    attempts <= DELETION_ATTEMPTS ->
    DELETION_ATTEMPTS - attempts <= fuel ->
    exists res, deletion_loop deleter fuel attempts mgmt_port tr = Some res.
Proof.
  revert attempts. induction fuel as [|fuel IH]; intros attempts mgmt_port tr Hle Hfuel;
    destruct mgmt_port as [port|]; simpl; eauto;
    destruct (attempts =? DELETION_ATTEMPTS) eqn:Hatt; eauto.
  - apply Nat.eqb_neq in Hatt. lia.
  - apply Nat.eqb_neq in Hatt.
    destruct (_delete_resources deleter {[id port]} _) as [[[|] ml'] tr2];
      [|eauto].
    apply IH; lia.
Qed.

Lemma delete_hosting_device_resources_total mgmt_port :
  exists res, delete_hosting_device_resources deleter mgmt_port = Some res.
Proof.
  apply deletion_loop_total; unfold DELETION_ATTEMPTS; lia.
Qed.

End WithDeleter.

(** C10: when [_delete_resources] returns, every id of the set met the
    deleter exactly once; the id is gone from the set iff that call
    returned or raised the expected not-found exception, and it is still
    in the set iff the call raised another NeutronException. The caller
    logs success only after a sweep that emptied its one-element set,
    that is after such a call for the management port. *)
Theorem delete_resources_removes_iff
    (deleter : list Event -> string -> DeleterOutcome)
    (ids : gset string) (tr : list Event) (ids' : gset string)
    (tr' : list Event) :
  _delete_resources deleter ids tr = (Returns, ids', tr') ->
  (exists evs,
     tr' = tr ++ evs /\
     ids' ⊆ ids /\
     forall x, x ∈ ids ->
       exists o,
         EvDeleter x o ∈ evs /\
         (forall o', EvDeleter x o' ∈ evs -> o' = o) /\
         (x ∉ ids' <-> o = Deleted \/ o = RaisedExpected) /\
         (x ∈ ids' <-> o = RaisedNeutron)) /\
  (forall port c tr_end,
     delete_hosting_device_resources deleter (Some port) = Some (c, tr_end) ->
     EvInfoSucceeded ∈ tr_end ->
     exists o, EvDeleter (id port) o ∈ tr_end /\
               (o = Deleted \/ o = RaisedExpected)).
Proof.
  intros Hrun. split.
  - unfold _delete_resources in Hrun.
    apply delete_each_spec in Hrun as (evs & -> & _ & Hout & Hin);
      [|apply NoDup_elements].
    exists evs. split; [reflexivity|]. split.
    + intros x Hx. destruct (decide (x ∈ elements ids)) as [Hel|Hel].
      * apply elem_of_elements in Hel. exact Hel.
      * apply (Hout x Hel). exact Hx.
    + intros x Hx.
      destruct (Hin eq_refl x) as (o & Ho & Huniq & Hcase).
      { apply elem_of_elements. exact Hx. }
      exists o. split; [exact Ho|]. split; [exact Huniq|].
      destruct Hcase as [[Ho1 Ho2]|[Ho1 Ho2]].
      * split; split; auto.
        -- intros Hin'. contradiction.
        -- intros ->. destruct Ho1; discriminate.
      * subst o. split; split; auto.
        -- intros Hn. exfalso. apply Hn. apply Ho2. exact Hx.
        -- intros [H|H]; discriminate.
        -- intros _. apply Ho2. exact Hx.
  - intros port c tr_end Hloop Hsucc.
    eapply succeeded_only_after_removal; eauto.
    intros Hin. inversion Hin.
Qed.

Lemma delete_resources_removes_iff_witness :
  exists evs,
    [EvDeleter "p1" RaisedNeutron; EvErrorFailed "p1";
     EvDeleter "p2" Deleted] = [] ++ evs /\
    ({[ "p1" ]} : gset string) ⊆ {[ "p1"; "p2" ]} /\
    forall x, x ∈ ({[ "p1"; "p2" ]} : gset string) ->
      exists o,
        EvDeleter x o ∈ evs /\
        (forall o', EvDeleter x o' ∈ evs -> o' = o) /\
        (x ∉ ({[ "p1" ]} : gset string) <-> o = Deleted \/ o = RaisedExpected) /\
        (x ∈ ({[ "p1" ]} : gset string) <-> o = RaisedNeutron).
Proof.
  apply (delete_resources_removes_iff one_bad_one_good
           {[ "p1"; "p2" ]} [] {[ "p1" ]}
           [EvDeleter "p1" RaisedNeutron; EvErrorFailed "p1";
            EvDeleter "p2" Deleted]).
  vm_compute. reflexivity.
Defined.

(** C2: with a deleter that always raises a NeutronException other than
    the expected one, the management port's deletion is attempted
    [DELETION_ATTEMPTS - 1] = 4 times; the fifth pass through the loop
    test logs the abort (naming 5 attempts) and returns. *)
Theorem always_failing_attempts (port : MgmtPort) :
  exists tr,
    delete_hosting_device_resources always_failing (Some port)
      = Some (Returns, tr) /\
    deleter_calls tr = DELETION_ATTEMPTS - 1 /\
    deleter_calls tr = 4 /\
    last tr = Some (EvWarnAbort DELETION_ATTEMPTS) /\
    EvInfoAttempt DELETION_ATTEMPTS ∉ tr.
Proof.
  unfold delete_hosting_device_resources.
  assert (Hsweep : forall tr,
    _delete_resources always_failing {[id port]} tr
      = (Returns, {[id port]},
         tr ++ [EvDeleter (id port) RaisedNeutron; EvErrorFailed (id port)])).
  { intros tr. unfold _delete_resources. rewrite elements_singleton.
    simpl. unfold always_failing. by rewrite <- app_assoc. }
  assert (Hne : ({[id port]} : gset string) <> ∅) by set_solver.
  eexists. split.
  - cbn -[_delete_resources].
    repeat (rewrite Hsweep; cbn -[_delete_resources];
            destruct (decide (({[id port]} : gset string) = ∅));
            [contradiction|]).
    reflexivity.
  - cbn. repeat split; try reflexivity.
    intros Hin. repeat (apply elem_of_cons in Hin as [Hin|Hin]; [discriminate|]).
    inversion Hin.
Qed.

End DeletionRetry.

(** ** The port difference *)
Module PortDiff.

Import PhyRouterContext Vocabulary Scenarios.

Lemma filter_iff_in {A} (P Q : A -> Prop)
    `{forall x, Decision (P x)} `{forall x, Decision (Q x)} (l : list A) :
  (forall x, x ∈ l -> (P x <-> Q x)) -> filter P l = filter Q l.
Proof.
  induction l as [|x l IH]; intros Hiff; [reflexivity|].
  rewrite !filter_cons.
  assert (HPQ : P x <-> Q x) by (apply Hiff; left).
  rewrite IH by (intros y Hy; apply Hiff; right; exact Hy).
  destruct (decide (P x)), (decide (Q x)); tauto.
Qed.

Lemma elem_of_up_ids (l : list Port) (i : string) :
  i ∈ (list_to_set
         (p_id <$> filter (fun p => p_admin_state_up p = true) l) : gset string)
  <-> up_in l i.
Proof.
  unfold up_in. rewrite elem_of_list_to_set, list_elem_of_fmap, Exists_exists.
  split.
  - intros (q & -> & Hq). apply list_elem_of_filter in Hq as [Hup Hq].
    exists q. auto.
  - intros (q & Hq & <- & Hup). exists q. split; [reflexivity|].
    apply list_elem_of_filter. auto.
Qed.

Lemma up_in_unique (new : list Port) (p : Port) :
  NoDup (p_id <$> new) -> p ∈ new ->
  (up_in new (p_id p) <-> p_admin_state_up p = true).
Proof.
  intros Hnd Hp. unfold up_in. rewrite Exists_exists. split.
  - intros (q & Hq & Hid & Hup).
    assert (q = p) as ->; [|exact Hup].
    apply list_elem_of_lookup in Hq as [i Hi].
    apply list_elem_of_lookup in Hp as [j Hj].
    assert (i = j) as ->.
    { eapply NoDup_lookup; [exact Hnd| |];
        rewrite list_lookup_fmap; [rewrite Hi|rewrite Hj]; simpl;
        [rewrite Hid|]; reflexivity. }
    congruence.
  - intros Hup. exists p. auto.
Qed.

(** C6, as the code has it: the old ports are the items of [old] whose
    id is not the id of an administratively up item of [new]; the new
    ports are the items of [new] whose id is not among the ids of [old]
    and is the id of an administratively up item of [new], which for a
    list [new] without repeated ids means that the item itself is up.
    Order and multiplicity are those of the input lists. *)
Theorem port_set_diffs_spec (old new : list Port) :
  _get_port_set_diffs old new =
    (filter (fun p => ~ up_in new (p_id p)) old,
     filter (fun p => (p_id p ∉ (p_id <$> old)) /\ up_in new (p_id p)) new)
  /\ (NoDup (p_id <$> new) ->
      snd (_get_port_set_diffs old new) =
        filter (fun p => (p_id p ∉ (p_id <$> old)) /\ p_admin_state_up p = true)
               new).
Proof.
  assert (Heq : _get_port_set_diffs old new =
    (filter (fun p => ~ up_in new (p_id p)) old,
     filter (fun p => (p_id p ∉ (p_id <$> old)) /\ up_in new (p_id p)) new)).
  { unfold _get_port_set_diffs. f_equal.
    - apply list_filter_iff. intros p. by rewrite elem_of_up_ids.
    - apply list_filter_iff. intros p.
      rewrite elem_of_difference, elem_of_up_ids, elem_of_list_to_set.
      tauto. }
  split; [exact Heq|].
  intros Hnd. rewrite Heq. simpl.
  apply filter_iff_in. intros p Hp.
  rewrite (up_in_unique new p Hnd Hp). tauto.
Qed.

Lemma port_set_diffs_spec_witness :
  snd (_get_port_set_diffs [port_a_up] [port_a_down; port_b_up]) =
    filter (fun p => (p_id p ∉ (p_id <$> [port_a_up])) /\
                     p_admin_state_up p = true)
           [port_a_down; port_b_up].
Proof.
  apply (port_set_diffs_spec [port_a_up] [port_a_down; port_b_up]).
  apply (bool_decide_unpack _). vm_compute. exact I.
Defined.

(** C6 as stated fails: a port that is still listed but has gone
    administratively down is among the old ports of the code, while its
    id is among the ids of [new]. *)
Lemma port_set_diffs_differs_from_spec :
  _get_port_set_diffs [port_a_up] [port_a_down] = ([port_a_up], []) /\
  spec_diffPorts [port_a_up] [port_a_down] = ([], []) /\
  _get_port_set_diffs [port_a_up] [port_a_down]
    <> spec_diffPorts [port_a_up] [port_a_down].
Proof.
  assert (H1 : _get_port_set_diffs [port_a_up] [port_a_down]
               = ([port_a_up], [])) by (vm_compute; reflexivity).
  assert (H2 : spec_diffPorts [port_a_up] [port_a_down] = ([], []))
    by (vm_compute; reflexivity).
  split; [exact H1|]. split; [exact H2|].
  rewrite H1, H2. discriminate.
Qed.

End PortDiff.

(** ** Construction of the RPC proxy *)
Module ProxyConstruction.

Import Classes.

(** The sibling class is built without error: its [super] call names
    the class itself. *)
Lemma CiscoRoutingPluginApi_constructs (tp h : string) :
  CiscoRoutingPluginApi tp h =
    inr (mkInstance cls_CiscoRoutingPluginApi (Some tp)
           (Some BASE_RPC_API_VERSION) (Some h)).
Proof. reflexivity. Qed.

Lemma Phy_not_subclass_of_Cisco :
  issubclass cls_PhyCiscoRoutingPluginApi cls_CiscoRoutingPluginApi = false.
Proof. vm_compute. reflexivity. Qed.

(** C9: whatever the topic and the host, the constructor of
    [PhyCiscoRoutingPluginApi] raises [TypeError], because its [super]
    call names [CiscoRoutingPluginApi], of which the new object is no
    instance; hence [RoutingServiceHelperWithPhyContext.__init__], which
    calls that constructor, never returns an object. *)
Theorem PhyCiscoRoutingPluginApi_raises_TypeError :
  (forall tp h : string, PhyCiscoRoutingPluginApi tp h = inl TypeError) /\
  (forall (host : string) (admin_context : PhyRouterContext.Outcome)
          (asr_list : list string),
     exists e,
       RoutingServiceHelperWithPhyContext.__init__ host admin_context asr_list
         = inl e) /\
  (forall (host : string) (asr_list : list string),
     RoutingServiceHelperWithPhyContext.__init__ host
       PhyRouterContext.Returned asr_list = inl TypeError).
Proof.
  assert (Hphy : forall tp h : string,
             PhyCiscoRoutingPluginApi tp h = inl TypeError).
  { intros tp h. unfold PhyCiscoRoutingPluginApi,
      PhyCiscoRoutingPluginApi___init__, super. simpl class_of.
    rewrite Phy_not_subclass_of_Cisco. reflexivity. }
  split; [exact Hphy|]. split.
  - intros host [|e] asr_list; unfold RoutingServiceHelperWithPhyContext.__init__.
    + rewrite Hphy. eauto.
    + eauto.
  - intros host asr_list. unfold RoutingServiceHelperWithPhyContext.__init__.
    rewrite Hphy. reflexivity.
Qed.

End ProxyConstruction.

(** ** The fleet-level tick *)
Module FleetTick.

Import PhyRouterContext.
Import RoutingServiceHelperWithPhyContext.

(** C8: when the heartbeat to the control plane times out,
    [process_service] returns normally; every device context has its
    [fullsync] flag set and is otherwise as before, its history of calls
    included, so no device pass ran; no context appears or disappears. *)
Theorem heartbeat_timeout_resyncs_all (envs : string -> Env) (h : t) :
  fst (process_service envs (Raised MessagingTimeout) h) = None /\
  (forall asr_name,
     _asr_contexts (snd (process_service envs (Raised MessagingTimeout) h))
       !! asr_name
     = set_fullsync true <$> _asr_contexts h !! asr_name) /\
  (forall asr_name ctx',
     _asr_contexts (snd (process_service envs (Raised MessagingTimeout) h))
       !! asr_name = Some ctx' ->
     fullsync ctx' = true /\
     exists ctx,
       _asr_contexts h !! asr_name = Some ctx /\
       trace ctx' = trace ctx /\
       router_info ctx' = router_info ctx /\
       updated_routers ctx' = updated_routers ctx /\
       removed_routers ctx' = removed_routers ctx /\
       sync_devices ctx' = sync_devices ctx).
Proof.
  simpl. split; [reflexivity|].
  assert (Hlook : forall asr_name,
    set_fullsync true <$> _asr_contexts h !! asr_name
    = (set_fullsync true <$> _asr_contexts h) !! asr_name).
  { intros. by rewrite lookup_fmap. }
  split.
  - intros asr_name. by rewrite lookup_fmap.
  - intros asr_name ctx' Hctx. rewrite lookup_fmap in Hctx.
    destruct (_asr_contexts h !! asr_name) as [ctx|] eqn:Hold;
      simpl in Hctx; [|discriminate].
    injection Hctx as <-. split; [reflexivity|].
    exists ctx. repeat split; reflexivity.
Qed.

End FleetTick.

(** ** Reasoning about computations of a device context *)
Module Steps.

Import PhyRouterContext Vocabulary.

#[global] Instance ext_preorder P : PreOrder (ext P).
Proof.
  split.
  - intros s. exists []. split; [by rewrite app_nil_r | constructor].
  - intros s1 s2 s3 (e1 & H1 & F1) (e2 & H2 & F2).
    exists (e1 ++ e2). split.
    + by rewrite H2, H1, app_assoc.
    + apply Forall_app. auto.
Qed.

#[global] Instance both_preorder I J `{!PreOrder I} `{!PreOrder J} :
  PreOrder (both I J).
Proof.
  split.
  - intros s. split; reflexivity.
  - intros s1 s2 s3 [H1 H1'] [H2 H2']. split; etransitivity; eauto.
Qed.

Lemma ext_weaken (P Q : Event -> Prop) s s' :
  (forall ev, P ev -> Q ev) -> ext P s s' -> ext Q s s'.
Proof.
  intros HPQ (evs & Heq & Hall). exists evs. split; [exact Heq|].
  eapply Forall_impl; eauto.
Qed.

Lemma bind_Ret_inv {A B} (m : M A) (k : A -> M B) s b s' :
  bind m k s = Ret b s' ->
  exists a s1, m s = Ret a s1 /\ k a s1 = Ret b s'.
Proof.
  unfold bind. destruct (m s) as [a s1|e s1]; [eauto | discriminate].
Qed.

Section Closure.

Context (I : t -> t -> Prop) `{!PreOrder I}.

Lemma preserves_ret {A} (a : A) : preserves I (ret a).
Proof. intros s. simpl. reflexivity. Qed.

Lemma preserves_raise {A} (e : Exn) : preserves I (@raise A e).
Proof. intros s. simpl. reflexivity. Qed.

Lemma preserves_get : preserves I get.
Proof. intros s. simpl. reflexivity. Qed.

Lemma preserves_read_ri k : preserves I (read_ri k).
Proof. intros s. unfold read_ri. destruct (_ !! _); simpl; reflexivity. Qed.

Lemma preserves_bind {A B} (m : M A) (k : A -> M B) :
  preserves I m -> (forall a, preserves I (k a)) -> preserves I (bind m k).
Proof.
  intros Hm Hk s. unfold bind. specialize (Hm s).
  destruct (m s) as [a s1|e s1]; simpl in *; [|exact Hm].
  etransitivity; [exact Hm | apply Hk].
Qed.

Lemma preserves_catch {A} (m : M A) (h : Exn -> M A) :
  preserves I m -> (forall e, preserves I (h e)) -> preserves I (catch m h).
Proof.
  intros Hm Hh s. unfold catch. specialize (Hm s).
  destruct (m s) as [a s1|e s1]; simpl in *; [exact Hm|].
  etransitivity; [exact Hm | apply Hh].
Qed.

Lemma preserves_for_each_in {A} (l : list A) (body : A -> M unit) :
  (forall x, x ∈ l -> preserves I (body x)) ->
  preserves I (for_each l body).
Proof.
  induction l as [|x l IH]; intros Hbody; simpl.
  - apply preserves_ret.
  - apply preserves_bind.
    + apply Hbody. left.
    + intros _. apply IH. intros y Hy. apply Hbody. right. exact Hy.
Qed.

Lemma preserves_for_each {A} (l : list A) (body : A -> M unit) :
  (forall x, preserves I (body x)) -> preserves I (for_each l body).
Proof. intros Hbody. apply preserves_for_each_in. auto. Qed.

Lemma preserves_modify (f : t -> t) :
  (forall s, I s (f s)) -> preserves I (modify f).
Proof. intros Hf s. simpl. apply Hf. Qed.

Lemma preserves_call env (c : Call) :
  (forall s o, I s (set_trace (trace s ++ [(c, o)]) s)) ->
  preserves I (call env c).
Proof.
  intros Hc s. unfold call. specialize (Hc s (answer env (trace s) c)).
  destruct (answer env (trace s) c); simpl; exact Hc.
Qed.

End Closure.

End Steps.

(** ** One router: [_process_router] *)
Module RouterPass.

Import PhyRouterContext Vocabulary Scenarios Steps.

Lemma ext_call (P : Event -> Prop) s c o :
  P (c, o) -> ext P s (set_trace (trace s ++ [(c, o)]) s).
Proof. intros HP. exists [(c, o)]. split; [reflexivity | by constructor]. Qed.

Lemma ext_same_trace (P : Event -> Prop) s s' :
  trace s' = trace s -> ext P s s'.
Proof.
  intros Heq. exists []. split; [by rewrite app_nil_r | constructor].
Qed.

(** Structural proof of [preserves (ext P)]: every call made must emit an
    event that satisfies [P]. *)
Ltac ext_steps :=
  repeat first
    [ apply preserves_ret; [apply _]
    | apply preserves_raise; [apply _]
    | apply preserves_get; [apply _]
    | apply preserves_read_ri; [apply _]
    | apply preserves_bind; [apply _ | | intros ?]
    | apply preserves_for_each; [apply _ | intros ?]
    | apply preserves_modify; intros ?; apply ext_same_trace; reflexivity
    | apply preserves_call; intros ? ?; apply ext_call
    | match goal with
      | |- preserves _ (match list_remove ?x ?l with _ => _ end) =>
          destruct (list_remove x l)
      | |- preserves _ (match r_gw_port ?r with _ => _ end) =>
          destruct (r_gw_port r)
      end
    | progress unfold modify_ri, add_updated_router, requeue ].

Section WithEnv.

Variable env : Env.

Lemma ends_with_call c : ends_with c (call env c).
Proof.
  intros s a s'. unfold call.
  destruct (answer env (trace s) c); [|discriminate].
  intros [= <- <-]. exists []. reflexivity.
Qed.

Lemma ends_with_bind {A B} c (m : M A) (k : A -> M B) :
  preserves (ext any_event) m ->
  (forall a, ends_with c (k a)) ->
  ends_with c (bind m k).
Proof.
  intros Hm Hk s b s' Hrun.
  apply bind_Ret_inv in Hrun as (a & s1 & Hms & Hks).
  specialize (Hm s). rewrite Hms in Hm. destruct Hm as (e1 & He1 & _).
  apply Hk in Hks as (e2 & He2).
  exists (e1 ++ e2). simpl in He1. rewrite He2, He1.
  by rewrite <- !app_assoc.
Qed.

Lemma ends_with_catch {A} c (m : M A) (h : Exn -> M A) :
  (forall e s a s', h e s <> Ret a s') ->
  ends_with c m -> ends_with c (catch m h).
Proof.
  intros Hh Hm s a s' Hrun. unfold catch in Hrun.
  destruct (m s) as [a1 s1|e s1] eqn:Hms.
  - injection Hrun as <- <-. eapply Hm. exact Hms.
  - exfalso. eapply Hh. exact Hrun.
Qed.

(** With no gateway port in the desired state, nothing that the [try]
    block does is a floating-IP call. *)
Lemma process_router_try_no_floating_ips k ri :
  r_gw_port (RouterInfo.router ri) = None ->
  preserves (ext not_floating_ips) (process_router_try env k ri).
Proof.
  intros Hgw. unfold process_router_try. rewrite Hgw.
  destruct (_get_port_set_diffs _ _) as [old_ports new_ports].
  destruct (_get_port_set_diffs _ _) as [old_gw_ports new_gw_ports].
  ext_steps; intros rid; simpl; discriminate.
Qed.

Lemma process_router_try_ends_with_routes k ri :
  ends_with (CRoutesUpdated k) (process_router_try env k ri).
Proof.
  unfold process_router_try.
  destruct (_get_port_set_diffs _ _) as [old_ports new_ports].
  destruct (_get_port_set_diffs _ _) as [old_gw_ports new_gw_ports].
  repeat (apply ends_with_bind; [|intros ?]); try apply ends_with_call;
    ext_steps; exact I.
Qed.

End WithEnv.

(** C4, as the code has it: without a gateway port in the desired state
    [_process_router] makes no floating-IP call; the route update is not
    gated: whenever [_process_router] returns, with or without a gateway
    port, its last call is [_routes_updated] for that router. *)
Theorem floating_ips_gated_routes_always (env : Env) (k : string) (s : t)
    (ri : RouterInfo.t) :
  router_info s !! k = Some ri ->
  (r_gw_port (RouterInfo.router ri) = None ->
   ext not_floating_ips s (state_of (_process_router env k s))) /\
  (forall s', _process_router env k s = Ret tt s' ->
     exists evs, trace s' = trace s ++ evs ++ [(CRoutesUpdated k, Returned)]).
Proof.
  intros Hri. unfold _process_router, bind, read_ri. rewrite Hri. split.
  - intros Hgw. apply preserves_catch; [apply _| |].
    + apply process_router_try_no_floating_ips. exact Hgw.
    + intros [| | | | |]; apply preserves_bind || apply preserves_raise;
        try apply _; try (intros ?; apply preserves_raise; apply _).
      apply preserves_modify. intros ?. apply ext_same_trace. reflexivity.
  - intros s' Hrun. revert Hrun. apply ends_with_catch.
    + intros [| | | | |] s0 a s0'; discriminate.
    + apply process_router_try_ends_with_routes.
Qed.

Lemma floating_ips_gated_routes_always_witness :
  router_info knows_r1 !! "r1" = Some ri1 /\
  ext not_floating_ips knows_r1
    (state_of (_process_router all_ok "r1" knows_r1)).
Proof.
  split; [reflexivity|].
  apply (floating_ips_gated_routes_always all_ok "r1" knows_r1 ri1);
    reflexivity.
Defined.

(** C4 as stated fails: r1 has no gateway port and the route update is
    invoked all the same. *)
Lemma routes_updated_without_gateway :
  r_gw_port (RouterInfo.router ri1) = None /\
  trace (state_of (_process_router all_ok "r1" knows_r1))
    = [(CRoutesUpdated "r1", Returned)].
Proof. split; vm_compute; reflexivity. Qed.

End RouterPass.

(** ** The applied-port lists *)
Module AppliedPorts.

Import PhyRouterContext Vocabulary Scenarios Steps RouterPass.

Lemma list_remove_spec (x : Port) (l l' : list Port) :
  list_remove x l = Some l' ->
  (forall q, q ∈ l' -> q ∈ l) /\ (forall q, q ∈ l -> q ∈ l' \/ q = x).
Proof.
  revert l'. induction l as [|y l IH]; intros l' Hrem; simpl in Hrem;
    [discriminate|].
  destruct (decide (y = x)) as [->|Hne].
  - injection Hrem as <-. split; intros q Hq.
    + right. exact Hq.
    + apply elem_of_cons in Hq as [->|Hq]; auto.
  - destruct (list_remove x l) as [l''|]; [|discriminate].
    injection Hrem as <-. destruct (IH l'' eq_refl) as [H1 H2].
    split; intros q Hq; apply elem_of_cons in Hq as [->|Hq].
    + left.
    + right. auto.
    + left. left.
    + destruct (H2 q Hq) as [H|H]; [left; right; exact H | right; exact H].
Qed.

Section Tracking.

Variable get : RouterInfo.t -> list Port.
Variables addc remc : string -> Port -> Call.
Variable k : string.

#[local] Instance tracks_preorder : PreOrder (tracks get addc remc k).
Proof.
  split.
  - intros s. exists []. split; [by rewrite app_nil_r|].
    intros ri Hri. exists ri. split; [exact Hri|]. split; auto.
  - intros s1 s2 s3 (e1 & H1 & F1) (e2 & H2 & F2).
    exists (e1 ++ e2). split; [by rewrite H2, H1, app_assoc|].
    intros ri Hri. destruct (F1 ri Hri) as (ri2 & Hri2 & Ha1 & Hr1).
    destruct (F2 ri2 Hri2) as (ri3 & Hri3 & Ha2 & Hr2).
    exists ri3. split; [exact Hri3|]. split; intros p Hp.
    + destruct (Ha2 p Hp) as [Hin|Hev].
      * destruct (Ha1 p Hin) as [Hin'|Hev]; [left; exact Hin'|].
        right. apply elem_of_app. left. exact Hev.
      * right. apply elem_of_app. right. exact Hev.
    + destruct (Hr1 p Hp) as [Hin|Hev].
      * destruct (Hr2 p Hin) as [Hin'|Hev]; [left; exact Hin'|].
        right. apply elem_of_app. right. exact Hev.
      * right. apply elem_of_app. left. exact Hev.
Qed.

(** A step that leaves the list alone. *)
Lemma tracks_unchanged s s' evs :
  trace s' = trace s ++ evs ->
  (forall ri, router_info s !! k = Some ri ->
     exists ri', router_info s' !! k = Some ri' /\ get ri' = get ri) ->
  tracks get addc remc k s s'.
Proof.
  intros Htr Hsame. exists evs. split; [exact Htr|].
  intros ri Hri. destruct (Hsame ri Hri) as (ri' & Hri' & Heq).
  exists ri'. split; [exact Hri'|]. rewrite Heq. split; auto.
Qed.

Lemma tracks_call s c o :
  tracks get addc remc k s (set_trace (trace s ++ [(c, o)]) s).
Proof.
  apply (tracks_unchanged _ _ [(c, o)]); [reflexivity|].
  intros ri Hri. exists ri. auto.
Qed.

Lemma tracks_alter (f : RouterInfo.t -> RouterInfo.t) k' s :
  (forall ri, get (f ri) = get ri) ->
  tracks get addc remc k s
    (set_router_info (alter f k' (router_info s)) s).
Proof.
  intros Hf. apply (tracks_unchanged _ _ []); [by rewrite app_nil_r|].
  intros ri Hri. simpl. rewrite lookup_alter.
  destruct (decide (k' = k)) as [->|Hne].
  - rewrite Hri. simpl. eauto.
  - rewrite Hri. eauto.
Qed.

Lemma tracks_other_field s s' :
  trace s' = trace s -> router_info s' = router_info s ->
  tracks get addc remc k s s'.
Proof.
  intros Htr Hri. apply (tracks_unchanged _ _ []);
    [by rewrite app_nil_r|].
  intros ri Hlook. exists ri. rewrite Hri. auto.
Qed.

Variable env : Env.

(** The driver call for an addition, followed by the append. *)
Lemma add_unit (p : Port) (app : RouterInfo.t -> RouterInfo.t) :
  (forall ri, get (app ri) = get ri ++ [p]) ->
  preserves (tracks get addc remc k)
    (call env (addc k p) >> modify_ri k app).
Proof.
  intros Happ s. unfold bind, call.
  destruct (answer env (trace s) (addc k p)) eqn:Hans; simpl.
  - exists [(addc k p, Returned)]. split; [reflexivity|].
    intros ri Hri. simpl. rewrite lookup_alter.
    destruct (decide (k = k)) as [_|]; [|congruence].
    rewrite Hri. simpl. eexists. split; [reflexivity|].
    rewrite Happ. split; intros q Hq.
    + apply elem_of_app in Hq as [Hq|Hq]; [left; exact Hq|].
      apply list_elem_of_singleton in Hq as ->. right. left.
    + left. apply elem_of_app. left. exact Hq.
  - apply tracks_call.
Qed.

(** The driver call for a removal, followed by [list.remove]. *)
Lemma remove_unit (p : Port) (set : list Port -> RouterInfo.t -> RouterInfo.t) :
  (forall l ri, get (set l ri) = l) ->
  preserves (tracks get addc remc k)
    (call env (remc k p) >>
     let* ri := read_ri k in
     match list_remove p (get ri) with
     | Some l => modify_ri k (set l)
     | None => raise ValueError
     end).
Proof.
  intros Hset s. unfold bind, call, read_ri.
  destruct (answer env (trace s) (remc k p)) eqn:Hans; simpl;
    [|apply tracks_call].
  destruct (router_info s !! k) as [ri|] eqn:Hri; simpl;
    [|apply tracks_call].
  destruct (list_remove p (get ri)) as [l|] eqn:Hrem; simpl;
    [|apply tracks_call].
  exists [(remc k p, Returned)]. split; [reflexivity|].
  intros ri0 Hri0. assert (ri0 = ri) as -> by congruence.
  simpl. rewrite lookup_alter. destruct (decide (k = k)) as [_|]; [|congruence].
  rewrite Hri. simpl. eexists. split; [reflexivity|].
  rewrite Hset. destruct (list_remove_spec _ _ _ Hrem) as [H1 H2].
  split; intros q Hq.
  - left. auto.
  - destruct (H2 q Hq) as [Hin| ->]; [left; exact Hin|]. right. left.
Qed.

End Tracking.

#[global] Instance tracks_internal_preorder k : PreOrder (tracks_internal k).
Proof. apply tracks_preorder. Qed.
#[global] Instance tracks_ha_gw_preorder k : PreOrder (tracks_ha_gw k).
Proof. apply tracks_preorder. Qed.

Ltac track_steps :=
  repeat first
    [ apply preserves_ret; [apply _]
    | apply preserves_raise; [apply _]
    | apply preserves_get; [apply _]
    | apply preserves_read_ri; [apply _]
    | apply add_unit; intros ?; reflexivity
    | apply (remove_unit _ _ _ _ _ _ RouterInfo.set_internal_ports);
        intros ? ?; reflexivity
    | apply (remove_unit _ _ _ _ _ _ RouterInfo.set_ha_gw_ports);
        intros ? ?; reflexivity
    | apply preserves_bind; [apply _ | | intros ?]
    | apply preserves_for_each; [apply _ | intros ?]
    | apply preserves_modify; intros ?;
        first [ apply tracks_alter; intros ?; reflexivity
              | apply tracks_other_field; reflexivity ]
    | apply preserves_call; intros ? ?; apply tracks_call
    | match goal with
      | |- preserves _ (match list_remove ?x ?l with _ => _ end) =>
          destruct (list_remove x l)
      | |- preserves _ (match r_gw_port ?r with _ => _ end) =>
          destruct (r_gw_port r)
      end
    | progress unfold modify_ri, add_updated_router, requeue ].

Section WithEnv.

Variable env : Env.

Lemma process_router_try_tracks_internal k ri :
  preserves (tracks_internal k) (process_router_try env k ri).
Proof.
  unfold process_router_try, remove_internal_port, remove_ha_gw_port,
    tracks_internal.
  destruct (_get_port_set_diffs _ _) as [old_ports new_ports].
  destruct (_get_port_set_diffs _ _) as [old_gw_ports new_gw_ports].
  track_steps.
Qed.

Lemma process_router_try_tracks_ha_gw k ri :
  preserves (tracks_ha_gw k) (process_router_try env k ri).
Proof.
  unfold process_router_try, remove_internal_port, remove_ha_gw_port,
    tracks_ha_gw.
  destruct (_get_port_set_diffs _ _) as [old_ports new_ports].
  destruct (_get_port_set_diffs _ _) as [old_gw_ports new_gw_ports].
  track_steps.
Qed.

Lemma process_router_tracks k :
  preserves (both (tracks_internal k) (tracks_ha_gw k))
    (_process_router env k).
Proof.
  unfold _process_router.
  apply preserves_bind; [apply _ | apply preserves_read_ri; apply _ |].
  intros ri. apply preserves_catch; [apply _ | |].
  - intros s. split;
      [apply process_router_try_tracks_internal
      |apply process_router_try_tracks_ha_gw].
  - intros e s. split; destruct e; simpl; try reflexivity;
      apply tracks_other_field; reflexivity.
Qed.

End WithEnv.

(** C5, as the code has it: both applied-port lists change only after
    the driver call returned. A port that is new in [ri.internal_ports]
    (in [ri.ha_gw_ports]) after [_process_router] has a returned
    [_internal_network_added] ([_external_gateway_added]) call in the
    history of this pass, and a port that left the list has a returned
    [_internal_network_removed] ([_external_gateway_removed]) call: a
    removal that raises leaves the entry in the list. *)
Theorem applied_ports_follow_driver (env : Env) (k : string) (s : t)
    (ri : RouterInfo.t) :
  router_info s !! k = Some ri ->
  exists evs ri',
    trace (state_of (_process_router env k s)) = trace s ++ evs /\
    router_info (state_of (_process_router env k s)) !! k = Some ri' /\
    (forall p, p ∈ RouterInfo.internal_ports ri' ->
       p ∈ RouterInfo.internal_ports ri \/
       (CInternalNetworkAdded k p, Returned) ∈ evs) /\
    (forall p, p ∈ RouterInfo.internal_ports ri ->
       p ∈ RouterInfo.internal_ports ri' \/
       (CInternalNetworkRemoved k p, Returned) ∈ evs) /\
    (forall p, p ∈ RouterInfo.ha_gw_ports ri' ->
       p ∈ RouterInfo.ha_gw_ports ri \/
       (CExternalGatewayAdded k p, Returned) ∈ evs) /\
    (forall p, p ∈ RouterInfo.ha_gw_ports ri ->
       p ∈ RouterInfo.ha_gw_ports ri' \/
       (CExternalGatewayRemoved k p, Returned) ∈ evs).
Proof.
  intros Hri.
  destruct (process_router_tracks env k s)
    as [(e1 & Ht1 & F1) (e2 & Ht2 & F2)].
  destruct (F1 ri Hri) as (ri1' & Hl1 & Ha1 & Hr1).
  destruct (F2 ri Hri) as (ri2' & Hl2 & Ha2 & Hr2).
  assert (e2 = e1) as ->.
  { rewrite Ht1 in Ht2. by apply app_inv_head in Ht2. }
  assert (ri2' = ri1') as -> by congruence.
  exists e1, ri1'. repeat split; assumption.
Qed.

Lemma applied_ports_follow_driver_witness :
  router_info knows_r1_shrunk !! "r1" = Some ri1_shrunk /\
  exists evs ri',
    trace (state_of (_process_router removal_fails "r1" knows_r1_shrunk))
      = trace knows_r1_shrunk ++ evs /\
    router_info (state_of (_process_router removal_fails "r1" knows_r1_shrunk))
      !! "r1" = Some ri' /\
    (forall p, p ∈ RouterInfo.internal_ports ri' ->
       p ∈ RouterInfo.internal_ports ri1_shrunk \/
       (CInternalNetworkAdded "r1" p, Returned) ∈ evs) /\
    (forall p, p ∈ RouterInfo.internal_ports ri1_shrunk ->
       p ∈ RouterInfo.internal_ports ri' \/
       (CInternalNetworkRemoved "r1" p, Returned) ∈ evs) /\
    (forall p, p ∈ RouterInfo.ha_gw_ports ri' ->
       p ∈ RouterInfo.ha_gw_ports ri1_shrunk \/
       (CExternalGatewayAdded "r1" p, Returned) ∈ evs) /\
    (forall p, p ∈ RouterInfo.ha_gw_ports ri1_shrunk ->
       p ∈ RouterInfo.ha_gw_ports ri' \/
       (CExternalGatewayRemoved "r1" p, Returned) ∈ evs).
Proof.
  split; [reflexivity|].
  apply (applied_ports_follow_driver removal_fails "r1" knows_r1_shrunk
           ri1_shrunk).
  reflexivity.
Defined.

(** C5 as stated fails for removals: the remove call for [port1] raises,
    and [port1] is still in [ri.internal_ports] afterwards. *)
Lemma failed_removal_keeps_port :
  _get_port_set_diffs (RouterInfo.internal_ports ri1_shrunk)
    (r_interfaces (RouterInfo.router ri1_shrunk)) = ([port1], []) /\
  trace (state_of (_process_router removal_fails "r1" knows_r1_shrunk))
    = [(CInternalNetworkRemoved "r1" port1, Raised DriverException)] /\
  RouterInfo.internal_ports <$>
    router_info (state_of (_process_router removal_fails "r1" knows_r1_shrunk))
      !! "r1"
    = Some [port1].
Proof. repeat split; vm_compute; reflexivity. Qed.

End AppliedPorts.

(** ** One device: [_process_routers] and [process_service] *)
Module DevicePass.

Import PhyRouterContext Vocabulary Scenarios Steps RouterPass.

(** Structural proof of [preserves I m]: [tmod] closes the goal
    [I s (f s)] of a [modify f], [tcall] the goal of a call. *)
Ltac pres_steps tmod tcall :=
  repeat first
    [ lazymatch goal with
      | |- preserves _ (ret _) => apply preserves_ret; [apply _]
      | |- preserves _ (raise _) => apply preserves_raise; [apply _]
      | |- preserves _ get => apply preserves_get; [apply _]
      | |- preserves _ (read_ri _) => apply preserves_read_ri; [apply _]
      | |- preserves _ (bind _ _) =>
          apply preserves_bind; [apply _ | | intros ?]
      | |- preserves _ (catch _ _) =>
          apply preserves_catch; [apply _ | | intros ?]
      | |- preserves _ (for_each _ _) =>
          apply preserves_for_each; [apply _ | intros ?]
      | |- preserves _ (modify _) => apply preserves_modify; intros ?; tmod
      | |- preserves _ (call _ _) => apply preserves_call; intros ? ?; tcall
      | |- preserves _ (match ?x with _ => _ end) => destruct x
      end
    | progress unfold _process_router, process_router_try, _router_added,
        _router_removed, try_router, process_one, main_loop,
        remove_internal_port, remove_ha_gw_port, modify_ri,
        add_updated_router, requeue ].

#[global] Instance grows_preorder : PreOrder grows.
Proof.
  split.
  - intros s. split; [set_solver | auto].
  - intros s1 s2 s3 [H1 H1'] [H2 H2']. split; [set_solver | auto].
Qed.

Lemma strict_silent rid {A} (m : M A) :
  (forall s, trace (state_of (m s)) = trace s) -> strict rid m.
Proof.
  intros Hm s. exists []. split; [by rewrite app_nil_r, Hm|].
  split; [constructor|]. destruct (m s); constructor.
Qed.

Lemma strict_bind rid {A B} (m : M A) (k : A -> M B) :
  strict rid m -> (forall a, strict rid (k a)) -> strict rid (bind m k).
Proof.
  intros Hm Hk s. unfold bind. specialize (Hm s).
  destruct (m s) as [a s1|e s1]; [|exact Hm].
  destruct Hm as (e1 & Ht1 & Hc1 & Ho1). simpl in Ht1.
  destruct (Hk a s1) as (e2 & Ht2 & Hc2 & Ho2).
  exists (e1 ++ e2). split; [by rewrite Ht2, Ht1, app_assoc|].
  split; [apply Forall_app; auto|].
  destruct (k a s1) as [b s2|e s2]; apply Forall_app; split; auto.
  eapply Forall_impl; [exact Ho1|]. intros ev Hev. left. exact Hev.
Qed.

Lemma strict_for_each rid {A} (l : list A) (body : A -> M unit) :
  (forall x, strict rid (body x)) -> strict rid (for_each l body).
Proof.
  intros Hbody. induction l as [|x l IH]; simpl.
  - apply strict_silent. reflexivity.
  - apply strict_bind; [apply Hbody | intros _; exact IH].
Qed.

(** A handler that only adjusts the state and raises the same
    exception again keeps the computation strict. *)
Lemma strict_catch rid {A} (m : M A) (h : Exn -> M A) :
  strict rid m ->
  (forall e s, exists s', h e s = Raise e s' /\ trace s' = trace s) ->
  strict rid (catch m h).
Proof.
  intros Hm Hh s. unfold catch. specialize (Hm s).
  destruct (m s) as [a s1|e s1]; [exact Hm|].
  destruct Hm as (e1 & Ht1 & Hc1 & Ho1). simpl in Ht1.
  destruct (Hh e s1) as (s2 & -> & Ht2).
  exists e1. simpl. split; [by rewrite Ht2|]. auto.
Qed.

Ltac strict_steps :=
  repeat first
    [ apply strict_bind; [|intros ?]
    | apply strict_for_each; intros ?
    | apply strict_silent; intros ?;
        first [ reflexivity
              | unfold read_ri; destruct (_ !! _); reflexivity ]
    | match goal with
      | |- strict _ (match ?x with _ => _ end) => destruct x
      end
    | progress unfold process_router_try, _router_added,
        remove_internal_port, remove_ha_gw_port, modify_ri,
        add_updated_router ].

#[global] Instance requeues_preorder : PreOrder requeues.
Proof.
  split.
  - intros s. exists []. split; [by rewrite app_nil_r|].
    split; [constructor|]. split; [reflexivity|].
    intros c e rid Hin. inversion Hin.
  - intros s1 s2 s3 (e1 & Ht1 & Hd1 & Hg1 & Hq1) (e2 & Ht2 & Hd2 & Hg2 & Hq2).
    exists (e1 ++ e2). split; [by rewrite Ht2, Ht1, app_assoc|].
    split; [apply Forall_app; auto|].
    split; [etransitivity; eauto|].
    intros c e rid Hin Hc He. apply elem_of_app in Hin as [Hin|Hin].
    + destruct (Hq1 c e rid Hin Hc He) as [Hu Hf].
      destruct Hg2 as [Hsub Hfull].
      split; [exact (proj1 (elem_of_subseteq _ _) Hsub rid Hu) | auto].
    + exact (Hq2 c e rid Hin Hc He).
Qed.

(** A step whose events are not made for a router and which leaves the
    queue and the flag alone. *)
Lemma requeues_quiet s s' evs :
  trace s' = trace s ++ evs ->
  Forall (fun ev => is_direct (fst ev) = false /\
                    call_router (fst ev) = None) evs ->
  updated_routers s' = updated_routers s ->
  fullsync s' = fullsync s ->
  requeues s s'.
Proof.
  intros Ht Hall Hu Hf. exists evs. split; [exact Ht|].
  split; [eapply Forall_impl; [exact Hall|]; intros ev [H _]; exact H|].
  split; [split; [by rewrite Hu | by rewrite Hf]|].
  intros c e rid Hin Hc _. rewrite Forall_forall in Hall.
  destruct (Hall _ Hin) as [_ Hnone]. simpl in Hnone. congruence.
Qed.

Lemma call_router_not_direct c rid :
  call_router c = Some rid -> is_direct c = false.
Proof. destruct c; simpl; intros H; congruence. Qed.

Section WithEnv.

Variable env : Env.

Lemma strict_call rid c :
  call_router c = Some rid -> strict rid (call env c).
Proof.
  intros Hc s. unfold call.
  exists [(c, answer env (trace s) c)]. split.
  - destruct (answer env (trace s) c); reflexivity.
  - split; [by constructor|].
    destruct (answer env (trace s) c) eqn:Hans; constructor; auto.
Qed.

Lemma process_router_strict k : strict k (_process_router env k).
Proof.
  unfold _process_router. apply strict_bind.
  { apply strict_silent. intros s. unfold read_ri.
    destruct (_ !! _); reflexivity. }
  intros ri. apply strict_catch.
  - strict_steps; apply strict_call; reflexivity.
  - intros e s. destruct e; simpl; eauto.
Qed.

Lemma try_router_strict r : strict (r_id r) (try_router env r).
Proof.
  unfold try_router. destruct (negb _).
  { apply strict_silent. reflexivity. }
  apply strict_bind; [apply strict_silent; reflexivity | intros s0].
  apply strict_bind.
  { destruct (router_info s0 !! r_id r).
    - apply strict_silent. reflexivity.
    - unfold _router_added. apply strict_bind.
      + apply strict_call. reflexivity.
      + intros _. apply strict_silent. reflexivity. }
  intros _. apply strict_bind.
  { apply strict_silent. intros s. unfold read_ri.
    destruct (_ !! _); reflexivity. }
  intros ri. apply strict_bind.
  { apply strict_silent. reflexivity. }
  intros _. apply process_router_strict.
Qed.

Lemma process_one_grows deleted r : preserves grows (process_one env deleted r).
Proof.
  pres_steps ltac:(split; simpl; [set_solver | auto])
             ltac:(split; simpl; [set_solver | auto]).
Qed.

Lemma main_loop_grows deleted routers :
  preserves grows (main_loop env deleted routers).
Proof.
  unfold main_loop. apply preserves_for_each; [apply _|].
  intros r. apply process_one_grows.
Qed.

Lemma process_one_requeues deleted r :
  preserves requeues (process_one env deleted r).
Proof.
  intros s. pose proof (process_one_grows deleted r s) as Hg.
  unfold process_one in *. destruct (decide _); [reflexivity|].
  unfold catch in *.
  destruct (try_router_strict r s) as (evs & Ht & Hc & Ho).
  assert (Hd : Forall (fun ev => is_direct (fst ev) = false) evs).
  { eapply Forall_impl; [exact Hc|]. intros ev Hev.
    eapply call_router_not_direct. exact Hev. }
  destruct (try_router env r s) as [[] s1|e s1]; simpl in *.
  - exists evs. repeat split; try apply Hg; auto.
    all: rewrite Forall_forall in Ho; specialize (Ho _ H); simpl in Ho;
      discriminate.
  - assert (Hsame : forall c e' rid,
              (c, Raised e') ∈ evs -> call_router c = Some rid ->
              e' = e /\ rid = r_id r).
    { intros c e' rid Hin Hcr. rewrite Forall_forall in Ho, Hc.
      specialize (Ho _ Hin). specialize (Hc _ Hin). simpl in *.
      destruct Ho as [Ho|Ho]; [discriminate|]. split; congruence. }
    destruct e; simpl in *;
      (exists evs; split; [exact Ht|]; split; [exact Hd|];
       split; [exact Hg|]; intros c e' rid Hin Hcr He;
       destruct (Hsame c e' rid Hin Hcr) as [-> ->];
       first [ split; [apply elem_of_union; right;
                       apply elem_of_singleton; reflexivity
                      | reflexivity]
             | destruct He; discriminate ]).
Qed.

Lemma main_loop_requeues deleted routers :
  preserves requeues (main_loop env deleted routers).
Proof.
  unfold main_loop. apply preserves_for_each; [apply _|].
  intros r. apply process_one_requeues.
Qed.

Lemma router_removed_requeues rid :
  preserves requeues (_router_removed env rid).
Proof.
  intros s. unfold _router_removed, catch, bind, call, modify.
  destruct (answer env (trace s) (CRouterRemoved rid)) as [|e] eqn:Hans;
    [|destruct e]; simpl;
    (eapply requeues_quiet; [simpl; reflexivity| |reflexivity|reflexivity]);
    repeat constructor.
Qed.

Lemma process_routers_requeues routers removed device_id all_routers :
  preserves requeues
    (_process_routers env routers removed device_id all_routers).
Proof.
  unfold _process_routers, process_routers_try.
  apply preserves_catch; [apply _| |].
  - apply preserves_bind; [apply _ | apply preserves_get; apply _ |].
    intros s0. apply preserves_bind; [apply _| |].
    { apply preserves_for_each; [apply _|]. intros x.
      apply router_removed_requeues. }
    intros _. apply preserves_bind; [apply _| |].
    { apply preserves_for_each; [apply _|]. intros x.
      apply router_removed_requeues. }
    intros _. apply main_loop_requeues.
  - intros e. apply preserves_modify. intros s.
    apply (requeues_quiet _ _ []); try reflexivity; [|constructor].
    simpl. by rewrite app_nil_r.
Qed.

End WithEnv.

(** C7: a [DriverException] raised by a call made for a router in the
    main loop of [_process_routers] puts the router's id back into
    [updated_routers] and raises [fullsync], both still so when the pass
    returns, and the pass does return; in the loop, the iteration of the
    failing router ends normally and the loop goes on with the remaining
    routers from the state the handler left. *)
Theorem driver_exception_requeues_and_continues (env : Env) :
  (forall routers removed device_id all_routers s evs c rid,
     trace (state_of (_process_routers env routers removed device_id
                        all_routers s)) = trace s ++ evs ->
     (c, Raised DriverException) ∈ evs ->
     call_router c = Some rid ->
     rid ∈ updated_routers
             (state_of (_process_routers env routers removed device_id
                          all_routers s)) /\
     fullsync (state_of (_process_routers env routers removed device_id
                           all_routers s)) = true /\
     exists s', _process_routers env routers removed device_id
                  all_routers s = Ret tt s') /\
  (forall deleted r rest s s1,
     r_id r ∉ deleted ->
     try_router env r s = Raise DriverException s1 ->
     let s2 :=
       set_fullsync true
         (set_updated_routers (updated_routers s1 ∪ {[r_id r]}) s1) in
     process_one env deleted r s = Ret tt s2 /\
     main_loop env deleted (r :: rest) s = main_loop env deleted rest s2 /\
     r_id r ∈ updated_routers (state_of (main_loop env deleted rest s2)) /\
     fullsync (state_of (main_loop env deleted rest s2)) = true).
Proof.
  split.
  - intros routers removed device_id all_routers s evs c rid Ht Hin Hc.
    destruct (process_routers_requeues env routers removed device_id
                all_routers s) as (evs' & Ht' & _ & _ & Hq).
    assert (evs' = evs) as ->.
    { rewrite Ht in Ht'. by apply app_inv_head in Ht'. }
    destruct (Hq c DriverException rid Hin Hc (or_introl eq_refl)) as [Hu Hf].
    split; [exact Hu|]. split; [exact Hf|].
    unfold _process_routers, catch.
    destruct (process_routers_try env routers removed all_routers s)
      as [[] s1|e s1]; simpl; eauto.
  - intros deleted r rest s s1 Hnot Htry s2.
    assert (Hone : process_one env deleted r s = Ret tt s2).
    { unfold process_one. destruct (decide _); [contradiction|].
      unfold catch. rewrite Htry. reflexivity. }
    split; [exact Hone|]. split.
    + unfold main_loop. simpl. unfold bind at 1. rewrite Hone. reflexivity.
    + destruct (main_loop_grows env deleted rest s2) as [Hsub Hfull].
      split; [|apply Hfull; reflexivity].
      apply Hsub. subst s2. simpl. set_solver.
Qed.

Lemma driver_exception_requeues_and_continues_witness :
  "r1" ∈ updated_routers
           (state_of (_process_routers add_fails [r1_up; r2_up] []
                        (Some 0) false __init__)) /\
  fullsync (state_of (_process_routers add_fails [r1_up; r2_up] []
                        (Some 0) false __init__)) = true /\
  exists s', _process_routers add_fails [r1_up; r2_up] [] (Some 0) false
               __init__ = Ret tt s'.
Proof.
  apply (proj1 (driver_exception_requeues_and_continues add_fails)
           [r1_up; r2_up] [] (Some 0) false __init__
           [(CRouterAdded "r1", Returned);
            (CSetSubnetInfo "r1" port1, Returned);
            (CInternalNetworkAdded "r1" port1, Raised DriverException);
            (CRouterAdded "r2", Returned);
            (CSetSubnetInfo "r2" port2, Returned);
            (CInternalNetworkAdded "r2" port2, Returned);
            (CRoutesUpdated "r2", Returned)]
           (CInternalNetworkAdded "r1" port1) "r1").
  - vm_compute. reflexivity.
  - right. right. left.
  - reflexivity.
Defined.

End DevicePass.

(** ** Routers that are administratively down *)
Module AdminDown.

Import PhyRouterContext Vocabulary Scenarios Steps RouterPass DevicePass.

#[global] Instance absent_preorder rid : PreOrder (absent rid).
Proof.
  split.
  - intros s H. exact H.
  - intros s1 s2 s3 H1 H2 H. auto.
Qed.

#[global] Instance shrinks_preorder : PreOrder shrinks.
Proof.
  split.
  - intros s k. reflexivity.
  - intros s1 s2 s3 H1 H2 k. etransitivity; eauto.
Qed.

Lemma elem_of_adjust_router_list r routers :
  r ∈ _adjust_router_list routers <-> r ∈ routers.
Proof.
  induction routers as [|x routers IH]; simpl; [reflexivity|].
  destruct (decide _).
  - rewrite elem_of_app, list_elem_of_singleton, elem_of_cons. tauto.
  - rewrite !elem_of_cons, IH. reflexivity.
Qed.

Section WithEnv.

Variable env : Env.

Lemma router_removed_not_for rid x :
  preserves (ext (not_for rid)) (_router_removed env x).
Proof.
  pres_steps ltac:(apply ext_same_trace; reflexivity)
             ltac:(apply ext_call; unfold not_for; simpl; discriminate).
Qed.

Lemma router_removed_shrinks x : preserves shrinks (_router_removed env x).
Proof.
  pres_steps ltac:(intros k Hk; simpl;
                   rewrite ?lookup_delete_None; auto)
             ltac:(intros k Hk; exact Hk).
Qed.

(** An iteration of the main loop only makes calls for its own router. *)
Lemma process_one_own deleted r :
  preserves (ext (fun ev => call_router (fst ev) = Some (r_id r)))
    (process_one env deleted r).
Proof.
  intros s. unfold process_one. destruct (decide _); [reflexivity|].
  unfold catch.
  destruct (try_router_strict env r s) as (evs & Ht & Hc & _).
  destruct (try_router env r s) as [[] s1|e s1]; simpl in *.
  - exists evs. auto.
  - destruct e; simpl; exists evs; auto.
Qed.

Lemma process_one_down deleted r s :
  r_admin_state_up r = false -> state_of (process_one env deleted r s) = s.
Proof.
  intros Hdown. unfold process_one, try_router, catch.
  rewrite Hdown. destruct (decide _); reflexivity.
Qed.

(** An iteration for another router does not create a record for [rid]. *)
Lemma process_one_absent rid deleted r :
  r_id r <> rid -> preserves (absent rid) (process_one env deleted r).
Proof.
  intros Hne.
  pres_steps ltac:(intros Hk; simpl;
                   rewrite ?lookup_alter_ne, ?lookup_insert_ne by exact Hne;
                   exact Hk)
             ltac:(intros Hk; exact Hk).
Qed.

Lemma shrinks_absent {A} rid (m : M A) :
  preserves shrinks m -> preserves (absent rid) m.
Proof. intros Hm s. apply Hm. Qed.

(** When the driver accepts every removal, the loop over the ids to
    remove returns, and each of them has lost its record. *)
Lemma for_each_removed_ok :
  (forall tr x, answer env tr (CRouterRemoved x) = Returned) ->
  forall (l : list string) (s : t),
    exists s' evs,
      for_each l (_router_removed env) s = Ret tt s' /\
      trace s' = trace s ++ evs /\
      shrinks s s' /\
      forall x, x ∈ l ->
        router_info s' !! x = None /\ (CRouterRemoved x, Returned) ∈ evs.
Proof.
  intros Hok l. induction l as [|x l IH]; intros s; simpl.
  - exists s, []. split; [reflexivity|]. split; [by rewrite app_nil_r|].
    split; [reflexivity|]. intros x Hx. inversion Hx.
  - unfold bind at 1. unfold _router_removed at 1, catch, bind, call, modify.
    rewrite Hok. simpl.
    set (s1 := set_router_info _ _).
    destruct (IH s1) as (s' & evs & Hrun & Ht & Hsh & Hall).
    exists s', ((CRouterRemoved x, Returned) :: evs).
    split; [exact Hrun|]. split.
    { rewrite Ht. subst s1. simpl. by rewrite <- app_assoc. }
    split.
    { intros k Hk. apply Hsh. subst s1. simpl.
      rewrite lookup_delete_None. auto. }
    intros y Hy. apply elem_of_cons in Hy as [->|Hy].
    + split; [|left]. apply Hsh. subst s1. simpl. apply lookup_delete_eq.
    + destruct (Hall y Hy) as [H1 H2]. split; [exact H1 | right; exact H2].
Qed.

Section Down.

Variable rid : string.
Variable routers : list Router.
Hypothesis Hdown :
  forall r, r ∈ routers -> r_id r = rid -> r_admin_state_up r = false.

(** The second removal loop and the main loop make no call for [rid]
    and do not create a record for it. *)
Lemma rest_of_pass (removed : list Router) (deleted : list string) :
  preserves (both (ext (not_for rid)) (absent rid))
    (for_each removed (fun router => _router_removed env (r_id router)) >>
     main_loop env deleted (_adjust_router_list routers)).
Proof.
  apply preserves_bind; [apply _| |intros _].
  - apply preserves_for_each; [apply _|]. intros x s. split.
    + apply router_removed_not_for.
    + apply shrinks_absent. apply router_removed_shrinks.
  - unfold main_loop. apply preserves_for_each_in; [apply _|].
    intros r Hr s. apply (proj1 (elem_of_adjust_router_list _ _)) in Hr.
    destruct (decide (r_id r = rid)) as [Heq|Hne].
    + rewrite process_one_down by auto. reflexivity.
    + split.
      * eapply ext_weaken; [|apply process_one_own].
        intros ev Hev. unfold not_for. rewrite Hev. congruence.
      * apply process_one_absent. exact Hne.
Qed.

Lemma not_current :
  rid ∉ (list_to_set
           (r_id <$> filter (fun r => r_admin_state_up r = true) routers)
         : gset string).
Proof.
  rewrite elem_of_list_to_set, list_elem_of_fmap.
  intros (r & Hid & Hr). apply list_elem_of_filter in Hr as [Hup Hr].
  rewrite (Hdown r Hr) in Hup; [discriminate | auto].
Qed.

End Down.

End WithEnv.

(** C1, as the code has it: a pass makes no add or diff call for a
    router that is listed only as administratively down, and it does
    not keep it: when the driver accepts the removals, the router has no
    record in [router_info] after the pass, and if it had one the pass
    called [_router_removed] for it. *)
Theorem admin_down_router_is_removed (env : Env) (routers removed : list Router)
    (device_id : option nat) (all_routers : bool) (s : t) (rid : string) :
  rid ∈ (r_id <$> routers) ->
  (forall r, r ∈ routers -> r_id r = rid -> r_admin_state_up r = false) ->
  ext (not_for rid) s
    (state_of (_process_routers env routers removed device_id all_routers s))
  /\
  ((forall tr x, answer env tr (CRouterRemoved x) = Returned) ->
   router_info
     (state_of (_process_routers env routers removed device_id all_routers s))
     !! rid = None /\
   (is_Some (router_info s !! rid) ->
    exists evs,
      trace (state_of (_process_routers env routers removed device_id
                         all_routers s)) = trace s ++ evs /\
      (CRouterRemoved rid, Returned) ∈ evs)).
Proof.
  intros Hin Hdown. split.
  - revert s. change (preserves (ext (not_for rid))
      (_process_routers env routers removed device_id all_routers)).
    unfold _process_routers, process_routers_try.
    apply preserves_catch; [apply _| |].
    + apply preserves_bind; [apply _ | apply preserves_get; apply _ |].
      intros s0. apply preserves_bind; [apply _| |intros _].
      * apply preserves_for_each; [apply _|]. intros x.
        apply router_removed_not_for.
      * intros s1. apply (rest_of_pass env rid routers Hdown).
    + intros e. apply preserves_modify. intros s.
      apply ext_same_trace. reflexivity.
  - intros Hok.
    pose (gone := elements
      ((if all_routers then dom (router_info s)
        else dom (router_info s) ∩ list_to_set (r_id <$> routers))
       ∖ (list_to_set
            (r_id <$> filter (fun r => r_admin_state_up r = true) routers)
          : gset string))).
    pose (rest :=
      for_each removed (fun router => _router_removed env (r_id router)) >>
      main_loop env (gone ++ (r_id <$> removed))
        (_adjust_router_list routers)).
    destruct (for_each_removed_ok env Hok gone s)
      as (s1 & evs1 & Hrun & Ht1 & Hsh & Hall).
    assert (Hfinal :
      _process_routers env routers removed device_id all_routers s =
      match rest s1 with
      | Ret a s2 => Ret a s2
      | Raise _ s2 =>
          Ret tt (set_sync_devices (sync_devices s2 ∪ {[device_id]}) s2)
      end).
    { unfold _process_routers, catch, process_routers_try.
      unfold bind at 1. unfold get. fold gone.
      unfold bind at 1. rewrite Hrun. reflexivity. }
    rewrite Hfinal.
    destruct (rest_of_pass env rid routers Hdown removed
                (gone ++ (r_id <$> removed)) s1)
      as [(evs2 & Ht2 & _) Habs].
    fold rest in Ht2, Habs.
    assert (Hgone : is_Some (router_info s !! rid) -> rid ∈ gone).
    { intros Hsome. subst gone. apply elem_of_elements.
      apply elem_of_difference. split.
      - apply elem_of_dom in Hsome. destruct all_routers; [exact Hsome|].
        apply elem_of_intersection. split; [exact Hsome|].
        apply elem_of_list_to_set. exact Hin.
      - apply not_current. exact Hdown. }
    assert (Hnone1 : router_info s1 !! rid = None).
    { destruct (router_info s !! rid) as [ri|] eqn:Hri.
      - apply Hall. apply Hgone. eauto.
      - apply Hsh. exact Hri. }
    specialize (Habs Hnone1).
    destruct (rest s1) as [[] s2|e s2]; simpl in *.
    + split; [exact Habs|]. intros Hsome.
      exists (evs1 ++ evs2). split; [by rewrite Ht2, Ht1, app_assoc|].
      apply elem_of_app. left. apply Hall. auto.
    + split; [exact Habs|]. intros Hsome.
      exists (evs1 ++ evs2). split; [by rewrite Ht2, Ht1, app_assoc|].
      apply elem_of_app. left. apply Hall. auto.
Qed.

Lemma admin_down_router_is_removed_witness :
  "r1" ∈ (r_id <$> [r1_down]) /\
  ext (not_for "r1") knows_r1
    (state_of (_process_routers all_ok [r1_down] [] (Some 0) false knows_r1))
  /\
  router_info
    (state_of (_process_routers all_ok [r1_down] [] (Some 0) false knows_r1))
    !! "r1" = None.
Proof.
  split; [left|].
  destruct (admin_down_router_is_removed all_ok [r1_down] [] (Some 0) false
              knows_r1 "r1") as [Hquiet Hgone].
  - left.
  - intros r Hr _. apply list_elem_of_singleton in Hr as ->. reflexivity.
  - split; [exact Hquiet|]. apply Hgone. intros tr x. reflexivity.
Defined.

(** C1 as stated fails: r1 is known and comes back administratively
    down; the pass calls [_router_removed] for it and its record is
    gone afterwards. *)
Lemma admin_down_router_not_retained :
  is_Some (router_info knows_r1 !! "r1") /\
  r_admin_state_up r1_down = false /\
  trace (state_of (_process_routers all_ok [r1_down] [] (Some 0) false
                     knows_r1))
    = [(CRouterRemoved "r1", Returned)] /\
  router_info (state_of (_process_routers all_ok [r1_down] [] (Some 0) false
                           knows_r1)) !! "r1" = None.
Proof.
  split; [eexists; reflexivity|].
  repeat split; vm_compute; reflexivity.
Qed.

End AdminDown.

(** ** The full-resync flag *)
Module FullResync.

Import PhyRouterContext Vocabulary Scenarios Steps RouterPass DevicePass.

Lemma quiet_return_bind {A B} (m : M A) (k : A -> M B) :
  quiet_return m -> (forall a, quiet_return (k a)) -> quiet_return (bind m k).
Proof.
  intros Hm Hk s b s' Hrun.
  apply bind_Ret_inv in Hrun as (a & s1 & Hms & Hks).
  apply Hm in Hms as (e1 & Ht1 & Hf1).
  apply Hk in Hks as (e2 & Ht2 & Hf2).
  exists (e1 ++ e2). split; [by rewrite Ht2, Ht1, app_assoc|].
  apply Forall_app. auto.
Qed.

Lemma quiet_return_silent {A} (m : M A) :
  (forall s, trace (state_of (m s)) = trace s) -> quiet_return m.
Proof.
  intros Hm s a s' Hrun. exists []. specialize (Hm s). rewrite Hrun in Hm.
  split; [by rewrite app_nil_r | constructor].
Qed.

Section WithEnv.

Variable env : Env.

Lemma quiet_return_call c : is_direct c = true -> quiet_return (call env c).
Proof.
  intros Hc s a s'. unfold call.
  destruct (answer env (trace s) c); [|discriminate].
  intros [= <- <-]. exists [(c, Returned)]. split; [reflexivity|].
  repeat constructor. exact Hc.
Qed.

Ltac quiet_steps :=
  repeat first
    [ lazymatch goal with
      | |- quiet_return (bind _ _) => apply quiet_return_bind; [|intros ?]
      | |- quiet_return (call _ _) => apply quiet_return_call; reflexivity
      | |- quiet_return (ret _) => apply quiet_return_silent; reflexivity
      | |- quiet_return get => apply quiet_return_silent; reflexivity
      | |- quiet_return (modify _) => apply quiet_return_silent; reflexivity
      | |- quiet_return (match ?x with _ => _ end) => destruct x
      end
    | progress unfold _fetch_router_info, delete_invalid_cfg,
        prepare_fullsync, clear_fullsync ].

(** What is left of a pass once [process_service_try] has returned: the
    only events that are no returned direct calls are those of
    [_process_routers], and the flag is as that function left it. *)
Lemma process_service_try_returns s s1 :
  process_service_try env s = Ret tt s1 ->
  exists sb sc e1 e3,
    trace sb = trace s ++ e1 /\
    Forall (fun ev => is_direct (fst ev) = true /\ snd ev = Returned) e1 /\
    requeues sb sc /\
    trace s1 = trace sc ++ e3 /\
    Forall (fun ev => is_direct (fst ev) = true /\ snd ev = Returned) e3 /\
    fullsync s1 = fullsync sc.
Proof.
  unfold process_service_try. intros Hrun.
  apply bind_Ret_inv in Hrun as ([] & sa & Hsend & Hrun).
  apply (quiet_return_call CSendEmptyCfg eq_refl) in Hsend
    as (ea & Hta & Hfa).
  apply bind_Ret_inv in Hrun as (s0 & sa' & Hget & Hrun).
  injection Hget as <- <-.
  apply bind_Ret_inv in Hrun as ([[routers removed] flag] & sb & Hplan & Hrun).
  assert (Hq : exists eb, trace sb = trace sa ++ eb /\
            Forall (fun ev => is_direct (fst ev) = true /\ snd ev = Returned) eb).
  { revert Hplan. generalize (routers, removed, flag). intros plan.
    match goal with |- ?m sa = Ret plan sb -> _ =>
      assert (Hm : quiet_return m) by quiet_steps;
      intros Hplan; exact (Hm _ _ _ Hplan) end. }
  destruct Hq as (eb & Htb & Hfb).
  apply bind_Ret_inv in Hrun as ([] & sc & Hproc & Hclear).
  pose proof (process_routers_requeues env routers removed (Some 0) flag sb)
    as Hreq. rewrite Hproc in Hreq. simpl in Hreq.
  exists sb, sc, (ea ++ eb).
  assert (Hc : exists e3, trace s1 = trace sc ++ e3 /\
     Forall (fun ev => is_direct (fst ev) = true /\ snd ev = Returned) e3 /\
     fullsync s1 = fullsync sc).
  { revert Hclear. unfold clear_fullsync, call.
    destruct (answer env (trace sc) CClearFullsync); [|discriminate].
    intros [= <-]. exists [(CClearFullsync, Returned)].
    split; [reflexivity|]. split; [repeat constructor | reflexivity]. }
  destruct Hc as (e3 & Ht3 & Hf3 & Hfs). exists e3.
  split; [by rewrite Htb, Hta, app_assoc|].
  split; [apply Forall_app; auto|]. auto.
Qed.

End WithEnv.

(** C3, as the code has it: [fullsync] is true when [process_service]
    returns if, during the pass, a call made by [process_service] itself
    (probe, fetch, cleanup, prepare, clear) failed, or a call made for a
    router in the main loop of [_process_routers] raised
    [DriverException] or [KeyError]. *)
Theorem fullsync_set_after_failure (env : Env) (s : t) (evs : list Event)
    (ev : Event) :
  trace (state_of (process_service env s)) = trace s ++ evs ->
  ev ∈ evs -> raises_flag ev ->
  fullsync (state_of (process_service env s)) = true.
Proof.
  intros Ht Hin Hflag. unfold process_service, catch in *.
  destruct (process_service_try env s) as [[] s1|e s1] eqn:Htry;
    [|reflexivity].
  simpl in *.
  apply process_service_try_returns in Htry
    as (sb & sc & e1 & e3 & Ht1 & Hf1 & Hreq & Ht3 & Hf3 & Hfs).
  destruct Hreq as (e2 & Ht2 & Hd2 & _ & Hq).
  assert (evs = e1 ++ e2 ++ e3) as ->.
  { rewrite Ht3, Ht2, Ht1, <- !app_assoc in Ht.
    by apply app_inv_head in Ht. }
  rewrite Hfs.
  assert (Hquiet : forall l,
    Forall (fun ev => is_direct (fst ev) = true /\ snd ev = Returned) l ->
    ev ∈ l -> False).
  { intros l Hl Hev. rewrite Forall_forall in Hl.
    destruct (Hl _ Hev) as [Hdir Hret].
    destruct Hflag as [[_ Hne]|(rid & Hcr & _)]; [contradiction|].
    apply call_router_not_direct in Hcr. congruence. }
  apply elem_of_app in Hin as [Hin|Hin]; [destruct (Hquiet _ Hf1 Hin)|].
  apply elem_of_app in Hin as [Hin|Hin]; [|destruct (Hquiet _ Hf3 Hin)].
  destruct Hflag as [[Hdir _]|(rid & Hcr & Hexn)].
  - rewrite Forall_forall in Hd2. specialize (Hd2 _ Hin). congruence.
  - destruct ev as [c o]. simpl in *.
    destruct Hexn as [-> | ->]; eapply Hq; eauto.
Qed.

Lemma fullsync_set_after_failure_witness :
  fullsync (state_of (process_service fetch_fails __init__)) = true.
Proof.
  apply (fullsync_set_after_failure fetch_fails __init__
           [(CSendEmptyCfg, Returned);
            (CFetchRouterInfo None, Raised MessagingTimeout)]
           (CFetchRouterInfo None, Raised MessagingTimeout)).
  - vm_compute. reflexivity.
  - right. left.
  - left. split; [reflexivity | discriminate].
Defined.

(** C3 as stated fails: a full-resync pass in which [_set_subnet_info]
    raises ends with the flag cleared; the error is absorbed by
    [_process_routers], which records the device in [sync_devices]. *)
Lemma fullsync_cleared_despite_error :
  fullsync __init__ = true /\
  trace (state_of (process_service subnet_info_fails __init__))
    = [(CSendEmptyCfg, Returned); (CFetchRouterInfo None, Returned);
       (CDeleteInvalidCfg, Returned); (CPrepareFullsync, Returned);
       (CRouterAdded "r1", Returned);
       (CSetSubnetInfo "r1" port1, Raised OtherException);
       (CClearFullsync, Returned)] /\
  fullsync (state_of (process_service subnet_info_fails __init__)) = false /\
  Some 0 ∈ sync_devices (state_of (process_service subnet_info_fails __init__)).
Proof.
  split; [reflexivity|]. split; [vm_compute; reflexivity|].
  split; [vm_compute; reflexivity|].
  apply (bool_decide_unpack _). vm_compute. exact I.
Qed.

End FullResync.

(** ** Further properties of the deletion loop *)
Module DeletionRun.

Import HwVLANTrunkingPlugDriver MoreVocabulary.

Lemma outcomes_app (a b : list Event) :
  outcomes (a ++ b) = outcomes a ++ outcomes b.
Proof. apply omap_app. Qed.

Section WithDeleter.

Variable deleter : list Event -> string -> DeleterOutcome.

(** One sweep over the one-element set of the management port. *)
Lemma sweep_singleton (x : string) (tr : list Event) :
  let o := deleter tr x in
  _delete_resources deleter {[x]} tr =
    match o with
    | Deleted | RaisedExpected => (Returns, ∅, tr ++ [EvDeleter x o])
    | RaisedNeutron =>
        (Returns, {[x]}, tr ++ [EvDeleter x o; EvErrorFailed x])
    | RaisedOther => (Propagates, {[x]}, tr ++ [EvDeleter x o])
    end.
Proof.
  unfold _delete_resources. rewrite elements_singleton. simpl.
  assert (Hgone : ({[x]} : gset string) ∖ {[x]} = ∅).
  { apply set_eq. intros y.
    rewrite elem_of_difference, elem_of_singleton, elem_of_empty. tauto. }
  destruct (deleter tr x); rewrite ?Hgone, <- ?app_assoc; reflexivity.
Qed.

Lemma deletion_loop_shape (fuel : nat) :
  forall attempts port tr0 c tr,
    1 <= attempts <= DELETION_ATTEMPTS ->
    deletion_loop deleter fuel attempts (Some port) tr0 = Some (c, tr) ->
    exists n evs,
      tr = tr0 ++ evs /\
      attempts + n <= DELETION_ATTEMPTS /\
      ((attempts + n = DELETION_ATTEMPTS /\ c = Returns /\
        outcomes evs = replicate n RaisedNeutron /\
        last evs = Some (EvWarnAbort DELETION_ATTEMPTS)) \/
       (attempts + n < DELETION_ATTEMPTS /\ c = Returns /\
        (exists o, (o = Deleted \/ o = RaisedExpected) /\
           outcomes evs = replicate n RaisedNeutron ++ [o]) /\
        last evs = Some EvInfoSucceeded) \/
       (attempts + n < DELETION_ATTEMPTS /\ c = Propagates /\
        outcomes evs = replicate n RaisedNeutron ++ [RaisedOther] /\
        last evs = Some (EvDeleter (id port) RaisedOther))).
Proof.
  induction fuel as [|fuel IH]; intros attempts port tr0 c tr Hatt Hrun;
    simpl in Hrun; destruct (attempts =? DELETION_ATTEMPTS) eqn:Heq.
  - apply Nat.eqb_eq in Heq. injection Hrun as <- <-.
    exists 0, [EvWarnAbort DELETION_ATTEMPTS].
    split; [reflexivity|]. split; [lia|]. left. repeat split; lia.
  - discriminate.
  - apply Nat.eqb_eq in Heq. injection Hrun as <- <-.
    exists 0, [EvWarnAbort DELETION_ATTEMPTS].
    split; [reflexivity|]. split; [lia|]. left. repeat split; lia.
  - apply Nat.eqb_neq in Heq.
    set (pre := (if 1 <? attempts
                 then [EvSleep SECONDS_BETWEEN_DELETION_ATTEMPTS]
                 else []) ++ [EvInfoAttempt attempts]).
    assert (Hpre : (if 1 <? attempts
                    then tr0 ++ [EvSleep SECONDS_BETWEEN_DELETION_ATTEMPTS]
                    else tr0) ++ [EvInfoAttempt attempts] = tr0 ++ pre).
    { subst pre. destruct (1 <? attempts); simpl;
        rewrite <- ?app_assoc; reflexivity. }
    assert (Hpo : outcomes pre = []).
    { subst pre. destruct (1 <? attempts); reflexivity. }
    rewrite Hpre, sweep_singleton in Hrun.
    destruct (deleter (tr0 ++ pre) (id port)) eqn:Hout.
    + destruct (decide (∅ = ∅)) as [_|Hne]; [|congruence].
      destruct fuel; simpl in Hrun; injection Hrun as <- <-;
        (exists 0, (pre ++ [EvDeleter (id port) Deleted; EvInfoSucceeded]);
         split; [by rewrite <- !app_assoc|]; split; [lia|];
         right; left; split; [lia|]; split; [reflexivity|]; split;
         [exists Deleted; split; [auto|];
          rewrite outcomes_app, Hpo; reflexivity
         |rewrite last_app; reflexivity]).
    + destruct (decide (∅ = ∅)) as [_|Hne]; [|congruence].
      destruct fuel; simpl in Hrun; injection Hrun as <- <-;
        (exists 0, (pre ++ [EvDeleter (id port) RaisedExpected;
                            EvInfoSucceeded]);
         split; [by rewrite <- !app_assoc|]; split; [lia|];
         right; left; split; [lia|]; split; [reflexivity|]; split;
         [exists RaisedExpected; split; [auto|];
          rewrite outcomes_app, Hpo; reflexivity
         |rewrite last_app; reflexivity]).
    + destruct (decide (({[id port]} : gset string) = ∅)) as [Hem|_].
      { exfalso. apply (not_elem_of_empty (C:=gset string) (id port)).
        rewrite <- Hem. apply elem_of_singleton. reflexivity. }
      apply IH in Hrun as (n & evs & -> & Hn & Hcase); [|lia].
      exists (S n),
        (pre ++ [EvDeleter (id port) RaisedNeutron; EvErrorFailed (id port)]
             ++ evs).
      split; [by rewrite <- !app_assoc|]. split; [lia|].
      assert (Hout' :
        outcomes (pre ++ [EvDeleter (id port) RaisedNeutron;
                          EvErrorFailed (id port)] ++ evs) =
        RaisedNeutron :: outcomes evs).
      { rewrite !outcomes_app, Hpo. reflexivity. }
      assert (Hlast : forall e, last evs = Some e ->
        last (pre ++ [EvDeleter (id port) RaisedNeutron;
                      EvErrorFailed (id port)] ++ evs) = Some e).
      { intros e He. rewrite !last_app, He. reflexivity. }
      destruct Hcase as [(H1 & H2 & H3 & H4)|[(H1 & H2 & (o & Ho & H3) & H4)
                                             |(H1 & H2 & H3 & H4)]].
      * left. repeat split; [lia|exact H2| |auto].
        rewrite Hout', H3. reflexivity.
      * right. left. repeat split; [lia|exact H2| |auto].
        exists o. split; [exact Ho|]. rewrite Hout', H3. reflexivity.
      * right. right. repeat split; [lia|exact H2| |auto].
        rewrite Hout', H3. reflexivity.
    + injection Hrun as <- <-.
      exists 0, (pre ++ [EvDeleter (id port) RaisedOther]).
      split; [by rewrite <- !app_assoc|]. split; [lia|].
      right. right. split; [lia|]. split; [reflexivity|]. split.
      * rewrite outcomes_app, Hpo. reflexivity.
      * apply last_snoc.
Qed.

End WithDeleter.

(** X1: shape of every run of [delete_hosting_device_resources] on a
    management port. The function returns a result; the deleter is
    called again only after a call that raised a NeutronException other
    than the expected one; after fewer than [DELETION_ATTEMPTS - 1] such
    failures the run ends with the success log when the deleter returns
    or raises the expected exception, and propagates when the deleter
    raises anything else; after [DELETION_ATTEMPTS - 1] failures it
    ends with the abort warning. *)
Theorem deletion_run_shape
    (deleter : list Event -> string -> DeleterOutcome) (port : MgmtPort) :
  exists c tr n,
    delete_hosting_device_resources deleter (Some port) = Some (c, tr) /\
    n <= DELETION_ATTEMPTS - 1 /\
    ((n = DELETION_ATTEMPTS - 1 /\ c = Returns /\
      outcomes tr = replicate n RaisedNeutron /\
      last tr = Some (EvWarnAbort DELETION_ATTEMPTS)) \/
     (n < DELETION_ATTEMPTS - 1 /\ c = Returns /\
      (exists o, (o = Deleted \/ o = RaisedExpected) /\
         outcomes tr = replicate n RaisedNeutron ++ [o]) /\
      last tr = Some EvInfoSucceeded) \/
     (n < DELETION_ATTEMPTS - 1 /\ c = Propagates /\
      outcomes tr = replicate n RaisedNeutron ++ [RaisedOther] /\
      last tr = Some (EvDeleter (id port) RaisedOther))).
Proof.
  destruct (DeletionRetry.delete_hosting_device_resources_total deleter
              (Some port)) as [[c tr] Hrun].
  exists c, tr. pose proof Hrun as Hloop.
  unfold delete_hosting_device_resources in Hloop.
  apply deletion_loop_shape in Hloop as (n & evs & Htr & Hn & Hcase);
    [|unfold DELETION_ATTEMPTS; lia].
  simpl in Htr. subst evs. exists n. split; [exact Hrun|].
  unfold DELETION_ATTEMPTS in *. split; [lia|].
  destruct Hcase as [(H1 & H2)|[(H1 & H2)|(H1 & H2)]].
  - left. split; [lia | exact H2].
  - right. left. split; [lia | exact H2].
  - right. right. split; [lia | exact H2].
Qed.

End DeletionRun.

(** ** The order of the router list *)
Module AdjustList.

Import PhyRouterContext.

Lemma adjust_no_global (routers : list Router) :
  Forall (fun r => r_id r <> PHYSICAL_GLOBAL_ROUTER_ID) routers ->
  _adjust_router_list routers = routers.
Proof.
  induction 1 as [|r routers Hr _ IH]; simpl; [reflexivity|].
  destruct (decide _); [contradiction|]. by rewrite IH.
Qed.

Lemma adjust_moves_global (pre post : list Router) (g : Router) :
  Forall (fun r => r_id r <> PHYSICAL_GLOBAL_ROUTER_ID) pre ->
  r_id g = PHYSICAL_GLOBAL_ROUTER_ID ->
  _adjust_router_list (pre ++ g :: post) = pre ++ post ++ [g].
Proof.
  intros Hpre Hg. induction Hpre as [|r pre Hr _ IH]; simpl.
  - destruct (decide _); [reflexivity | contradiction].
  - destruct (decide _); [contradiction|]. by rewrite IH.
Qed.

(** X2: [_adjust_router_list] moves the first router whose id is the
    global sentinel to the end of the list and keeps all the others in
    their order; a list without such a router is left as it is. In
    particular no router is lost or repeated. *)
Theorem adjust_router_list_moves_first_global (routers : list Router) :
  (Forall (fun r => r_id r <> PHYSICAL_GLOBAL_ROUTER_ID) routers ->
   _adjust_router_list routers = routers) /\
  (forall pre g post,
     routers = pre ++ g :: post ->
     Forall (fun r => r_id r <> PHYSICAL_GLOBAL_ROUTER_ID) pre ->
     r_id g = PHYSICAL_GLOBAL_ROUTER_ID ->
     _adjust_router_list routers = pre ++ post ++ [g]) /\
  _adjust_router_list routers ≡ₚ routers.
Proof.
  split; [apply adjust_no_global|]. split.
  - intros pre g post -> Hpre Hg. by apply adjust_moves_global.
  - induction routers as [|r routers IH]; simpl; [reflexivity|].
    destruct (decide _).
    + symmetry. apply Permutation_cons_append.
    + by rewrite IH.
Qed.

Lemma adjust_router_list_moves_first_global_witness :
  _adjust_router_list
    [mkRouter "a" true None None [] [] None;
     mkRouter PHYSICAL_GLOBAL_ROUTER_ID true None None [] [] None;
     mkRouter "b" true None None [] [] None]
  = [mkRouter "a" true None None [] [] None] ++
    [mkRouter "b" true None None [] [] None] ++
    [mkRouter PHYSICAL_GLOBAL_ROUTER_ID true None None [] [] None].
Proof.
  apply (proj1 (proj2 (adjust_router_list_moves_first_global _))
           [mkRouter "a" true None None [] [] None]
           (mkRouter PHYSICAL_GLOBAL_ROUTER_ID true None None [] [] None)
           [mkRouter "b" true None None [] [] None]).
  - reflexivity.
  - repeat constructor. vm_compute. discriminate.
  - reflexivity.
Defined.

End AdjustList.

(** ** More on the port difference *)
Module PortDiffMore.

Import PhyRouterContext Vocabulary.

Lemma filter_nil_iff' {A} (P : A -> Prop) `{forall x, Decision (P x)}
    (l : list A) :
  (forall x, x ∈ l -> ~ P x) -> filter P l = [].
Proof.
  induction l as [|x l IH]; intros Hall; [reflexivity|].
  rewrite filter_cons. destruct (decide (P x)) as [HP|_].
  - destruct (Hall x); [left | exact HP].
  - apply IH. intros y Hy. apply Hall. right. exact Hy.
Qed.

Lemma diffs_as_filters (existing current : list Port) :
  _get_port_set_diffs existing current =
    (filter (fun p => ~ up_in current (p_id p)) existing,
     filter (fun p => (p_id p ∉ (p_id <$> existing)) /\
                      up_in current (p_id p)) current).
Proof.
  unfold _get_port_set_diffs. f_equal.
  - apply list_filter_iff. intros p. by rewrite PortDiff.elem_of_up_ids.
  - apply list_filter_iff. intros p.
    rewrite elem_of_difference, PortDiff.elem_of_up_ids, elem_of_list_to_set.
    tauto.
Qed.

(** X3: the two differences never overlap and vanish exactly when there
    is nothing to do: no new port has the id of an existing or of an old
    port; there is no old port iff every existing id is the id of an
    administratively up desired port, and no new port iff every such id
    is already among the existing ids. *)
Theorem port_set_diffs_no_change (existing current : list Port) :
  let old_ports := fst (_get_port_set_diffs existing current) in
  let new_ports := snd (_get_port_set_diffs existing current) in
  (forall p, p ∈ new_ports -> p_id p ∉ (p_id <$> existing)) /\
  (forall p q, p ∈ new_ports -> q ∈ old_ports -> p_id p <> p_id q) /\
  (old_ports = [] <->
     forall p, p ∈ existing -> up_in current (p_id p)) /\
  (new_ports = [] <->
     forall p, p ∈ current -> up_in current (p_id p) ->
       p_id p ∈ (p_id <$> existing)).
Proof.
  rewrite diffs_as_filters. simpl. repeat split.
  - intros p Hp. apply list_elem_of_filter in Hp as [[Hnot _] _]. exact Hnot.
  - intros p q Hp Hq Hid.
    apply list_elem_of_filter in Hp as [[_ Hup] _].
    apply list_elem_of_filter in Hq as [Hdown _].
    rewrite Hid in Hup. contradiction.
  - intros Hnil p Hp. destruct (decide (up_in current (p_id p))) as [H|H];
      [exact H|].
    assert (Hin : p ∈ filter (fun p => ~ up_in current (p_id p)) existing)
      by (apply list_elem_of_filter; auto).
    rewrite Hnil in Hin. inversion Hin.
  - intros Hall. apply filter_nil_iff'. intros p Hp Hdown.
    apply Hdown, Hall, Hp.
  - intros Hnil p Hp Hup.
    destruct (decide (p_id p ∈ (p_id <$> existing))) as [H|H]; [exact H|].
    assert (Hin : p ∈ filter (fun p => (p_id p ∉ (p_id <$> existing)) /\
                                       up_in current (p_id p)) current)
      by (apply list_elem_of_filter; auto).
    rewrite Hnil in Hin. inversion Hin.
  - intros Hall. apply filter_nil_iff'. intros p Hp [Hnot Hup].
    apply Hnot, Hall; assumption.
Qed.

End PortDiffMore.

(** ** Invariants of [router_info] *)
Module PassInvariants.

Import PhyRouterContext Vocabulary PassVocabulary Scenarios Steps RouterPass
  DevicePass.

#[global] Instance keeps_keys_preorder : PreOrder keeps_keys.
Proof.
  split.
  - intros s H. exact H.
  - intros s1 s2 s3 H1 H2 H. auto.
Qed.

#[global] Instance within_preorder A : PreOrder (within A).
Proof.
  split.
  - intros s x Hx. apply elem_of_union. left. exact Hx.
  - intros s1 s2 s3 H1 H2 x Hx. apply H2 in Hx.
    apply elem_of_union in Hx as [Hx|Hx].
    + apply H1. exact Hx.
    + apply elem_of_union. right. exact Hx.
Qed.


(** Closes [within A s (f s)]. *)
Ltac within_leaf :=
  unfold within; simpl;
  rewrite ?dom_alter_L, ?dom_insert_L, ?dom_delete_L;
  let x := fresh "x" in
  let Hx := fresh "Hx" in
  intros x Hx;
  rewrite ?elem_of_union, ?elem_of_difference, ?elem_of_singleton in *;
  intuition (subst; auto).

Section WithEnv.

Variable env : Env.


Lemma process_one_within A deleted r :
  (r_admin_state_up r = true -> r_id r ∈ A) ->
  preserves (within A) (process_one env deleted r).
Proof.
  intros Hup. unfold process_one, try_router.
  destruct (r_admin_state_up r); simpl.
  - specialize (Hup eq_refl). pres_steps within_leaf within_leaf.
  - pres_steps within_leaf within_leaf.
Qed.

Lemma elem_of_up_ids_of_router r routers :
  r ∈ routers -> r_admin_state_up r = true -> r_id r ∈ up_ids routers.
Proof.
  intros Hr Hup. unfold up_ids.
  apply elem_of_list_to_set, list_elem_of_fmap. exists r.
  split; [reflexivity|]. apply list_elem_of_filter. auto.
Qed.

Lemma process_routers_preserves_within (routers removed : list Router)
    (device_id : option nat) (all_routers : bool) :
  preserves (within (up_ids routers))
    (_process_routers env routers removed device_id all_routers).
Proof.
  unfold _process_routers, process_routers_try.
  apply preserves_catch; [apply _| |intros e].
  - apply preserves_bind; [apply _ | apply preserves_get; apply _ |].
    intros s0. apply preserves_bind; [apply _| |intros _].
    { pres_steps within_leaf within_leaf. }
    apply preserves_bind; [apply _| |intros _].
    { pres_steps within_leaf within_leaf. }
    unfold main_loop. apply preserves_for_each_in; [apply _|].
    intros r Hr. apply process_one_within. intros Hup.
    apply elem_of_up_ids_of_router; [|exact Hup].
    apply (proj1 (AdminDown.elem_of_adjust_router_list _ _)). exact Hr.
  - pres_steps within_leaf within_leaf.
Qed.

(** X5: a pass of [_process_routers] creates records only for routers
    of its list that are administratively up: every key of
    [router_info] after the pass was a key before or is the id of such
    a router. *)
Theorem process_routers_within (routers removed : list Router)
    (device_id : option nat) (all_routers : bool) (s : t) :
  dom (router_info
         (state_of (_process_routers env routers removed device_id
                      all_routers s)))
  ⊆ dom (router_info s) ∪ up_ids routers.
Proof.
  intros x Hx.
  apply (process_routers_preserves_within routers removed device_id
           all_routers s) in Hx.
  exact Hx.
Qed.


End WithEnv.



End PassInvariants.

(** ** Steady passes *)
Module SteadyPass.

Import PhyRouterContext Vocabulary PassVocabulary Scenarios Steps RouterPass
  DevicePass.

Lemma omap_all_None {A B} (f : A -> option B) (l : list A) :
  (forall x, x ∈ l -> f x = None) -> omap f l = [].
Proof.
  induction l as [|x l IH]; intros Hall; [reflexivity|]. simpl.
  rewrite (Hall x) by left. apply IH. intros y Hy. apply Hall. right. exact Hy.
Qed.

Section WithEnv.

Variable env : Env.

(** A pass over no router at all does nothing. *)
Lemma process_routers_nothing (device_id : option nat) (s : t) :
  _process_routers env [] [] device_id false s = Ret tt s.
Proof.
  unfold _process_routers, catch, process_routers_try, bind, get. simpl.
  assert (Hgone : elements ((dom (router_info s) ∩ (∅ : gset string)) ∖ ∅)
                  = []).
  { rewrite intersection_empty_r_L, difference_diag_L.
    apply elements_empty. }
  rewrite Hgone. reflexivity.
Qed.

(** X7: a steady pass with nothing pending is idle. With [fullsync]
    clear, no updated id and no removed id that is still known,
    [process_service] only probes the device and calls
    [clear_fullsync]: nothing is fetched, no router is touched, and all
    attributes but the flag and the history are as before; the flag is
    raised iff one of the two calls failed. *)
Theorem idle_pass (s : t) :
  fullsync s = false ->
  updated_routers s = ∅ ->
  (forall r, r ∈ removed_routers s -> router_info s !! r = None) ->
  exists evs,
    trace (state_of (process_service env s)) = trace s ++ evs /\
    ((evs = [(CSendEmptyCfg, Returned); (CClearFullsync, Returned)] /\
      fullsync (state_of (process_service env s)) = false) \/
     (exists e, evs = [(CSendEmptyCfg, Raised e)] /\
      fullsync (state_of (process_service env s)) = true) \/
     (exists e,
        evs = [(CSendEmptyCfg, Returned); (CClearFullsync, Raised e)] /\
        fullsync (state_of (process_service env s)) = true)) /\
    router_info (state_of (process_service env s)) = router_info s /\
    updated_routers (state_of (process_service env s)) = updated_routers s /\
    removed_routers (state_of (process_service env s)) = removed_routers s /\
    sync_devices (state_of (process_service env s)) = sync_devices s.
Proof.
  intros Hfull Hupd Hrem.
  cbv [process_service catch process_service_try bind call modify get
       clear_fullsync ret].
  destruct (answer env (trace s) CSendEmptyCfg) as [|e] eqn:Hprobe.
  - cbn [fullsync set_trace updated_routers]. rewrite Hfull, Hupd.
    destruct (decide (∅ = ∅)) as [_|Hne]; [|congruence].
    cbn [removed_routers router_info].
    rewrite omap_all_None.
    2:{ intros r Hr. apply elem_of_elements in Hr. cbn in *.
        rewrite (Hrem r Hr). reflexivity. }
    rewrite process_routers_nothing. cbn.
    destruct (answer env _ CClearFullsync) as [|e] eqn:Hclear; cbn.
    + exists [(CSendEmptyCfg, Returned); (CClearFullsync, Returned)].
      split; [by rewrite <- app_assoc|]. split; [left; auto|].
      rewrite Hupd. auto.
    + exists [(CSendEmptyCfg, Returned); (CClearFullsync, Raised e)].
      split; [by rewrite <- app_assoc|]. split; [right; right; eauto|].
      rewrite Hupd. auto.
  - cbn. eexists. split; [reflexivity|]. split; [right; left; eauto|].
    auto.
Qed.

(** X8: a steady pass drains the pending updates into one fetch. With
    [fullsync] clear, some id pending and the probe answered, the next
    call is the fetch of exactly the pending ids; if that fetch fails,
    nothing else is called and the pass ends with [fullsync] raised (the
    ids themselves have already left [updated_routers]). *)
Theorem pending_updates_fetched (s : t) :
  fullsync s = false ->
  updated_routers s <> ∅ ->
  answer env (trace s) CSendEmptyCfg = Returned ->
  exists o evs,
    trace (state_of (process_service env s)) =
      trace s ++
      (CSendEmptyCfg, Returned) ::
      (CFetchRouterInfo (Some (elements (updated_routers s))), o) :: evs /\
    (o <> Returned ->
     evs = [] /\
     fullsync (state_of (process_service env s)) = true /\
     updated_routers (state_of (process_service env s)) = ∅).
Proof.
  intros Hfull Hupd Hprobe.
  cbv [process_service catch process_service_try bind call modify get
       _fetch_router_info clear_fullsync ret].
  rewrite Hprobe. cbn [fullsync set_trace updated_routers]. rewrite Hfull.
  destruct (decide (updated_routers s = ∅)) as [Hem|_]; [contradiction|].
  cbn.
  destruct (answer env _ (CFetchRouterInfo _)) as [|e] eqn:Hfetch; cbn.
  - match goal with
    | |- context [_process_routers env ?rs ?rm ?d ?a ?s0] =>
        destruct (process_routers_requeues env rs rm d a s0)
          as (evs2 & Ht2 & _);
        destruct (_process_routers env rs rm d a s0) as [[] s1|e s1]
    end; cbn in *.
    + destruct (answer env (trace s1) CClearFullsync) as [|e];
        (eexists Returned, (evs2 ++ [_]); split; [|congruence]; cbn;
         rewrite Ht2, <- !app_assoc; reflexivity).
    + eexists Returned, evs2. split; [|congruence].
      rewrite Ht2, <- !app_assoc. reflexivity.
  - exists (Raised e), []. split; [by rewrite <- app_assoc|].
    intros _. auto.
Qed.

End WithEnv.

(** r1 is known and has been reported as updated. *)
Lemma pending_updates_fetched_witness :
  exists o evs,
    trace (state_of (process_service all_ok
                       (set_updated_routers {[ "r1" ]} knows_r1))) =
      trace (set_updated_routers {[ "r1" ]} knows_r1) ++
      (CSendEmptyCfg, Returned) ::
      (CFetchRouterInfo
         (Some (elements (updated_routers
                            (set_updated_routers {[ "r1" ]} knows_r1)))), o)
      :: evs /\
    (o <> Returned ->
     evs = [] /\
     fullsync (state_of (process_service all_ok
                           (set_updated_routers {[ "r1" ]} knows_r1))) = true /\
     updated_routers
       (state_of (process_service all_ok
                    (set_updated_routers {[ "r1" ]} knows_r1))) = ∅).
Proof.
  apply (pending_updates_fetched all_ok
           (set_updated_routers {[ "r1" ]} knows_r1)).
  - reflexivity.
  - intros Hem. apply (not_elem_of_empty (C:=gset string) "r1").
    simpl in Hem. rewrite <- Hem. apply elem_of_singleton. reflexivity.
  - reflexivity.
Defined.

Lemma idle_pass_witness :
  exists evs,
    trace (state_of (process_service all_ok knows_r1))
      = trace knows_r1 ++ evs /\
    ((evs = [(CSendEmptyCfg, Returned); (CClearFullsync, Returned)] /\
      fullsync (state_of (process_service all_ok knows_r1)) = false) \/
     (exists e, evs = [(CSendEmptyCfg, Raised e)] /\
      fullsync (state_of (process_service all_ok knows_r1)) = true) \/
     (exists e,
        evs = [(CSendEmptyCfg, Returned); (CClearFullsync, Raised e)] /\
        fullsync (state_of (process_service all_ok knows_r1)) = true)) /\
    router_info (state_of (process_service all_ok knows_r1))
      = router_info knows_r1 /\
    updated_routers (state_of (process_service all_ok knows_r1))
      = updated_routers knows_r1 /\
    removed_routers (state_of (process_service all_ok knows_r1))
      = removed_routers knows_r1 /\
    sync_devices (state_of (process_service all_ok knows_r1))
      = sync_devices knows_r1.
Proof.
  apply (idle_pass all_ok knows_r1).
  - reflexivity.
  - reflexivity.
  - intros r Hr. inversion Hr.
Defined.

End SteadyPass.

(** ** The order of the calls *)
Module CallOrder.

Import PhyRouterContext Vocabulary PassVocabulary Scenarios MoreScenarios
  Steps RouterPass DevicePass.

Lemma phased_nil Ps : phased Ps [].
Proof.
  induction Ps as [|P Ps IH]; simpl; [reflexivity|].
  exists [], []. repeat split; [constructor | exact IH].
Qed.

Lemma runs_in_silent Ps {A} (m : M A) :
  (forall s, trace (state_of (m s)) = trace s) -> runs_in Ps m.
Proof.
  intros Hm s. exists []. split; [by rewrite Hm, app_nil_r | apply phased_nil].
Qed.






Section WithEnv.

Variable env : Env.






End WithEnv.


End CallOrder.

(** ** A pass with a driver that accepts everything *)
Module ObligingDriver.

Import PhyRouterContext Vocabulary PassVocabulary Scenarios Steps.

Lemma at_record_lookup k s evs ri' s' :
  at_record k s evs ri' s' -> router_info s' !! k = Some ri'.
Proof. intros (_ & -> & _). apply lookup_insert_eq. Qed.

Lemma at_record_trans k s evs1 ri1 s1 evs2 ri2 s2 :
  at_record k s evs1 ri1 s1 -> at_record k s1 evs2 ri2 s2 ->
  at_record k s (evs1 ++ evs2) ri2 s2.
Proof.
  intros (Ht1 & Hr1 & Hu1 & Hd1 & Hs1 & Hf1) (Ht2 & Hr2 & Hu2 & Hd2 & Hs2 & Hf2).
  unfold at_record. rewrite Ht2, Ht1, Hr2, Hr1, Hu2, Hu1, Hd2, Hd1, Hs2, Hs1,
    Hf2, Hf1, insert_insert_eq, app_assoc. repeat split.
Qed.

Lemma alter_known {V} (f : V -> V) (k : string) (m : gmap string V) (x : V) :
  m !! k = Some x -> alter f k m = <[k := f x]> m.
Proof.
  intros Hk. apply map_eq. intros j. rewrite lookup_alter, lookup_insert.
  destruct (decide (k = j)) as [<-|]; [by rewrite Hk | reflexivity].
Qed.

(** Removing what left from what was applied followed by anything. *)
Lemma remove_all_filter (P : Port -> Prop) `{forall p, Decision (P p)}
    (l : list Port) :
  forall pre tail,
    Forall P pre ->
    remove_all (filter (fun p => ~ P p) l) (pre ++ l ++ tail)
    = Some (pre ++ filter P l ++ tail).
Proof.
  induction l as [|x l IH]; intros pre tail Hpre; [reflexivity|].
  rewrite !filter_cons. destruct (decide (P x)) as [HP|HP].
  - destruct (decide (~ P x)) as [Hn|_]; [contradiction|].
    replace (pre ++ (x :: l) ++ tail) with ((pre ++ [x]) ++ l ++ tail)
      by (rewrite <- app_assoc; reflexivity).
    rewrite IH by (apply Forall_app; split; [exact Hpre | by constructor]).
    rewrite <- app_assoc. reflexivity.
  - destruct (decide (~ P x)) as [_|Hn]; [|contradiction].
    assert (Hrem : list_remove x (pre ++ (x :: l) ++ tail)
                   = Some (pre ++ l ++ tail)).
    { clear IH. induction Hpre as [|y pre Hy _ IHpre]; simpl.
      - destruct (decide (x = x)); [reflexivity | congruence].
      - destruct (decide (y = x)) as [->|_]; [contradiction|].
        simpl in IHpre. rewrite IHpre. reflexivity. }
    cbn [remove_all]. rewrite Hrem. apply IH. exact Hpre.
Qed.

Lemma new_ports_are_up (existing current : list Port) (p : Port) :
  p ∈ snd (_get_port_set_diffs existing current) ->
  up_in current (p_id p).
Proof.
  rewrite PortDiffMore.diffs_as_filters. simpl. intros Hp.
  apply list_elem_of_filter in Hp as [[_ Hup] _]. exact Hup.
Qed.

Lemma filter_all {A} (P : A -> Prop) `{forall x, Decision (P x)}
    (l : list A) :
  (forall x, x ∈ l -> P x) -> filter P l = l.
Proof.
  induction l as [|x l IH]; intros Hall; [reflexivity|].
  rewrite filter_cons. destruct (decide (P x)) as [_|Hn].
  - rewrite IH; [reflexivity|]. intros y Hy. apply Hall. right. exact Hy.
  - destruct Hn. apply Hall. left.
Qed.

Lemma applied_list_up (existing current : list Port) (p : Port) :
  p ∈ kept current existing ++ snd (_get_port_set_diffs existing current) ->
  up_in current (p_id p).
Proof.
  intros Hp. apply elem_of_app in Hp as [Hp|Hp].
  - apply list_elem_of_filter in Hp as [Hup _]. exact Hup.
  - eapply new_ports_are_up. exact Hp.
Qed.

(** Once the difference is applied, nothing is left to apply. *)
Lemma diffs_after_applying (existing current : list Port) :
  _get_port_set_diffs
    (kept current existing ++ snd (_get_port_set_diffs existing current))
    current = ([], []).
Proof.
  rewrite (PortDiffMore.diffs_as_filters (_ ++ _)). f_equal.
  - apply PortDiffMore.filter_nil_iff'. intros p Hp Hdown.
    apply Hdown. eapply applied_list_up. exact Hp.
  - apply PortDiffMore.filter_nil_iff'. intros p Hp [Hnot Hup].
    apply Hnot. rewrite fmap_app, elem_of_app.
    destruct (decide (p_id p ∈ (p_id <$> existing))) as [Hin|Hout].
    + left. apply list_elem_of_fmap in Hin as (q & Hid & Hq).
      apply list_elem_of_fmap. exists q. split; [exact Hid|].
      apply list_elem_of_filter. split; [|exact Hq]. by rewrite <- Hid.
    + right. apply list_elem_of_fmap. exists p. split; [reflexivity|].
      rewrite PortDiffMore.diffs_as_filters. simpl.
      apply list_elem_of_filter. auto.
Qed.

Lemma kept_after_applying (existing current : list Port) :
  kept current
    (kept current existing ++ snd (_get_port_set_diffs existing current))
  = kept current existing ++ snd (_get_port_set_diffs existing current).
Proof. apply filter_all. intros p. apply applied_list_up. Qed.

Lemma applied_idempotent (ri : RouterInfo.t) : applied (applied ri) = applied ri.
Proof.
  unfold applied at 1. cbn [RouterInfo.router RouterInfo._router applied
    RouterInfo.set_ex_gw_port RouterInfo.set_ha_gw_ports
    RouterInfo.set_internal_ports RouterInfo.set_ha_info
    RouterInfo.internal_ports RouterInfo.ha_gw_ports].
  rewrite !diffs_after_applying, !kept_after_applying. cbn [snd].
  rewrite !app_nil_r. unfold applied. destruct ri; reflexivity.
Qed.

Lemma pass_events_after (k : string) (ri : RouterInfo.t) :
  pass_events k (applied ri) =
  match r_gw_port (RouterInfo.router ri) with
  | Some _ => [(CProcessRouterFloatingIps k, Returned)]
  | None => []
  end ++ [(CRoutesUpdated k, Returned)].
Proof.
  unfold pass_events. cbn [RouterInfo.router RouterInfo._router applied
    RouterInfo.set_ex_gw_port RouterInfo.set_ha_gw_ports
    RouterInfo.set_internal_ports RouterInfo.set_ha_info
    RouterInfo.internal_ports RouterInfo.ha_gw_ports].
  rewrite !diffs_after_applying. reflexivity.
Qed.

Section WithEnv.

Variable env : Env.
Hypothesis Hobliging : obliging env.
Variable k : string.

Lemma call_returns c s :
  call env c s = Ret tt (set_trace (trace s ++ [(c, Returned)]) s).
Proof. unfold call. rewrite Hobliging. reflexivity. Qed.

Lemma modify_ri_at f s ri :
  router_info s !! k = Some ri ->
  exists s', modify_ri k f s = Ret tt s' /\ at_record k s [] (f ri) s'.
Proof.
  intros Hri. eexists. split; [reflexivity|].
  unfold at_record. simpl.
  rewrite app_nil_r, (alter_known _ _ _ _ Hri). repeat split.
Qed.

Lemma call_at c s ri :
  router_info s !! k = Some ri ->
  exists s', call env c s = Ret tt s' /\ at_record k s [(c, Returned)] ri s'.
Proof.
  intros Hri. eexists. split; [apply call_returns|].
  unfold at_record. simpl. rewrite insert_id by exact Hri. repeat split.
Qed.

(** The loop over new ports. *)
Lemma add_loop_at (c : string -> Port -> Call)
    (app : Port -> RouterInfo.t -> RouterInfo.t) (ps : list Port) :
  forall s ri,
    router_info s !! k = Some ri ->
    exists s',
      for_each ps (fun p =>
        call env (CSetSubnetInfo k p) >> call env (c k p) >>
        modify_ri k (app p)) s = Ret tt s' /\
      at_record k s (added_events k c ps)
        (foldl (fun r p => app p r) ri ps) s'.
Proof.
  induction ps as [|p ps IH]; intros s ri Hri; simpl.
  - exists s. split; [reflexivity|].
    unfold at_record. rewrite app_nil_r, insert_id by exact Hri.
    repeat split.
  - destruct (call_at (CSetSubnetInfo k p) s ri Hri) as (s1 & Hc1 & H1).
    destruct (call_at (c k p) s1 ri (at_record_lookup _ _ _ _ _ H1))
      as (s2 & Hc2 & H2).
    destruct (modify_ri_at (app p) s2 ri (at_record_lookup _ _ _ _ _ H2))
      as (s3 & Hc3 & H3).
    destruct (IH s3 (app p ri) (at_record_lookup _ _ _ _ _ H3))
      as (s' & Hrun & H4).
    exists s'. split.
    + unfold bind. rewrite Hc1, Hc2, Hc3. exact Hrun.
    + pose proof (at_record_trans _ _ _ _ _ _ _ _
                    (at_record_trans _ _ _ _ _ _ _ _
                       (at_record_trans _ _ _ _ _ _ _ _ H1 H2) H3) H4) as H.
      rewrite app_nil_r, <- app_assoc in H. exact H.
Qed.

(** The loop over old ports, for a list read by [get] and written by
    [set]. *)
Lemma remove_loop_at (c : string -> Port -> Call)
    (get : RouterInfo.t -> list Port)
    (set : list Port -> RouterInfo.t -> RouterInfo.t)
    (Hget : forall l ri, get (set l ri) = l)
    (Hset : forall l l' ri, set l (set l' ri) = set l ri)
    (Hid : forall ri, set (get ri) ri = ri)
    (ops : list Port) :
  forall s ri l',
    router_info s !! k = Some ri ->
    remove_all ops (get ri) = Some l' ->
    exists s',
      for_each ops (fun p =>
        call env (c k p) >>
        (let* ri := read_ri k in
         match list_remove p (get ri) with
         | Some l => modify_ri k (set l)
         | None => raise ValueError
         end)) s = Ret tt s' /\
      at_record k s (removed_events k c ops) (set l' ri) s'.
Proof.
  induction ops as [|p ops IH]; intros s ri l' Hri Hrem.
  - simpl in Hrem. injection Hrem as <-. exists s. split; [reflexivity|].
    unfold at_record. simpl.
    rewrite app_nil_r, Hid, insert_id by exact Hri. repeat split.
  - simpl in Hrem. destruct (list_remove p (get ri)) as [l1|] eqn:Hp;
      [|discriminate].
    destruct (call_at (c k p) s ri Hri) as (s1 & Hc1 & H1).
    pose proof (at_record_lookup _ _ _ _ _ H1) as Hri1.
    destruct (modify_ri_at (set l1) s1 ri Hri1) as (s2 & Hc2 & H2).
    pose proof (at_record_trans _ _ _ _ _ _ _ _ H1 H2) as H12.
    assert (Hbody : bind (call env (c k p))
              (fun _ => let* ri := read_ri k in
                 match list_remove p (get ri) with
                 | Some l => modify_ri k (set l)
                 | None => raise ValueError
                 end) s = Ret tt s2).
    { unfold bind at 1. rewrite Hc1. unfold bind, read_ri.
      rewrite Hri1, Hp. exact Hc2. }
    simpl. unfold bind at 1. rewrite Hbody.
    destruct (IH s2 (set l1 ri) l' (at_record_lookup _ _ _ _ _ H2))
      as (s' & Hrun & H3); [by rewrite Hget|].
    exists s'. split; [exact Hrun|].
    pose proof (at_record_trans _ _ _ _ _ _ _ _ H12 H3) as H.
    rewrite Hset in H. exact H.
Qed.

Lemma foldl_append_internal (ps : list Port) (ri : RouterInfo.t) :
  foldl (fun r p => append_internal_port p r) ri ps =
  RouterInfo.set_internal_ports (RouterInfo.internal_ports ri ++ ps) ri.
Proof.
  revert ri. induction ps as [|p ps IH]; intros ri; simpl.
  - rewrite app_nil_r. destruct ri; reflexivity.
  - rewrite IH. unfold append_internal_port. simpl.
    rewrite <- app_assoc. reflexivity.
Qed.

Lemma foldl_append_ha_gw (ps : list Port) (ri : RouterInfo.t) :
  foldl (fun r p => append_ha_gw_port p r) ri ps =
  RouterInfo.set_ha_gw_ports (RouterInfo.ha_gw_ports ri ++ ps) ri.
Proof.
  revert ri. induction ps as [|p ps IH]; intros ri; simpl.
  - rewrite app_nil_r. destruct ri; reflexivity.
  - rewrite IH. unfold append_ha_gw_port. simpl.
    rewrite <- app_assoc. reflexivity.
Qed.

(** What was kept and what is new, after the removals. *)
Lemma remove_old (existing current : list Port) :
  remove_all (fst (_get_port_set_diffs existing current))
    (existing ++ snd (_get_port_set_diffs existing current))
  = Some (kept current existing ++ snd (_get_port_set_diffs existing current)).
Proof.
  rewrite PortDiffMore.diffs_as_filters. simpl.
  apply (remove_all_filter (fun p => up_in current (p_id p)) existing []).
  constructor.
Qed.

Lemma process_router_try_obliging s ri :
  router_info s !! k = Some ri ->
  exists s',
    process_router_try env k ri s = Ret tt s' /\
    at_record k s (pass_events k ri) (applied ri) s'.
Proof.
  intros Hri. unfold process_router_try, pass_events, applied,
    remove_internal_port, remove_ha_gw_port.
  pose proof (remove_old (RouterInfo.internal_ports ri)
                (r_interfaces (RouterInfo.router ri))) as Hrem1.
  pose proof (remove_old (RouterInfo.ha_gw_ports ri)
                (r_ha_gw_interfaces (RouterInfo.router ri))) as Hrem2.
  destruct (_get_port_set_diffs (RouterInfo.internal_ports ri) _)
    as [old_ports new_ports].
  destruct (_get_port_set_diffs (RouterInfo.ha_gw_ports ri) _)
    as [old_gw_ports new_gw_ports].
  cbn [fst snd] in *.
  destruct (modify_ri_at
              (RouterInfo.set_ha_info (r_ha_info (RouterInfo.router ri)))
              s ri Hri) as (s1 & Hc1 & H1).
  destruct (add_loop_at CInternalNetworkAdded append_internal_port new_ports
              s1 _ (at_record_lookup _ _ _ _ _ H1)) as (s2 & Hc2 & H2).
  rewrite foldl_append_internal in H2.
  destruct (remove_loop_at CInternalNetworkRemoved RouterInfo.internal_ports
              RouterInfo.set_internal_ports
              (fun _ _ => eq_refl) (fun _ _ _ => eq_refl)
              (fun ri => match ri with RouterInfo.mk _ _ _ _ _ _ _ _ _ _ =>
                           eq_refl end)
              old_ports s2 _ _ (at_record_lookup _ _ _ _ _ H2) Hrem1)
    as (s3 & Hc3 & H3).
  destruct (add_loop_at CExternalGatewayAdded append_ha_gw_port new_gw_ports
              s3 _ (at_record_lookup _ _ _ _ _ H3)) as (s4 & Hc4 & H4).
  rewrite foldl_append_ha_gw in H4.
  destruct (remove_loop_at CExternalGatewayRemoved RouterInfo.ha_gw_ports
              RouterInfo.set_ha_gw_ports
              (fun _ _ => eq_refl) (fun _ _ _ => eq_refl)
              (fun ri => match ri with RouterInfo.mk _ _ _ _ _ _ _ _ _ _ =>
                           eq_refl end)
              old_gw_ports s4 _ _ (at_record_lookup _ _ _ _ _ H4) Hrem2)
    as (s5 & Hc5 & H5).
  pose proof (at_record_trans _ _ _ _ _ _ _ _
                (at_record_trans _ _ _ _ _ _ _ _
                   (at_record_trans _ _ _ _ _ _ _ _
                      (at_record_trans _ _ _ _ _ _ _ _ H1 H2) H3) H4) H5)
    as H15.
  unfold bind at 1. rewrite Hc1. cbv beta.
  unfold bind at 1. rewrite Hc2. cbv beta.
  unfold bind at 1. rewrite Hc3. cbv beta.
  unfold bind at 1. rewrite Hc4. cbv beta.
  unfold bind at 1. rewrite Hc5. cbv beta.
  destruct (r_gw_port (RouterInfo.router ri)) as [gw|] eqn:Hgw.
  - destruct (call_at (CProcessRouterFloatingIps k) s5 _
                (at_record_lookup _ _ _ _ _ H5)) as (s6 & Hc6 & H6).
    destruct (modify_ri_at (RouterInfo.set_ex_gw_port (Some gw)) s6 _
                (at_record_lookup _ _ _ _ _ H6)) as (s7 & Hc7 & H7).
    destruct (call_at (CRoutesUpdated k) s7 _
                (at_record_lookup _ _ _ _ _ H7)) as (s8 & Hc8 & H8).
    exists s8. split.
    + unfold bind. rewrite Hc6, Hc7. exact Hc8.
    + pose proof (at_record_trans _ _ _ _ _ _ _ _
                    (at_record_trans _ _ _ _ _ _ _ _
                       (at_record_trans _ _ _ _ _ _ _ _ H15 H6) H7) H8) as H.
      simpl in H. rewrite app_nil_r, <- !app_assoc in H. simpl in H.
      exact H.
  - destruct (modify_ri_at (RouterInfo.set_ex_gw_port None) s5 _
                (at_record_lookup _ _ _ _ _ H5)) as (s7 & Hc7 & H7).
    destruct (call_at (CRoutesUpdated k) s7 _
                (at_record_lookup _ _ _ _ _ H7)) as (s8 & Hc8 & H8).
    exists s8. split.
    + unfold bind, ret. rewrite Hc7. exact Hc8.
    + pose proof (at_record_trans _ _ _ _ _ _ _ _
                    (at_record_trans _ _ _ _ _ _ _ _ H15 H7) H8) as H.
      simpl in H. rewrite app_nil_r, <- !app_assoc in H. simpl in H.
      exact H.
Qed.

Lemma process_router_obliging s ri :
  router_info s !! k = Some ri ->
  exists s',
    _process_router env k s = Ret tt s' /\
    at_record k s (pass_events k ri) (applied ri) s'.
Proof.
  intros Hri. destruct (process_router_try_obliging s ri Hri)
    as (s' & Hrun & Hat).
  exists s'. split; [|exact Hat].
  unfold _process_router, bind, read_ri, catch. rewrite Hri, Hrun.
  reflexivity.
Qed.

End WithEnv.

(** X11: with a driver that accepts every call, [_process_router]
    returns and brings the record of the router to its desired state:
    each applied list is the ports that were kept (those whose id is
    the id of an administratively up desired port) followed by the new
    ports, [ex_gw_port] is the desired gateway port, the calls are the
    additions, the removals, the floating-IP reconciliation when there
    is a gateway port and the route update, in this order, and nothing
    else changes: no other record, no pending set, not the flag. *)
Theorem obliging_pass_reaches_desired (env : Env) (k : string) (s : t)
    (ri : RouterInfo.t) :
  obliging env ->
  router_info s !! k = Some ri ->
  exists s',
    _process_router env k s = Ret tt s' /\
    at_record k s (pass_events k ri) (applied ri) s' /\
    RouterInfo.internal_ports (applied ri) =
      kept (r_interfaces (RouterInfo.router ri)) (RouterInfo.internal_ports ri)
      ++ snd (_get_port_set_diffs (RouterInfo.internal_ports ri)
                (r_interfaces (RouterInfo.router ri))) /\
    RouterInfo.ha_gw_ports (applied ri) =
      kept (r_ha_gw_interfaces (RouterInfo.router ri))
           (RouterInfo.ha_gw_ports ri)
      ++ snd (_get_port_set_diffs (RouterInfo.ha_gw_ports ri)
                (r_ha_gw_interfaces (RouterInfo.router ri))) /\
    RouterInfo.ex_gw_port (applied ri) = r_gw_port (RouterInfo.router ri).
Proof.
  intros Hob Hri.
  destruct (process_router_obliging env Hob k s ri Hri) as (s' & Hrun & Hat).
  exists s'. repeat split; try assumption; apply Hat.
Qed.

(** X12: applying the same desired state twice changes nothing the
    second time. With a driver that accepts every call, a second
    [_process_router] right after the first makes no addition and no
    removal (only the floating-IP reconciliation, when there is a
    gateway port, and the route update) and leaves [router_info] as the
    first pass left it. *)
Theorem second_pass_changes_nothing (env : Env) (k : string) (s : t)
    (ri : RouterInfo.t) :
  obliging env ->
  router_info s !! k = Some ri ->
  exists s1 s2,
    _process_router env k s = Ret tt s1 /\
    _process_router env k s1 = Ret tt s2 /\
    router_info s2 = router_info s1 /\
    trace s2 =
      trace s1 ++
      match r_gw_port (RouterInfo.router ri) with
      | Some _ => [(CProcessRouterFloatingIps k, Returned)]
      | None => []
      end ++ [(CRoutesUpdated k, Returned)].
Proof.
  intros Hob Hri.
  destruct (process_router_obliging env Hob k s ri Hri) as (s1 & Hrun1 & Hat1).
  pose proof (at_record_lookup _ _ _ _ _ Hat1) as Hri1.
  destruct (process_router_obliging env Hob k s1 _ Hri1)
    as (s2 & Hrun2 & Hat2).
  exists s1, s2. split; [exact Hrun1|]. split; [exact Hrun2|].
  destruct Hat2 as (Ht & Hr & _). split.
  - rewrite Hr, applied_idempotent. apply insert_id. exact Hri1.
  - rewrite Ht, pass_events_after. reflexivity.
Qed.

Lemma all_ok_obliging : obliging all_ok.
Proof. intros tr c. reflexivity. Qed.

Lemma obliging_pass_reaches_desired_witness :
  exists s',
    _process_router all_ok "r1" knows_r1_shrunk = Ret tt s' /\
    at_record "r1" knows_r1_shrunk (pass_events "r1" ri1_shrunk)
      (applied ri1_shrunk) s'.
Proof.
  destruct (obliging_pass_reaches_desired all_ok "r1" knows_r1_shrunk
              ri1_shrunk all_ok_obliging eq_refl) as (s' & Hrun & Hat & _).
  exists s'. split; assumption.
Defined.

Lemma second_pass_changes_nothing_witness :
  exists s1 s2,
    _process_router all_ok "r1" knows_r1_shrunk = Ret tt s1 /\
    _process_router all_ok "r1" s1 = Ret tt s2 /\
    router_info s2 = router_info s1.
Proof.
  destruct (second_pass_changes_nothing all_ok "r1" knows_r1_shrunk
              ri1_shrunk all_ok_obliging eq_refl)
    as (s1 & s2 & H1 & H2 & H3 & _).
  exists s1, s2. auto.
Defined.

End ObligingDriver.

(** ** Notifications from the plugin *)
Module Notifications.

Import PhyRouterContext Vocabulary Scenarios Steps DevicePass.
Import RoutingServiceHelperWithPhyContext.

Lemma set_asr_contexts_twice m1 m2 (h : t) :
  set_asr_contexts m1 (set_asr_contexts m2 h) = set_asr_contexts m1 h.
Proof. reflexivity. Qed.

Lemma set_asr_contexts_same (h : t) :
  set_asr_contexts (_asr_contexts h) h = h.
Proof. by destruct h. Qed.

(** The ids a notification of updated routers stands for. *)
Lemma routers_updated_ids (ids : list string) (h : t) :
  routers_updated (inl ids) h
  = set_asr_contexts
      ((fun c =>
          set_updated_routers (updated_routers c ∪ list_to_set ids) c)
         <$> _asr_contexts h) h.
Proof.
  unfold routers_updated. case_bool_decide as Hnil; [|reflexivity].
  subst ids. rewrite <- (set_asr_contexts_same h) at 1. f_equal.
  rewrite <- (map_fmap_id (_asr_contexts h)) at 1.
  apply map_fmap_ext. intros name c _. destruct c. cbn.
  by rewrite (right_id_L ∅ (∪)).
Qed.

Lemma routers_updated_dicts (dicts : list Router) (h : t) :
  routers_updated (inr dicts) h = routers_updated (inl (r_id <$> dicts)) h.
Proof.
  unfold routers_updated. destruct dicts as [|d dicts]; reflexivity.
Qed.

Lemma routers_updated_as_ids (p : list string + list Router) (h : t) :
  exists ids, forall h', routers_updated p h' = routers_updated (inl ids) h'.
Proof.
  destruct p as [ids|dicts]; [by exists ids|].
  exists (r_id <$> dicts). intros h'. apply routers_updated_dicts.
Qed.

(** X13: the notifications are idempotent and their order does not
    matter: handling the same [routers_updated] or [router_deleted]
    message twice is the same as handling it once, and two messages of
    either kind can be handled in any order. *)
Theorem notifications_idempotent_commute
    (p p' : list string + list Router) (q q' : list string) (h : t) :
  routers_updated p (routers_updated p h) = routers_updated p h /\
  router_deleted q (router_deleted q h) = router_deleted q h /\
  routers_updated p (routers_updated p' h)
    = routers_updated p' (routers_updated p h) /\
  router_deleted q (router_deleted q' h)
    = router_deleted q' (router_deleted q h) /\
  routers_updated p (router_deleted q h)
    = router_deleted q (routers_updated p h).
Proof.
  destruct (routers_updated_as_ids p h) as (ids & Hp).
  destruct (routers_updated_as_ids p' h) as (ids' & Hp').
  rewrite !Hp, !Hp', !routers_updated_ids.
  unfold router_deleted, set_asr_contexts. cbn.
  rewrite <- !map_fmap_compose.
  repeat apply conj; f_equal; apply map_fmap_ext; intros name c _;
    destruct c; unfold set_updated_routers, set_removed_routers; cbn;
    f_equal.
  - by rewrite <- (assoc_L (∪)), (idemp_L (∪)).
  - by rewrite <- (assoc_L (∪)), (idemp_L (∪)).
  - by rewrite <- !(assoc_L (∪)), (comm_L (∪) (list_to_set ids)).
  - by rewrite <- !(assoc_L (∪)), (comm_L (∪) (list_to_set q)).
Qed.

(** X14: the other notification formats reduce to the two basic ones.
    A [routers_updated] message in the old format, a list of router
    dictionaries, has the effect of the list of their ids;
    [router_added_to_agent] is [routers_updated]; and
    [router_removed_from_agent] with a payload that carries
    [router_id] is [router_deleted] of that one id. A payload without
    [router_id] raises [KeyError] exactly when there is some device
    context, and leaves the helper as it is otherwise. *)
Theorem notification_formats (dicts : list Router) (ids : list string)
    (payload : gmap string string) (h : t) :
  routers_updated (inr dicts) h = routers_updated (inl (r_id <$> dicts)) h /\
  router_added_to_agent ids h = routers_updated (inl ids) h /\
  match payload !! "router_id" with
  | Some router_id =>
      router_removed_from_agent payload h = inr (router_deleted [router_id] h)
  | None =>
      (_asr_contexts h <> ∅ ->
       router_removed_from_agent payload h = inl KeyError) /\
      (_asr_contexts h = ∅ -> router_removed_from_agent payload h = inr h)
  end.
Proof.
  split; [apply routers_updated_dicts|]. split; [reflexivity|].
  unfold router_removed_from_agent, router_deleted.
  destruct (payload !! "router_id") as [router_id|] eqn:Hkey.
  - case_bool_decide as Hnone.
    + rewrite Hnone, fmap_empty, <- Hnone.
      by rewrite set_asr_contexts_same.
    + do 2 f_equal. apply map_fmap_ext. intros name c _.
      by rewrite list_to_set_cons, list_to_set_nil, (right_id_L ∅ (∪)).
  - split; intros Hctx; case_bool_decide; congruence.
Qed.

(** Whatever is pending, a pass whose probe is answered asks the
    plugin next: for all routers in a full resync, for the pending
    updates otherwise. *)
Lemma fetch_follows_probe (env : Env) (s : PhyRouterContext.t) :
  answer env (trace s) CSendEmptyCfg = Returned ->
  fullsync s = true \/ updated_routers s <> ∅ ->
  exists o evs,
    trace (state_of (PhyRouterContext.process_service env s)) =
      trace s ++
      (CSendEmptyCfg, Returned) ::
      (CFetchRouterInfo
         (if fullsync s then None
          else Some (elements (updated_routers s))), o) :: evs.
Proof.
  intros Hprobe Hpending.
  cbv [PhyRouterContext.process_service catch process_service_try bind call
       modify get _fetch_router_info delete_invalid_cfg prepare_fullsync
       clear_fullsync ret].
  rewrite Hprobe. cbn [fullsync set_trace updated_routers].
  destruct (fullsync s) eqn:Hfull.
  - cbn.
    destruct (answer env _ (CFetchRouterInfo _)) as [|e] eqn:Hfetch; cbn.
    2:{ exists (Raised e), []. by rewrite <- app_assoc. }
    destruct (answer env _ CDeleteInvalidCfg) as [|e] eqn:Hdel; cbn.
    2:{ eexists Returned, [_]. by rewrite <- !app_assoc. }
    destruct (answer env _ CPrepareFullsync) as [|e] eqn:Hprep; cbn.
    2:{ eexists Returned, [_; _]. by rewrite <- !app_assoc. }
    match goal with
    | |- context [_process_routers env ?rs ?rm ?d ?a ?s0] =>
        destruct (process_routers_requeues env rs rm d a s0)
          as (evs2 & Ht2 & _);
        destruct (_process_routers env rs rm d a s0) as [[] s1|e s1]
    end; cbn in *.
    + destruct (answer env (trace s1) CClearFullsync) as [|e];
        (eexists Returned, (_ :: _ :: evs2 ++ [_]); cbn;
         rewrite Ht2, <- !app_assoc; reflexivity).
    + eexists Returned, (_ :: _ :: evs2).
      rewrite Ht2, <- !app_assoc. reflexivity.
  - destruct Hpending as [|Hupd]; [discriminate|].
    destruct (decide (updated_routers s = ∅)) as [Hem|_]; [contradiction|].
    cbn.
    destruct (answer env _ (CFetchRouterInfo _)) as [|e] eqn:Hfetch; cbn.
    2:{ exists (Raised e), []. by rewrite <- app_assoc. }
    match goal with
    | |- context [_process_routers env ?rs ?rm ?d ?a ?s0] =>
        destruct (process_routers_requeues env rs rm d a s0)
          as (evs2 & Ht2 & _);
        destruct (_process_routers env rs rm d a s0) as [[] s1|e s1]
    end; cbn in *.
    + destruct (answer env (trace s1) CClearFullsync) as [|e];
        (eexists Returned, (evs2 ++ [_]); cbn;
         rewrite Ht2, <- !app_assoc; reflexivity).
    + eexists Returned, evs2.
      rewrite Ht2, <- !app_assoc. reflexivity.
Qed.

(** X15: a router reported by [routers_updated] is asked for in the
    next pass of every device. After a non-empty notification and a
    heartbeat that returns, each device whose probe is answered calls
    the plugin right after the probe: for all routers when the device
    is in full resync, and otherwise for exactly what was pending on
    it together with the reported ids. *)
Theorem updated_routers_fetched_by_every_device
    (envs : string -> Env) (ids : list string) (h : t)
    (asr_name : string) (c : PhyRouterContext.t) :
  ids <> [] ->
  _asr_contexts h !! asr_name = Some c ->
  answer (envs asr_name) (trace c) CSendEmptyCfg = Returned ->
  exists c' o evs,
    _asr_contexts
      (snd (process_service envs Returned (routers_updated (inl ids) h)))
      !! asr_name = Some c' /\
    trace c' =
      trace c ++
      (CSendEmptyCfg, Returned) ::
      (CFetchRouterInfo
         (if fullsync c then None
          else Some (elements (updated_routers c ∪ list_to_set ids))), o)
      :: evs.
Proof.
  intros Hids Hc Hprobe.
  rewrite routers_updated_ids. cbn.
  rewrite map_lookup_imap, lookup_fmap, Hc. cbn.
  set (c1 := set_updated_routers (updated_routers c ∪ list_to_set ids) c).
  destruct (fetch_follows_probe (envs asr_name) c1) as (o & evs & Ht).
  - exact Hprobe.
  - right. cbn. destruct ids as [|i ids]; [congruence|].
    intros Hem. apply (not_elem_of_empty (C:=gset string) i).
    rewrite <- Hem. apply elem_of_union_r, elem_of_list_to_set. left.
  - exists (state_of (PhyRouterContext.process_service (envs asr_name) c1)),
      o, evs.
    split; [reflexivity|]. exact Ht.
Qed.

(** X16: a connection error forces a full resync. After
    [connection_err_callback], the next pass whose probe is answered
    asks the plugin for all routers, whatever was pending. *)
Theorem connection_error_forces_full_resync (env : Env)
    (s : PhyRouterContext.t) :
  answer env (trace s) CSendEmptyCfg = Returned ->
  exists o evs,
    trace (state_of (PhyRouterContext.process_service env
                       (connection_err_callback s))) =
      trace s ++
      (CSendEmptyCfg, Returned) :: (CFetchRouterInfo None, o) :: evs.
Proof.
  intros Hprobe.
  destruct (fetch_follows_probe env (connection_err_callback s))
    as (o & evs & Ht); [exact Hprobe | by left |].
  exists o, evs. exact Ht.
Qed.

(** X17: a missed heartbeat is followed by a full resync of every
    device. After a tick whose heartbeat timed out, the next tick whose
    heartbeat returns makes each device whose probe is answered ask the
    plugin for all routers. *)
Theorem timeout_then_full_resync (envs envs' : string -> Env) (h : t)
    (asr_name : string) (c : PhyRouterContext.t) :
  _asr_contexts h !! asr_name = Some c ->
  answer (envs' asr_name) (trace c) CSendEmptyCfg = Returned ->
  exists c' o evs,
    _asr_contexts
      (snd (process_service envs' Returned
              (snd (process_service envs (Raised MessagingTimeout) h))))
      !! asr_name = Some c' /\
    trace c' =
      trace c ++
      (CSendEmptyCfg, Returned) :: (CFetchRouterInfo None, o) :: evs.
Proof.
  intros Hc Hprobe. cbn.
  rewrite map_lookup_imap, lookup_fmap, Hc. cbn.
  destruct (fetch_follows_probe (envs' asr_name) (set_fullsync true c))
    as (o & evs & Ht); [exact Hprobe | by left |].
  exists (state_of (PhyRouterContext.process_service (envs' asr_name)
                      (set_fullsync true c))), o, evs.
  split; [reflexivity | exact Ht].
Qed.

Lemma connection_error_forces_full_resync_witness :
  exists o evs,
    trace (state_of (PhyRouterContext.process_service all_ok
                       (connection_err_callback knows_r1))) =
      trace knows_r1 ++
      (CSendEmptyCfg, Returned) :: (CFetchRouterInfo None, o) :: evs.
Proof.
  apply (connection_error_forces_full_resync all_ok knows_r1). reflexivity.
Defined.

Lemma timeout_then_full_resync_witness :
  exists c' o evs,
    _asr_contexts
      (snd (process_service (fun _ => all_ok) Returned
              (snd (process_service (fun _ => all_ok)
                      (Raised MessagingTimeout)
                      (mk (Classes.blank Classes.cls_PhyCiscoRoutingPluginApi)
                          "t" {[ "asr1" := knows_r1 ]})))))
      !! "asr1" = Some c' /\
    trace c' =
      trace knows_r1 ++
      (CSendEmptyCfg, Returned) :: (CFetchRouterInfo None, o) :: evs.
Proof.
  apply (timeout_then_full_resync (fun _ => all_ok) (fun _ => all_ok)
           (mk (Classes.blank Classes.cls_PhyCiscoRoutingPluginApi)
               "t" {[ "asr1" := knows_r1 ]})
           "asr1" knows_r1).
  - reflexivity.
  - reflexivity.
Defined.

Lemma updated_routers_fetched_by_every_device_witness :
  exists c' o evs,
    _asr_contexts
      (snd (process_service (fun _ => all_ok) Returned
              (routers_updated (inl ["r1"])
                 (mk (Classes.blank Classes.cls_PhyCiscoRoutingPluginApi) "t" {[ "asr1" := knows_r1 ]}))))
      !! "asr1" = Some c' /\
    trace c' =
      trace knows_r1 ++
      (CSendEmptyCfg, Returned) ::
      (CFetchRouterInfo
         (if fullsync knows_r1 then None
          else Some (elements (updated_routers knows_r1 ∪ list_to_set ["r1"]))),
       o)
      :: evs.
Proof.
  apply (updated_routers_fetched_by_every_device (fun _ => all_ok) ["r1"]
           (mk (Classes.blank Classes.cls_PhyCiscoRoutingPluginApi) "t" {[ "asr1" := knows_r1 ]})
           "asr1" knows_r1).
  - discriminate.
  - reflexivity.
  - reflexivity.
Defined.

End Notifications.

(** ** Resources of a hosting device *)
Module HostingResources.

Import HwVLANTrunkingPlugDriver HostingDeviceResources.

Lemma collect_all_spec (mgmt_nw_id : option string) (query : list PortRow) :
  forall acc,
    collect_all mgmt_nw_id query acc =
      let data :=
        filter (fun p => Some (network_id p) <> mgmt_nw_id) query in
      if decide (Forall (fun p => fixed_ips p <> []) data) then
        inr (mkResources
               (from_option Some (mgmt_port acc)
                  (last (filter (fun p => Some (network_id p) = mgmt_nw_id)
                           query)))
               (ports acc ++ data)
               (networks acc ++ (network_id <$> data))
               (subnets acc ++
                omap (fun p => subnet_id <$> head (fixed_ips p)) data))
      else inl IndexError.
Proof.
  induction query as [|port rest IH]; intros acc; cbv zeta.
  - cbn. rewrite decide_True by constructor. cbn. rewrite !app_nil_r.
    by destruct acc.
  - cbn [collect_all]. unfold collect. rewrite !filter_cons.
    destruct (decide (Some (network_id port) <> mgmt_nw_id)) as [Hdata|Hmgmt].
    + rewrite (decide_False (P := Some (network_id port) = mgmt_nw_id))
        by exact Hdata.
      destruct (fixed_ips port) as [|ip ips] eqn:Hips.
      * rewrite decide_False; [reflexivity|].
        intros Hall. apply Forall_cons in Hall as [Hne _]. congruence.
      * rewrite IH. cbn.
        destruct (decide (Forall _ (filter _ rest))) as [Hall|Hnot].
        -- rewrite decide_True.
           2:{ constructor; [congruence | exact Hall]. }
           cbn. rewrite Hips. cbn. by rewrite <- !app_assoc.
        -- rewrite decide_False; [reflexivity|].
           intros Hall. apply Forall_cons in Hall as [_ Hall]. auto.
    + apply dec_stable in Hmgmt.
      rewrite (decide_True (P := Some (network_id port) = mgmt_nw_id))
        by exact Hmgmt.
      rewrite IH. cbn.
      destruct (decide (Forall _ (filter _ rest))) as [Hall|Hnot];
        [|reflexivity].
      f_equal. f_equal. rewrite last_cons. by destruct (last _).
Qed.

(** X18: [get_hosting_device_resources] splits the ports of a device
    by network. It raises [IndexError] exactly when some port of the
    device outside the management network has no fixed ip. Otherwise
    [ports] are the ports of the device outside the management
    network, in query order, [networks] and [subnets] give for each of
    them its network and the subnet of its first fixed ip, and
    [mgmt_port] is the last port of the device on the management
    network, if any. *)
Theorem hosting_device_resources_by_network (table : list PortRow)
    (id complementary_id : string) (mgmt_nw_id : option string) :
  let query :=
    filter (fun port =>
              device_id port = id \/ device_owner port = complementary_id)
           table in
  let data := filter (fun p => Some (network_id p) <> mgmt_nw_id) query in
  get_hosting_device_resources table id complementary_id mgmt_nw_id =
    if decide (Forall (fun p => fixed_ips p <> []) data) then
      inr (mkResources
             (last (filter (fun p => Some (network_id p) = mgmt_nw_id) query))
             data
             (network_id <$> data)
             (omap (fun p => subnet_id <$> head (fixed_ips p)) data))
    else inl IndexError.
Proof.
  cbn. unfold get_hosting_device_resources. rewrite collect_all_spec. cbn.
  destruct (decide (Forall _ _)); [|reflexivity].
  f_equal. f_equal. by destruct (last _).
Qed.

Section Create.

Variable deleter : list Event -> string -> DeleterOutcome.
Variable _mgmt_subnet_spec : gmap string string -> option (list string).
Variable mgmt_port_profile_id : ProfileOutcome.
Variable create_port : PSpec -> CreateOutcome.

(** X19: [create_hosting_device_resources] never deletes anything.
    Whatever its collaborators do, it ends; the clean-up after a failed
    [create_port] finds no port to delete, so its whole history is the
    message that the deletion succeeded; and a port is returned only
    if [create_port] returned it for a specification with the given
    tenant and owner on the management network of the context. *)
Theorem create_never_deletes (complementary_id : string)
    (tenant_id : option string) (mgmt_context : option (gmap string string)) :
  exists r tr,
    create_hosting_device_resources deleter _mgmt_subnet_spec
      mgmt_port_profile_id create_port complementary_id tenant_id
      mgmt_context = Some (r, tr) /\
    (tr = [] \/ (tr = [EvInfoSucceeded] /\ r = Return None)) /\
    forall port,
      r = Return (Some port) ->
      exists ctx p_spec,
        mgmt_context = Some ctx /\
        create_port p_spec = Created port /\
        Some (ps_tenant_id p_spec) = tenant_id /\
        ps_device_owner p_spec = complementary_id /\
        ctx !! "mgmt_nw_id" = Some (ps_network_id p_spec) /\
        ps_network_id p_spec <> "".
Proof.
  unfold create_hosting_device_resources.
  destruct mgmt_context as [ctx|]; [|eexists _, _; split; [reflexivity|];
    split; [by left | discriminate]].
  destruct tenant_id as [tenant|]; [|eexists _, _; split; [reflexivity|];
    split; [by left | discriminate]].
  destruct (negb (bool_decide (ctx = ∅)) && truthy (ctx !! "mgmt_nw_id")
            && truthy (Some tenant)) eqn:Hgate;
    [|eexists _, _; split; [reflexivity|]; split; [by left | discriminate]].
  apply andb_prop in Hgate as [Hgate _].
  apply andb_prop in Hgate as [_ Hnw].
  destruct (ctx !! "mgmt_nw_id") as [nw|] eqn:Hlook; [|discriminate].
  assert (Hne : nw <> "").
  { intros ->. discriminate. }
  destruct (_mgmt_subnet_spec ctx) as [ips|];
    [|eexists _, _; split; [reflexivity|]; split; [by left | discriminate]].
  destruct mgmt_port_profile_id as [v| |];
    try (eexists _, _; split; [reflexivity|]; split; [by left | discriminate]).
  - destruct (create_port _) as [port| |] eqn:Hcreate; cbn.
    + eexists _, _. split; [reflexivity|]. split; [by left|].
      intros port' [= <-]. eexists ctx, _. split; [reflexivity|].
      split; [exact Hcreate|]. cbn. auto.
    + eexists _, _. split; [reflexivity|]. split; [right; auto|].
      discriminate.
    + eexists _, _. split; [reflexivity|]. split; [by left|]. discriminate.
  - destruct (create_port _) as [port| |] eqn:Hcreate; cbn.
    + eexists _, _. split; [reflexivity|]. split; [by left|].
      intros port' [= <-]. eexists ctx, _. split; [reflexivity|].
      split; [exact Hcreate|]. cbn. auto.
    + eexists _, _. split; [reflexivity|]. split; [right; auto|].
      discriminate.
    + eexists _, _. split; [reflexivity|]. split; [by left|]. discriminate.
Qed.

End Create.

End HostingResources.

(** ** The map of device interfaces *)
Module InterfaceConfig.

Import InterfaceMap.

Lemma split_nonempty sep s : split sep s <> [].
Proof.
  destruct s as [|c s]; cbn; [discriminate|].
  destruct (Ascii.eqb c sep); [discriminate|].
  destruct (split sep s); discriminate.
Qed.

Lemma last_write_app (a b : list Write) dev side net :
  last_write (a ++ b) dev side net
  = from_option Some (last_write a dev side net) (last_write b dev side net).
Proof.
  unfold last_write. rewrite filter_app, last_app.
  destruct (last (filter _ b)); reflexivity.
Qed.

Lemma last_write_nil dev side net : last_write [] dev side net = None.
Proof. reflexivity. Qed.

Lemma last_write_one (w : Write) dev side net :
  last_write [w] dev side net
  = if decide (fst w = (dev, side, net)) then Some (snd w) else None.
Proof.
  unfold last_write. rewrite filter_cons, filter_nil.
  by destruct (decide (fst w = (dev, side, net))).
Qed.

Lemma held_setitem (temp : Temp) hd d entry nets net_id interface
    dev side net :
  temp !! hd = Some d -> d !! entry = Some nets ->
  held (<[hd := <[entry := <[net_id := interface]> nets]> d]> temp)
       dev side net
  = if decide ((hd, entry, net_id) = (dev, side, net)) then Some interface
    else held temp dev side net.
Proof.
  intros Hd Hnets. unfold held.
  destruct (decide (hd = dev)) as [->|Hdev].
  2:{ rewrite lookup_insert_ne by exact Hdev.
      rewrite decide_False by congruence. reflexivity. }
  rewrite lookup_insert_eq, Hd.
  destruct (decide (entry = side)) as [->|Hside].
  2:{ rewrite lookup_insert_ne by exact Hside.
      rewrite decide_False by congruence. reflexivity. }
  rewrite lookup_insert_eq, Hnets.
  destruct (decide (net_id = net)) as [->|Hnet].
  - rewrite lookup_insert_eq. by rewrite decide_True.
  - rewrite lookup_insert_ne by exact Hnet.
    rewrite decide_False by congruence. reflexivity.
Qed.

Lemma shaped_setitem (temp : Temp) hd d entry nets net_id interface :
  shaped temp -> temp !! hd = Some d -> d !! entry = Some nets ->
  shaped (<[hd := <[entry := <[net_id := interface]> nets]> d]> temp).
Proof.
  intros Hshaped Hd Hnets hd' d' Hlook side.
  destruct (decide (hd = hd')) as [->|Hne].
  - rewrite lookup_insert_eq in Hlook. injection Hlook as <-.
    rewrite <- (Hshaped hd' d Hd side).
    destruct (decide (entry = side)) as [->|Hside].
    + rewrite lookup_insert_eq, Hnets. split; eauto.
    + by rewrite lookup_insert_ne.
  - rewrite lookup_insert_ne in Hlook by exact Hne. by apply (Hshaped hd' d').
Qed.

(** The assignments of a well-formed item all succeed. *)
Lemma assign_each_valid hd entry interface (net_ids : list string) :
  entry = "internal" \/ entry = "external" ->
  forall temp,
    shaped temp -> is_Some (temp !! hd) ->
    exists temp',
      assign_each hd entry interface net_ids temp = (None, temp') /\
      shaped temp' /\ is_Some (temp' !! hd) /\
      (forall hd', is_Some (temp !! hd') -> is_Some (temp' !! hd')) /\
      forall dev side net,
        held temp' dev side net
        = from_option Some (held temp dev side net)
            (last_write
               ((fun net_id => (hd, entry, net_id, interface)) <$> net_ids)
               dev side net).
Proof.
  intros Hentry.
  induction net_ids as [|net_id rest IH]; intros temp Hshaped [d Hd].
  - exists temp. cbn. split; [reflexivity|]. split; [exact Hshaped|].
    split; [eauto|]. split; [auto|]. reflexivity.
  - cbn [assign_each]. unfold setitem. rewrite Hd.
    destruct (proj2 (Hshaped hd d Hd entry) Hentry) as [nets Hnets].
    rewrite Hnets.
    destruct (IH (<[hd := <[entry := <[net_id := interface]> nets]> d]> temp))
      as (temp' & Hrun & Hshaped' & Hhd & Hdom & Hheld).
    { by apply shaped_setitem. }
    { rewrite lookup_insert_eq. eauto. }
    exists temp'. split; [exact Hrun|]. split; [exact Hshaped'|].
    split; [exact Hhd|]. split.
    + intros hd' Hin. apply Hdom.
      destruct (decide (hd = hd')) as [->|Hne];
        [rewrite lookup_insert_eq; eauto | by rewrite lookup_insert_ne].
    + intros dev side net. rewrite Hheld, (held_setitem _ _ _ _ _ _ _ _ _ _ Hd Hnets).
      rewrite fmap_cons.
      change (?w :: ?l) with ([w] ++ l) at 1.
      rewrite last_write_app, last_write_one. cbn [fst snd].
      destruct (last_write _ dev side net); [reflexivity|]. cbn.
      destruct (decide ((hd, entry, net_id) = (dev, side, net))); reflexivity.
Qed.

(** An item for something that is no side of the device fails at its
    first network, before anything is written. *)
Lemma assign_each_invalid hd entry interface (net_ids : list string) temp :
  ~ (entry = "internal" \/ entry = "external") ->
  net_ids <> [] -> shaped temp -> is_Some (temp !! hd) ->
  assign_each hd entry interface net_ids temp = (Some KeyError, temp).
Proof.
  intros Hentry Hne Hshaped [d Hd].
  destruct net_ids as [|net_id rest]; [congruence|].
  cbn. unfold setitem. rewrite Hd.
  destruct (d !! entry) as [nets|] eqn:Hnets; [|reflexivity].
  exfalso. apply Hentry. apply (Hshaped hd d Hd entry). eauto.
Qed.

Lemma follows_nil temp : shaped temp -> follows [] temp temp.
Proof. intros Hs. split; [exact Hs|]. split; [auto|]. reflexivity. Qed.

Lemma follows_app ws1 ws2 t0 t1 t2 :
  follows ws1 t0 t1 -> follows ws2 t1 t2 -> follows (ws1 ++ ws2) t0 t2.
Proof.
  intros (_ & Hd1 & Hh1) (Hs2 & Hd2 & Hh2). split; [exact Hs2|]. split.
  - intros hd Hin. auto.
  - intros dev side net. rewrite Hh2, Hh1, last_write_app.
    by destruct (last_write ws2 dev side net).
Qed.

Lemma load_item_spec hd (kv : string * string) temp log :
  shaped temp -> is_Some (temp !! hd) ->
  exists temp',
    load_item hd kv (temp, log)
      = inr (temp', log ++ section_rejects hd [kv]) /\
    follows (item_writes hd kv) temp temp'.
Proof.
  intros Hshaped Hhd. destruct kv as [k v].
  unfold load_item, section_rejects, item_writes. cbn [fst snd flat_map].
  destruct (String.index 0 "_" k) as [i|].
  2:{ exists temp. cbn. split; [reflexivity | by apply follows_nil]. }
  destruct (split ":" v) as [|net_spec [|interface [|x l]]].
  1,2,4: exists temp; cbn; split; [reflexivity | by apply follows_nil].
  destruct (decide (String.substring 0 i k = "internal"
                    \/ String.substring 0 i k = "external")) as [Hside|Hside].
  - destruct (assign_each_valid hd _ interface (split "," net_spec) Hside
                temp Hshaped Hhd)
      as (temp' & Hrun & Hshaped' & _ & Hdom & Hheld).
    exists temp'. rewrite Hrun. split.
    + destruct (split "," net_spec) eqn:Hsplit;
        [by apply split_nonempty in Hsplit|].
      cbn. by rewrite app_nil_r.
    + split; [exact Hshaped'|]. split; [exact Hdom | exact Hheld].
  - rewrite assign_each_invalid;
      [|exact Hside | apply split_nonempty | exact Hshaped | exact Hhd].
    exists temp. cbn. split; [reflexivity | by apply follows_nil].
Qed.

Lemma section_rejects_cons hd kv kvs :
  section_rejects hd (kv :: kvs)
  = section_rejects hd [kv] ++ section_rejects hd kvs.
Proof. unfold section_rejects. cbn. by rewrite app_nil_r. Qed.

Lemma load_items_spec hd (kv_dict : list (string * string)) :
  forall temp log,
    shaped temp -> is_Some (temp !! hd) ->
    exists temp',
      load_items hd kv_dict (temp, log)
        = inr (temp', log ++ section_rejects hd kv_dict) /\
      follows (section_writes hd kv_dict) temp temp'.
Proof.
  induction kv_dict as [|kv rest IH]; intros temp log Hshaped Hhd.
  - exists temp. cbn. rewrite app_nil_r. split; [reflexivity|].
    by apply follows_nil.
  - cbn [load_items].
    destruct (load_item_spec hd kv temp log Hshaped Hhd)
      as (temp1 & -> & Hf1).
    destruct (IH temp1 (log ++ section_rejects hd [kv])) as (temp2 & -> & Hf2).
    { apply Hf1. }
    { apply Hf1. exact Hhd. }
    exists temp2. split.
    + by rewrite (section_rejects_cons hd kv rest), app_assoc.
    + apply (follows_app _ _ _ _ _ Hf1 Hf2).
Qed.

Lemma held_new_device (temp : Temp) hd dev side net :
  temp !! hd = None ->
  held (<[hd := {[ "internal" := ∅; "external" := ∅ ]}]> temp) dev side net
  = held temp dev side net.
Proof.
  intros Hnone. unfold held.
  destruct (decide (hd = dev)) as [->|Hne].
  - rewrite lookup_insert_eq, Hnone.
    destruct (decide (side = "internal")) as [->|Hi].
    { rewrite lookup_insert_eq. apply lookup_empty. }
    rewrite lookup_insert_ne by congruence.
    destruct (decide (side = "external")) as [->|He].
    { rewrite lookup_singleton_eq. apply lookup_empty. }
    rewrite lookup_singleton_ne by congruence. reflexivity.
  - by rewrite lookup_insert_ne.
Qed.

Lemma shaped_new_device (temp : Temp) hd :
  shaped temp ->
  shaped (<[hd := {[ "internal" := ∅; "external" := ∅ ]}]> temp).
Proof.
  intros Hshaped hd' d Hlook side.
  destruct (decide (hd = hd')) as [->|Hne].
  - rewrite lookup_insert_eq in Hlook. injection Hlook as <-.
    destruct (decide (side = "internal")) as [->|Hi].
    { rewrite lookup_insert_eq. split; eauto. }
    rewrite lookup_insert_ne by congruence.
    destruct (decide (side = "external")) as [->|He].
    { rewrite lookup_singleton_eq. split; eauto. }
    rewrite lookup_singleton_ne by congruence.
    split; [intros [? ?]; discriminate | intros [?|?]; congruence].
  - rewrite lookup_insert_ne in Hlook by exact Hne. by apply (Hshaped hd' d).
Qed.

Section Config.

Variable uuidify : string -> Exn + string.

Lemma load_sections_spec
    (dni_dict : list (string * list (string * string))) :
  accepted uuidify dni_dict ->
  forall temp log,
    shaped temp ->
    exists temp',
      load_sections uuidify dni_dict (temp, log)
        = inr (temp', log ++ config_rejects uuidify dni_dict) /\
      follows (config_writes uuidify dni_dict) temp temp'.
Proof.
  induction dni_dict as [|[name kv_dict] rest IH];
    intros Hacc temp log Hshaped.
  - exists temp. cbn. rewrite app_nil_r. split; [reflexivity|].
    by apply follows_nil.
  - apply Forall_cons in Hacc as [[hd Hhd] Hacc]. cbn in Hhd.
    cbn [load_sections config_rejects config_writes flat_map fst snd].
    rewrite Hhd.
    set (temp0 := if decide (is_Some (temp !! hd)) then temp
                  else <[hd := {[ "internal" := ∅; "external" := ∅ ]}]> temp).
    assert (Htemp0 : follows [] temp temp0 /\ is_Some (temp0 !! hd)).
    { unfold temp0. destruct (decide (is_Some (temp !! hd))) as [Hin|Hout].
      - split; [by apply follows_nil | exact Hin].
      - apply eq_None_not_Some in Hout. split.
        + split; [by apply shaped_new_device|]. split.
          * intros hd' Hin. destruct (decide (hd = hd')) as [->|Hne];
              [rewrite lookup_insert_eq; eauto | by rewrite lookup_insert_ne].
          * intros dev side net. by rewrite held_new_device.
        + rewrite lookup_insert_eq. eauto. }
    destruct Htemp0 as [Hf0 Hin0].
    destruct (load_items_spec hd kv_dict temp0 log) as (temp1 & Hrun1 & Hf1).
    { apply Hf0. }
    { exact Hin0. }
    change (fst (temp, log)) with temp. change (snd (temp, log)) with log.
    fold temp0. rewrite Hrun1.
    destruct (IH Hacc temp1 (log ++ section_rejects hd kv_dict))
      as (temp2 & Hrun2 & Hf2).
    { apply Hf1. }
    exists temp2. rewrite Hrun2. split.
    + by rewrite app_assoc.
    + apply (follows_app [] _ _ _ _ Hf0).
      apply (follows_app _ _ _ _ _ Hf1 Hf2).
Qed.

Lemma shaped_empty : shaped ∅.
Proof. intros hd d Hlook. by rewrite lookup_empty in Hlook. Qed.

Lemma held_empty dev side net : held ∅ dev side net = None.
Proof. unfold held. by rewrite lookup_empty. Qed.

(** X20: in the loaded map the last well-formed item wins. When
    [uuidify] accepts every section name,
    [_get_network_interface_map_from_config] installs a map that holds,
    for each device, side and network, the interface of the last item
    of the configuration that assigns one; an item that is not well
    formed (no underscore in its key, a value that is not
    [networks:interface], a key that starts with neither [internal_]
    nor [external_]) changes nothing and is logged once, in order. *)
Theorem config_last_item_wins
    (dni_dict : list (string * list (string * string))) (cls : Cls) :
  accepted uuidify dni_dict ->
  exists temp,
    _get_network_interface_map_from_config uuidify dni_dict cls
      = inr (mkCls (Some temp) (log cls ++ config_rejects uuidify dni_dict)) /\
    forall dev side net,
      held temp dev side net
      = last_write (config_writes uuidify dni_dict) dev side net.
Proof.
  intros Hacc. unfold _get_network_interface_map_from_config.
  destruct (load_sections_spec dni_dict Hacc ∅ (log cls) shaped_empty)
    as (temp & -> & _ & _ & Hheld).
  exists temp. split; [reflexivity|].
  intros dev side net. rewrite Hheld, held_empty.
  by destruct (last_write _ dev side net).
Qed.

(** The lookup in a map, by what the map holds. *)
Lemma lookup_interface_held (m : Temp) (l : list LogRecord)
    device_id network_id external :
  lookup_interface (mkCls (Some m) l) device_id network_id external
  = match held m device_id (side_of external) "*" with
    | Some wildcard =>
        inr (default wildcard
               (held m device_id (side_of external) network_id))
    | None => inl KeyError
    end.
Proof.
  unfold lookup_interface, held, side_of. cbn.
  destruct (m !! device_id) as [d|]; [|reflexivity].
  destruct (d !! (if external then "external" else "internal")) as [nets|];
    [|reflexivity].
  reflexivity.
Qed.

(** X21: the interface of a network is found only on a side that has
    a wildcard. The first call of [_get_interface_info] loads the
    configuration and answers from it: nothing when the side of the
    device has no item for the network ["*"], mapped or not; else the
    interface assigned to the network, and the one of ["*"] when there
    is none. Every later call answers from the map loaded then,
    whatever the configuration has become. *)
Theorem interface_info_needs_wildcard
    (dni_dict : list (string * list (string * string)))
    (device_id network_id : string) (external : bool)
    (l : list LogRecord) :
  accepted uuidify dni_dict ->
  exists cls',
    _get_interface_info uuidify dni_dict device_id network_id external
      (mkCls None l)
    = inr (answer_of (config_writes uuidify dni_dict)
             device_id network_id external, cls') /\
    forall dni_dict' device_id' network_id' external',
      exists cls'',
        _get_interface_info uuidify dni_dict' device_id' network_id'
          external' cls'
        = inr (answer_of (config_writes uuidify dni_dict)
                 device_id' network_id' external', cls'') /\
        _device_network_interface_map cls''
        = _device_network_interface_map cls'.
Proof.
  intros Hacc. unfold _get_interface_info at 1.
  cbn [_device_network_interface_map].
  unfold _get_network_interface_map_from_config.
  cbn [log _device_network_interface_map].
  destruct (load_sections_spec dni_dict Hacc ∅ l shaped_empty)
    as (temp & -> & _ & _ & Hfollows).
  assert (Hheld : forall dev side net,
    held temp dev side net
    = last_write (config_writes uuidify dni_dict) dev side net).
  { intros dev side net. rewrite Hfollows, held_empty.
    by destruct (last_write _ dev side net). }
  assert (Hanswer : forall l0 dev net ext,
    exists cls2,
      match lookup_interface (mkCls (Some temp) l0) dev net ext with
      | inl TypeError | inl KeyError =>
          inr (None, mkCls (Some temp) (l0 ++ [FailedLookup dev net]))
      | inl e => inl e
      | inr interface => inr (Some interface, mkCls (Some temp) l0)
      end
      = inr (answer_of (config_writes uuidify dni_dict) dev net ext, cls2) /\
      _device_network_interface_map cls2 = Some temp).
  { intros l0 dev net ext. rewrite lookup_interface_held, !Hheld.
    unfold answer_of.
    destruct (last_write _ dev (side_of ext) "*"); eexists; split;
      reflexivity. }
  cbn [log _device_network_interface_map].
  destruct (Hanswer (l ++ config_rejects uuidify dni_dict)
              device_id network_id external) as (cls' & Hfirst & Hmap).
  exists cls'. split.
  - rewrite <- Hfirst.
    by destruct (lookup_interface _ device_id network_id external)
      as [[]|].
  - intros dni_dict' device_id' network_id' external'.
    unfold _get_interface_info. rewrite Hmap.
    destruct cls' as [m l']. cbn in Hmap. subst m.
    cbn [log _device_network_interface_map].
    destruct (Hanswer l' device_id' network_id' external')
      as (cls'' & Hnext & Hmap').
    exists cls''. split; [|exact Hmap'].
    rewrite <- Hnext.
    by destruct (lookup_interface _ device_id' network_id' external')
      as [[]|].
Qed.

End Config.

Lemma config_last_item_wins_witness :
  exists temp,
    _get_network_interface_map_from_config sample_uuidify sample_config
      (mkCls None [])
      = inr (mkCls (Some temp)
               (log (mkCls None []) ++
                config_rejects sample_uuidify sample_config)) /\
    forall dev side net,
      held temp dev side net
      = last_write (config_writes sample_uuidify sample_config) dev side net.
Proof.
  apply (config_last_item_wins sample_uuidify sample_config (mkCls None [])).
  constructor; [by eexists | constructor].
Defined.

Lemma interface_info_needs_wildcard_witness :
  exists cls',
    _get_interface_info sample_uuidify sample_config "dev1" "net9" true
      (mkCls None [])
    = inr (answer_of (config_writes sample_uuidify sample_config)
             "dev1" "net9" true, cls') /\
    forall dni_dict' device_id' network_id' external',
      exists cls'',
        _get_interface_info sample_uuidify dni_dict' device_id' network_id'
          external' cls'
        = inr (answer_of (config_writes sample_uuidify sample_config)
                 device_id' network_id' external', cls'') /\
        _device_network_interface_map cls''
        = _device_network_interface_map cls'.
Proof.
  apply (interface_info_needs_wildcard sample_uuidify sample_config
           "dev1" "net9" true []).
  constructor; [by eexists | constructor].
Defined.

End InterfaceConfig.
